(** * ec_pylint_checkers.import_checker: a shallow embedding

    The development follows [src/ec_pylint_checkers/import_checker.py]:
    the module classifier [_module_group], the visitor callbacks of
    [ImportChecker] and the end-of-module verification [leave_module],
    together with the parts of Python's [difflib] that [leave_module]
    calls to render the diff of its C7003/C7004 messages. *)

From Stdlib Require Import ZArith String Ascii List Lia DecimalString DecimalNat.
From stdpp Require Import base option list sorting gmap strings.

Local Open Scope string_scope.
Local Open Scope nat_scope.
Local Open Scope list_scope.

(** ** The fragment of Python the checker is written in *)

Module Py.

(** Exceptions that the modelled code can see. *)
Inductive exn : Set :=
| ImportError
| IndexError
| TypeError
| ValueError.

(** The result of evaluating an expression: a value, or a raised
    exception. *)
Inductive outcome (A : Type) : Type :=
| Return (a : A)
| Raise (e : exn).
Arguments Return {A} a.
Arguments Raise {A} e.

Definition bind {A B} (m : outcome A) (k : A -> outcome B) : outcome B :=
  match m with
  | Return a => k a
  | Raise e => Raise e
  end.

(** [l[i]] for a non-negative literal index [i]. *)
Definition getitem {A} (l : list A) (i : nat) : outcome A :=
  match l !! i with
  | Some x => Return x
  | None => Raise IndexError
  end.

(** [s.split(sep)] for a one-character separator: the fields between
    the separators, empty fields included; never the empty list. *)
Fixpoint split (sep : ascii) (s : string) : list string :=
  match s with
  | EmptyString => [EmptyString]
  | String c s' =>
      if Ascii.eqb c sep then EmptyString :: split sep s'
      else match split sep s' with
           | [] => [String c EmptyString]
           | w :: ws => String c w :: ws
           end
  end.

(** [s.startswith(p)]. *)
Definition startswith (s p : string) : bool := String.prefix p s.

(** [l[:stop]], with Python's treatment of a negative or too large
    [stop]: a negative [stop] counts from the end, and the bound is
    clamped to the list. *)
Definition slice_to {A} (l : list A) (stop : Z) : list A :=
  if (stop <? 0)%Z
  then take (Z.to_nat (Z.max 0 (Z.of_nat (length l) + stop))) l
  else take (Z.to_nat stop) l.

(** [l[lo:hi]] for indices [0 <= lo], [0 <= hi]. *)
Definition slice {A} (l : list A) (lo hi : nat) : list A :=
  take (hi - lo) (drop lo l).

(** [filter(None, l)] on strings: the empty string is the only falsy
    one. *)
Definition filter_None (l : list string) : list string :=
  List.filter (fun s => negb (String.eqb s "")) l.

(** [sep.join(l)]. *)
Definition join (sep : string) (l : list string) : string := String.concat sep l.

(** ['{}'.format(n)] and ['%d' % n] for a non-negative integer. *)
Definition str_of_nat (n : nat) : string := NilEmpty.string_of_uint (Nat.to_uint n).

(** The newline character. *)
Definition nl : string := String (ascii_of_nat 10) EmptyString.

(** *** Rich comparison

    [cmp x y] is the three-way result of Python's ordering of [x] and
    [y]; [x < y] is [cmp x y = Lt].  Integers compare by value, byte
    strings bytewise (a proper prefix is smaller), tuples and lists by
    their first differing item, a proper prefix being smaller. *)
Class Cmp (A : Type) : Type := cmp : A -> A -> comparison.

Definition lex (c1 c2 : comparison) : comparison :=
  match c1 with
  | Eq => c2
  | c => c
  end.

Fixpoint list_cmp {A} (c : A -> A -> comparison) (l1 l2 : list A) : comparison :=
  match l1, l2 with
  | [], [] => Eq
  | [], _ :: _ => Lt
  | _ :: _, [] => Gt
  | x :: l1', y :: l2' => lex (c x y) (list_cmp c l1' l2')
  end.

#[global] Instance nat_cmp : Cmp nat := Nat.compare.
#[global] Instance Z_cmp : Cmp Z := Z.compare.
#[global] Instance string_cmp : Cmp string := String.compare.
#[global] Instance pair_cmp {A B} `{Cmp A, Cmp B} : Cmp (A * B) :=
  fun x y => lex (cmp (fst x) (fst y)) (cmp (snd x) (snd y)).
#[global] Instance seq_cmp {A} `{Cmp A} : Cmp (list A) := list_cmp cmp.

Definition lt {A} `{Cmp A} (x y : A) : bool :=
  match cmp x y with
  | Lt => true
  | _ => false
  end.

(** The comparison of a type is a total order that agrees with [==]. *)
Class CmpLaws (A : Type) `{Cmp A} : Prop := {
  cmp_eq x y : cmp x y = Eq <-> x = y;
  cmp_opp x y : cmp y x = CompOpp (cmp x y);
  cmp_lt_trans x y z : cmp x y = Lt -> cmp y z = Lt -> cmp x z = Lt
}.

(** [not (y < x)] *)
Definition le {A} `{Cmp A} (x y : A) : Prop := lt y x = false.

(** *** [list.sort()]

    Python's sort is stable and compares with [<] only.  It is modelled
    by the stable insertion sort: going through the list from the right,
    each item is put before the first item that is not smaller than it.
    (For a total order every stable sort gives this same list; see
    [sort_unique] below.) *)
Fixpoint insort {A} `{Cmp A} (x : A) (l : list A) : list A :=
  match l with
  | [] => [x]
  | y :: l' => if lt y x then y :: insort x l' else x :: y :: l'
  end.

Definition sort {A} `{Cmp A} (l : list A) : list A := foldr insort [] l.

(** [enumerate(l)] *)
Definition enumerate {A} (l : list A) : list (nat * A) := imap (fun i x => (i, x)) l.

End Py.

Import Py.

#[global] Instance outcome_ret : MRet outcome := @Return.
#[global] Instance outcome_bind : MBind outcome := fun A B k m => Py.bind m k.

(** ** [difflib]: what [unified_diff] computes

    [leave_module] renders its diff with [difflib.unified_diff(a, b,
    fromfile='actual', tofile='expected')], which runs
    [SequenceMatcher(None, a, b).get_grouped_opcodes(3)].  [difflib] is
    a module of Python's standard library, not of this repository; the
    definitions below follow CPython's [Lib/difflib.py] (as of 3.11; the
    range format of the hunk headers dates from 2.7.1) function by
    function for this use: [isjunk] is [None] (so the junk set is empty and the
    two loops of [find_longest_match] that extend a match over junk
    never run) and [autojunk] is [True].  Indices are never negative and
    are kept in [nat]. *)

Module difflib.

Inductive tag : Set := replace | delete | insert | equal.

#[global] Instance tag_eq_dec : EqDecision tag.
Proof. solve_decision. Defined.

Abbreviation opcode := (tag * nat * nat * nat * nat)%type (only parsing).
Abbreviation Match := (nat * nat * nat)%type (only parsing).

Section SequenceMatcher.

Variables a b : list string.

(** [__chain_b], first loop: for each element of [b] the increasing
    list of the positions where it occurs. *)
Definition chain_b_indices : gmap string (list nat) :=
  foldl (fun b2j '(i, elt) => <[elt := default [] (b2j !! elt) ++ [i]]> b2j)
        ∅ (enumerate b).

(** [__chain_b], the [autojunk] purge: in a [b] of 200 items or more,
    elements that occur more than [n // 100 + 1] times are dropped. *)
Definition b2j : gmap string (list nat) :=
  let n := length b in
  if 200 <=? n
  then let ntest := n / 100 + 1 in
       filter (fun kv => length (snd kv) <= ntest) chain_b_indices
  else chain_b_indices.

(** [j2len.get(j-1, 0)]; no negative key is ever stored. *)
Definition j2lenget (j2len : gmap nat nat) (j : nat) : nat :=
  match j with
  | 0 => 0
  | S j' => default 0 (j2len !! j')
  end.

(** The loop [for j in b2j.get(a[i], nothing)] of [find_longest_match]. *)
Fixpoint scan_js (blo bhi i : nat) (j2len : gmap nat nat) (js : list nat)
    (newj2len : gmap nat nat) (best : Match) : gmap nat nat * Match :=
  match js with
  | [] => (newj2len, best)
  | j :: js' =>
      if j <? blo then scan_js blo bhi i j2len js' newj2len best
      else if bhi <=? j then (newj2len, best)
      else
        let k := j2lenget j2len j + 1 in
        let newj2len := <[j := k]> newj2len in
        let best := if snd best <? k then (i + 1 - k, j + 1 - k, k) else best in
        scan_js blo bhi i j2len js' newj2len best
  end.

(** One round of the loop [for i in range(alo, ahi)].  The ranges that
    [get_matching_blocks] asks for lie inside the lists, so that [a[i]]
    exists; outside [a] the round finds nothing. *)
Definition scan_i (blo bhi : nat) (st : gmap nat nat * Match) (i : nat)
    : gmap nat nat * Match :=
  let js := match a !! i with
            | Some elt => default [] (b2j !! elt)
            | None => []
            end in
  scan_js blo bhi i (fst st) js ∅ (snd st).

(** [a[i] == b[j]] for positions inside the lists. *)
Definition same_item (i j : nat) : bool :=
  match a !! i, b !! j with
  | Some x, Some y => bool_decide (x = y)
  | _, _ => false
  end.

(** [while besti > alo and bestj > blo and a[besti-1] == b[bestj-1]];
    the loop cannot run more than [besti] times, which is the [fuel] it
    is given. *)
Fixpoint extend_left (fuel alo blo : nat) (best : Match) : Match :=
  match fuel with
  | 0 => best
  | S fuel' =>
      let '(besti, bestj, bestsize) := best in
      if (alo <? besti) && (blo <? bestj) && same_item (besti - 1) (bestj - 1)
      then extend_left fuel' alo blo (besti - 1, bestj - 1, bestsize + 1)
      else best
  end.

(** [while besti+bestsize < ahi and bestj+bestsize < bhi and
    a[besti+bestsize] == b[bestj+bestsize]]; it cannot run more than
    [ahi] times. *)
Fixpoint extend_right (fuel ahi bhi : nat) (best : Match) : Match :=
  match fuel with
  | 0 => best
  | S fuel' =>
      let '(besti, bestj, bestsize) := best in
      if (besti + bestsize <? ahi) && (bestj + bestsize <? bhi)
         && same_item (besti + bestsize) (bestj + bestsize)
      then extend_right fuel' ahi bhi (besti, bestj, bestsize + 1)
      else best
  end.

Definition find_longest_match (alo ahi blo bhi : nat) : Match :=
  let best0 : Match := (alo, blo, 0) in
  let '(_, best) := foldl (scan_i blo bhi) (∅, best0) (seq alo (ahi - alo)) in
  let best := extend_left (fst (fst best)) alo blo best in
  extend_right ahi ahi bhi best.

(** The [while queue] loop of [get_matching_blocks]; [queue.pop()]
    takes the last item and [queue.append] adds at the end.  The loop
    ends when the queue is empty; [fuel] bounds the number of rounds. *)
Fixpoint matching_loop (fuel : nat) (queue : list (nat * nat * nat * nat))
    (matching_blocks : list Match) : list Match :=
  match fuel with
  | 0 => matching_blocks
  | S fuel' =>
      match reverse queue with
      | [] => matching_blocks
      | (alo, ahi, blo, bhi) :: rest =>
          let queue := reverse rest in
          let '(i, j, k) := find_longest_match alo ahi blo bhi in
          if 0 <? k then
            let matching_blocks := matching_blocks ++ [(i, j, k)] in
            let queue := if (alo <? i) && (blo <? j)
                         then queue ++ [(alo, i, blo, j)] else queue in
            let queue := if (i + k <? ahi) && (j + k <? bhi)
                         then queue ++ [(i + k, ahi, j + k, bhi)] else queue in
            matching_loop fuel' queue matching_blocks
          else matching_loop fuel' queue matching_blocks
      end
  end.

(** The loop of [get_matching_blocks] that merges adjacent blocks; the
    state is [(i1, j1, k1)] and [non_adjacent]. *)
Definition collapse_step (st : Match * list Match) (blk : Match) : Match * list Match :=
  let '((i1, j1, k1), non_adjacent) := st in
  let '(i2, j2, k2) := blk in
  if (i1 + k1 =? i2) && (j1 + k1 =? j2)
  then ((i1, j1, k1 + k2), non_adjacent)
  else ((i2, j2, k2), if 0 <? k1 then non_adjacent ++ [(i1, j1, k1)] else non_adjacent).

(** Every round of [matching_loop] that finds a block uses up at least
    one item of [a], and pushes at most two ranges: [2 * len(a) + 1]
    rounds empty the queue (lemma [matching_loop_fuel]). *)
Definition matching_fuel : nat := 2 * length a + 2.

Definition get_matching_blocks : list Match :=
  let la := length a in
  let lb := length b in
  let matching_blocks := matching_loop matching_fuel [(0, la, 0, lb)] [] in
  let matching_blocks := sort matching_blocks in
  let '((i1, j1, k1), non_adjacent) :=
    foldl collapse_step ((0, 0, 0), []) matching_blocks in
  let non_adjacent := if 0 <? k1 then non_adjacent ++ [(i1, j1, k1)] else non_adjacent in
  non_adjacent ++ [(la, lb, 0)].

(** The loop of [get_opcodes]; the state is [(i, j)] and [answer]. *)
Definition opcode_step (st : nat * nat * list opcode) (blk : Match)
    : nat * nat * list opcode :=
  let '(i, j, answer) := st in
  let '(ai, bj, size) := blk in
  let answer :=
    if (i <? ai) && (j <? bj) then answer ++ [(replace, i, ai, j, bj)]
    else if i <? ai then answer ++ [(delete, i, ai, j, bj)]
    else if j <? bj then answer ++ [(insert, i, ai, j, bj)]
    else answer in
  let i := ai + size in
  let j := bj + size in
  let answer := if 0 <? size then answer ++ [(equal, ai, i, bj, j)] else answer in
  (i, j, answer).

Definition get_opcodes : list opcode :=
  snd (foldl opcode_step (0, 0, []) get_matching_blocks).

(** [codes[0] = ...] on a non-empty list. *)
Definition set_first {A} (f : A -> A) (l : list A) : list A :=
  match l with
  | [] => []
  | x :: l' => f x :: l'
  end.

(** [codes[-1] = ...] on a non-empty list. *)
Definition set_last {A} (f : A -> A) (l : list A) : list A :=
  reverse (set_first f (reverse l)).

Definition trim_first (n : nat) (c : opcode) : opcode :=
  let '(tg, i1, i2, j1, j2) := c in
  if bool_decide (tg = equal) then (tg, max i1 (i2 - n), i2, max j1 (j2 - n), j2) else c.

Definition trim_last (n : nat) (c : opcode) : opcode :=
  let '(tg, i1, i2, j1, j2) := c in
  if bool_decide (tg = equal) then (tg, i1, min i2 (i1 + n), j1, min j2 (j1 + n)) else c.

(** The loop of [get_grouped_opcodes]; the state is the open [group]
    and the groups yielded so far. *)
Definition group_step (n : nat) (st : list opcode * list (list opcode)) (c : opcode)
    : list opcode * list (list opcode) :=
  let '(group, yielded) := st in
  let '(tg, i1, i2, j1, j2) := c in
  if bool_decide (tg = equal) && (n + n <? i2 - i1)
  then ([(tg, max i1 (i2 - n), i2, max j1 (j2 - n), j2)],
        yielded ++ [group ++ [(tg, i1, min i2 (i1 + n), j1, min j2 (j1 + n))]])
  else (group ++ [c], yielded).

Definition is_equal_code (c : opcode) : bool :=
  bool_decide (fst (fst (fst (fst c))) = equal).

Definition get_grouped_opcodes (n : nat) : list (list opcode) :=
  let codes := get_opcodes in
  let codes := match codes with [] => [(equal, 0, 1, 0, 1)] | _ => codes end in
  let codes := set_first (trim_first n) codes in
  let codes := set_last (trim_last n) codes in
  let '(group, yielded) := foldl (group_step n) ([], []) codes in
  match group with
  | [] => yielded
  | [c] => if is_equal_code c then yielded else yielded ++ [group]
  | _ => yielded ++ [group]
  end.

End SequenceMatcher.

Definition _format_range_unified (start stop : nat) : string :=
  let beginning := start + 1 in
  let length := stop - start in
  if length =? 1 then str_of_nat beginning
  else
    let beginning := if length =? 0 then beginning - 1 else beginning in
    str_of_nat beginning +:+ "," +:+ str_of_nat length.

(** The lines yielded for one opcode of a group. *)
Definition opcode_lines (a b : list string) (c : opcode) : list string :=
  let '(tg, i1, i2, j1, j2) := c in
  match tg with
  | equal => map (fun line => " " +:+ line) (slice a i1 i2)
  | replace => map (fun line => "-" +:+ line) (slice a i1 i2)
               ++ map (fun line => "+" +:+ line) (slice b j1 j2)
  | delete => map (fun line => "-" +:+ line) (slice a i1 i2)
  | insert => map (fun line => "+" +:+ line) (slice b j1 j2)
  end.

(** The lines yielded for one group: the [@@] line, then the body.
    A group is never empty; [group[0]] and [group[-1]] are taken with
    the default the empty group would need. *)
Definition group_lines (a b : list string) (lineterm : string) (group : list opcode)
    : list string :=
  let first := hd (equal, 0, 0, 0, 0) group in
  let last := List.last group (equal, 0, 0, 0, 0) in
  let file1_range :=
    _format_range_unified (snd (fst (fst (fst first)))) (snd (fst (fst last))) in
  let file2_range :=
    _format_range_unified (snd (fst first)) (snd last) in
  ("@@ -" +:+ file1_range +:+ " +" +:+ file2_range +:+ " @@" +:+ lineterm)
    :: concat (map (opcode_lines a b) group).

(** [unified_diff(a, b, fromfile, tofile)] with the defaults
    [fromfiledate = tofiledate = ''], [n = 3], [lineterm = '\n']: the
    two header lines come before the first group, and not at all when
    there is no group. *)
Definition unified_diff (a b : list string) (fromfile tofile : string) : list string :=
  let lineterm := nl in
  match get_grouped_opcodes a b 3 with
  | [] => []
  | groups =>
      ("--- " +:+ fromfile +:+ "" +:+ lineterm)
        :: ("+++ " +:+ tofile +:+ "" +:+ lineterm)
        :: concat (map (group_lines a b lineterm) groups)
  end.

End difflib.

(** ** The interpreter state the module reads when it is loaded *)

(** What [imp.find_module] returns: [(file, pathname, description)].
    The checker only reads the path name; the open file is kept as its
    name and the description is the triple [(suffix, mode, type)]. *)
Abbreviation found_module := (option string * string * (string * string * Z))%type
  (only parsing).

Record Runtime : Type := {
  sys_builtin_module_names : list string;
  sys_prefix : string;
  sys_real_prefix : option string;
  os_getcwd : string;
  os_path_realpath : string -> string;
  imp_find_module : string -> outcome found_module
}.

(** ** The module classifier *)

Section Classifier.

Variable rt : Runtime.

(** [getattr(sys, 'real_prefix', sys.prefix)] *)
Definition stdlib_root : string :=
  match sys_real_prefix rt with
  | Some p => p
  | None => sys_prefix rt
  end.

Definition _STDLIB_PREFIX : string := os_path_realpath rt stdlib_root +:+ "/".
Definition _APP_PREFIX : string := os_path_realpath rt (os_getcwd rt) +:+ "/".

Definition _GROUP_STDLIB : Z := 0.
Definition _GROUP_THIRD_PARTY : Z := 1.
Definition _GROUP_APP_SPECIFIC : Z := 2.

Definition _module_group (name : string) : outcome Z :=
  if bool_decide (name ∈ sys_builtin_module_names rt) then Return _GROUP_STDLIB
  else
    match imp_find_module rt name with
    | Raise ImportError => Return _GROUP_THIRD_PARTY
    | Raise e => Raise e
    | Return found =>
        let path := snd (fst found) in
        let real_path := os_path_realpath rt path in
        let path_pieces : gset string := list_to_set (split "/" real_path) in
        if startswith real_path _APP_PREFIX then Return _GROUP_APP_SPECIFIC
        else if startswith real_path _STDLIB_PREFIX
                && bool_decide ("site-packages" ∉ path_pieces)
                && bool_decide ("dist-packages" ∉ path_pieces)
        then Return _GROUP_STDLIB
        else Return _GROUP_THIRD_PARTY
    end.

End Classifier.

(** ** Syntax-tree nodes

    The checker reads four things of an import statement: its [names]
    (pairs of a name and an optional alias), for a from-import its
    [modname] and [level], its [parent] node, and its rendering
    [as_string()]. *)

Inductive parent_node : Set :=
| Module
| Function
| Class
| If
| TryExcept
| TryFinally
| For
| While
| With.

#[global] Instance parent_node_eq_dec : EqDecision parent_node.
Proof. solve_decision. Defined.

Inductive import_node : Type :=
| Import (names : list (string * option string)) (parent : parent_node)
         (as_string : string)
| From (modname : string) (names : list (string * option string)) (level : Z)
       (parent : parent_node) (as_string : string).

#[global] Instance import_node_eq_dec : EqDecision import_node.
Proof. solve_decision. Defined.

Definition names (n : import_node) : list (string * option string) :=
  match n with
  | Import names _ _ => names
  | From _ names _ _ _ => names
  end.

Definition parent (n : import_node) : parent_node :=
  match n with
  | Import _ parent _ => parent
  | From _ _ _ parent _ => parent
  end.

Definition as_string (n : import_node) : string :=
  match n with
  | Import _ _ s => s
  | From _ _ _ _ s => s
  end.

(** Only a from-import has a [level]; [visit_from], the one reader of
    [node.level] outside [leave_module], is called on from-imports. *)
Definition level (n : import_node) : Z :=
  match n with
  | Import _ _ _ => 0%Z
  | From _ _ level _ _ => level
  end.

(** The module node handed to [leave_module]; only its dotted [name]
    is read. *)
Record module_node : Type := { name : string }.

(** ** The checker *)

(** A message handed to the linter by [add_message(msg_id, node=...,
    args=...)]. *)
Record message : Type := {
  msg_id : string;
  msg_node : option import_node;
  msg_args : list string
}.

(** The state a method of [ImportChecker] acts on: the list
    [self._imports] and the messages the linter has received. *)
Record ImportChecker : Type := {
  _imports : list import_node;
  messages : list message
}.

(** A method runs on the checker, returns or raises, and leaves the
    checker in a new state. *)
Definition method (A : Type) : Type := ImportChecker -> outcome A * ImportChecker.

#[global] Instance method_ret : MRet method := fun A x self => (Return x, self).
#[global] Instance method_bind : MBind method := fun A B k m self =>
  match m self with
  | (Return x, self') => k x self'
  | (Raise e, self') => (Raise e, self')
  end.

(** [ImportChecker.__init__] *)
Definition __init__ : ImportChecker := {| _imports := []; messages := [] |}.

Definition add_message (id : string) (node : option import_node) (args : list string)
    : method unit :=
  fun self =>
    (Return tt,
     {| _imports := _imports self;
        messages := messages self ++ [{| msg_id := id; msg_node := node; msg_args := args |}] |}).

Definition _handle_import (node : import_node) : method unit :=
  fun self =>
    if bool_decide (parent node = Module)
    then (Return tt, {| _imports := _imports self ++ [node]; messages := messages self |})
    else add_message "C7002" (Some node) [] self.

Definition visit_import (node : import_node) : method unit :=
  (if 1 <? length (names node) then add_message "C7001" (Some node) [] else mret tt) ;;
  _handle_import node.

(** [if node.level:] is true for a non-zero level. *)
Definition visit_from (node : import_node) : method unit :=
  (if negb (level node =? 0)%Z then add_message "C7005" (Some node) [] else mret tt) ;;
  _handle_import node.

(** The [pieces] of one collected import (lines 151-158). *)
Definition import_pieces (node : module_node) (import_node : import_node)
    : outcome (list string) :=
  match import_node with
  | Import names _ _ =>
      n0 ← getitem names 0;
      mret (split "." (fst n0))
  | From modname names level _ _ =>
      let own := slice_to (split "." (name node)) (- level) in
      let stated := filter_None (split "." modname) in
      n0 ← getitem names 0;
      mret (own ++ stated ++ [fst n0])
  end.

(** The sort keys: [(group_idx, idx, import_str)] for C7003 and
    [(group_idx, module_name_pieces, import_str)] for C7004. *)
Abbreviation key1 := (Z * nat * string)%type (only parsing).
Abbreviation key2 := (Z * list string * string)%type (only parsing).

(** One round of the loop [for i, import_node in enumerate(self._imports)];
    the state is [(actual, expected1, expected2)]. *)
Definition collect_step (rt : Runtime) (node : module_node)
    (st : list string * list key1 * list key2) (entry : nat * import_node)
    : outcome (list string * list key1 * list key2) :=
  let '(actual, expected1, expected2) := st in
  let '(i, import_node) := entry in
  pieces ← import_pieces node import_node;
  let import_str := as_string import_node in
  let actual := actual ++ [import_str] in
  p0 ← getitem pieces 0;
  group ← _module_group rt p0;
  mret (actual,
        expected1 ++ [(group, i, import_str)],
        expected2 ++ [(group, pieces, import_str)]).

Fixpoint collect_loop (rt : Runtime) (node : module_node)
    (st : list string * list key1 * list key2) (entries : list (nat * import_node))
    : outcome (list string * list key1 * list key2) :=
  match entries with
  | [] => mret st
  | entry :: entries' =>
      st' ← collect_step rt node st entry;
      collect_loop rt node st' entries'
  end.

(** [data[-1] for data in expected] *)
Definition last_field {K} (l : list (K * string)) : list string := map snd l.

(** The three arguments of a C7003/C7004 message. *)
Definition order_args (actual expected_strs : list string) : list string :=
  [ join nl (map (fun line => "  " +:+ line) actual);
    join nl (map (fun line => "  " +:+ line) expected_strs);
    join "" (difflib.unified_diff (map (fun line => line +:+ nl) actual)
                                  (map (fun line => line +:+ nl) expected_strs)
                                  "actual" "expected") ].

(** The loop [for msg, expected in [('C7003', expected1), ('C7004',
    expected2)]], on the sorted and projected lists; the recursion stops
    at the first message ([break]). *)
Fixpoint complain (actual : list string) (checks : list (string * list string))
    : method unit :=
  match checks with
  | [] => mret tt
  | (msg, expected_strs) :: checks' =>
      if bool_decide (actual ≠ expected_strs)
      then add_message msg None (order_args actual expected_strs)
      else complain actual checks'
  end.

(** [self._imports[:] = []] *)
Definition reset_imports : method unit :=
  fun self => (Return tt, {| _imports := []; messages := messages self |}).

Definition leave_module (rt : Runtime) (node : module_node) : method unit :=
  fun self =>
    match collect_loop rt node ([], [], []) (enumerate (_imports self)) with
    | Raise e => (Raise e, self)
    | Return (actual, expected1, expected2) =>
        (complain actual [("C7003", last_field (sort expected1));
                          ("C7004", last_field (sort expected2))] ;;
         reset_imports) self
    end.

(** ** Words of the specification *)

(** A path lies under a directory when it continues the directory's
    path after a slash. *)
Definition lies_under (root path : string) : Prop :=
  exists rest, path = (root +:+ "/") +:+ rest.

(** A path segment of a path: one of the fields between its slashes. *)
Definition has_segment (seg path : string) : Prop := seg ∈ split "/" path.

#[global] Instance has_segment_dec seg path : Decision (has_segment seg path).
Proof. unfold has_segment. apply _. Defined.

(** The path [imp.find_module] found, made real. *)
Definition resolved_real_path (rt : Runtime) (found : found_module) : string :=
  os_path_realpath rt (snd (fst found)).

(** The module path pieces a from-import states. *)
Definition stated_pieces (modname : string) : list string :=
  filter_None (split "." modname).

(** The pieces of a from-import as the specification words them: the
    enclosing module's path without its last [level] pieces ("0 strips
    none"), then the stated pieces, then the first imported name. *)
Definition spec_from_pieces (own : list string) (level : nat) (stated : list string)
    (first_name : string) : list string :=
  take (length own - level) own ++ stated ++ [first_name].

(** A small installation to run the definitions on. *)
Definition found_at (path : string) : found_module := (None, path, ("", "", 5%Z)).

Definition demo_rt : Runtime := {|
  sys_builtin_module_names := ["sys"; "imp"];
  sys_prefix := "/usr";
  sys_real_prefix := None;
  os_getcwd := "/home/dev/proj";
  os_path_realpath := fun p => p;
  imp_find_module := fun n =>
    if String.eqb n "os" then Return (found_at "/usr/lib/python2.7/os.py")
    else if String.eqb n "requests"
    then Return (found_at "/usr/lib/python2.7/site-packages/requests")
    else if String.eqb n "yaml" then Return (found_at "/opt/yaml")
    else if String.eqb n "myapp" then Return (found_at "/home/dev/proj/myapp")
    else Raise ImportError
|}.

(** A record of a sort: a key with the sequence index of the import it
    was computed for.  Records compare as their keys do, so that sorting
    the records shows where [list.sort()] puts each key of the list. *)
Definition by_key {K} `{Cmp K} : Cmp (nat * K) := fun r1 r2 => cmp (snd r1) (snd r2).

Definition sort_records {K} `{Cmp K} (records : list (nat * K)) : list (nat * K) :=
  @sort _ by_key records.

(** [x] occurs before [y] in [l]. *)
Definition before {A} (l : list A) (x y : A) : Prop :=
  exists p q, p < q /\ l !! p = Some x /\ l !! q = Some y.

(** Sorting [keys] is stable: the sorted list is the list of the keys
    of the sorted records, and records with the same key come in the
    order of their sequence indices. *)
Definition stable_sorted {K} `{Cmp K} (keys : list K) : Prop :=
  let records := sort_records (enumerate keys) in
  map snd records = sort keys
  /\ forall p q i j k,
       p < q -> records !! p = Some (i, k) -> records !! q = Some (j, k) -> i < j.

(** The group of a key. *)
Definition group_of {B C} (key : Z * B * C) : Z := fst (fst key).

(** The messages of the checker. *)
Definition c7001 (node : import_node) : message :=
  {| msg_id := "C7001"; msg_node := Some node; msg_args := [] |}.
Definition c7002 (node : import_node) : message :=
  {| msg_id := "C7002"; msg_node := Some node; msg_args := [] |}.
Definition c7005 (node : import_node) : message :=
  {| msg_id := "C7005"; msg_node := Some node; msg_args := [] |}.
Definition order_message (id : string) (actual expected_strs : list string) : message :=
  {| msg_id := id; msg_node := None; msg_args := order_args actual expected_strs |}.

(** The messages [leave_module] adds for the rendered texts [actual] of
    the collected imports and the two expected orders. *)
Definition order_messages (actual strs1 strs2 : list string) : list message :=
  if bool_decide (actual ≠ strs1) then [order_message "C7003" actual strs1]
  else if bool_decide (actual ≠ strs2) then [order_message "C7004" actual strs2]
  else [].

(** ** Applying a unified diff *)

Definition is_digit (c : ascii) : bool :=
  (48 <=? nat_of_ascii c) && (nat_of_ascii c <=? 57).

(** The number written by a run of digits, after the digits read so
    far, and what follows the run. *)
Fixpoint parse_digits (acc : nat) (s : string) : nat * string :=
  match s with
  | String c s' =>
      if is_digit c then parse_digits (10 * acc + (nat_of_ascii c - 48)) s'
      else (acc, s)
  | EmptyString => (acc, s)
  end.

Definition parse_nat (s : string) : option (nat * string) :=
  match s with
  | String c _ => if is_digit c then Some (parse_digits 0 s) else None
  | EmptyString => None
  end.

Fixpoint strip_prefix (p s : string) : option string :=
  match p, s with
  | EmptyString, _ => Some s
  | String c p', String d s' => if Ascii.eqb c d then strip_prefix p' s' else None
  | String _ _, EmptyString => None
  end.

(** A range of a hunk header: [start,length], or [start] alone for a
    range of one line. *)
Definition parse_range (s : string) : option (nat * nat) :=
  match parse_nat s with
  | Some (start, rest) =>
      match strip_prefix "," rest with
      | Some rest' =>
          match parse_nat rest' with
          | Some (len, _) => Some (start, len)
          | None => None
          end
      | None => Some (start, 1)
      end
  | None => None
  end.

(** The position in the old file, counted from 0, where the hunk of a
    header [@@ -range +range @@] starts: an empty range names the line
    before it. *)
Definition hunk_start (line : string) : option nat :=
  match strip_prefix "@@ -" line with
  | Some r =>
      match parse_range r with
      | Some (start, len) => Some (if len =? 0 then start else start - 1)
      | None => None
      end
  | None => None
  end.

(** The hunks of a unified diff applied to the lines of the old file:
    [pos] lines are consumed, [rest] are the lines not yet consumed and
    [out] is the new file so far.  A header line moves to the start of
    its hunk, keeping the lines passed over; a line marked with a space
    keeps the next old line, a line marked [-] drops it (both must show
    the old line), and a line marked [+] is inserted.  The old lines
    after the last hunk are kept. *)
Fixpoint apply_hunks (diff : list string) (pos : nat) (rest out : list string)
    : option (list string) :=
  match diff with
  | [] => Some (out ++ rest)
  | line :: diff' =>
      match line with
      | String "@" _ =>
          match hunk_start line with
          | Some start =>
              if (pos <=? start) && (start - pos <=? length rest)
              then apply_hunks diff' start (drop (start - pos) rest)
                               (out ++ take (start - pos) rest)
              else None
          | None => None
          end
      | String " " text =>
          match rest with
          | old :: rest' =>
              if String.eqb old text
              then apply_hunks diff' (S pos) rest' (out ++ [old]) else None
          | [] => None
          end
      | String "-" text =>
          match rest with
          | old :: rest' =>
              if String.eqb old text then apply_hunks diff' (S pos) rest' out else None
          | [] => None
          end
      | String "+" text => apply_hunks diff' pos rest (out ++ [text])
      | _ => None
      end
  end.

(** A unified diff applied to the old file [a]: nothing to do for the
    empty diff; otherwise the two file header lines, then the hunks. *)
Definition apply_patch (diff a : list string) : option (list string) :=
  match diff with
  | [] => Some a
  | from_line :: to_line :: hunks =>
      if String.prefix "--- " from_line && String.prefix "+++ " to_line
      then apply_hunks hunks 0 a []
      else None
  | [_] => None
  end.

(** ** Words for the blocks and opcodes of [difflib] *)

(** [a[i:i+k] == b[j:j+k]], item by item. *)
Definition is_match (a b : list string) (i j k : nat) : Prop :=
  forall d, d < k -> exists x, a !! (i + d) = Some x /\ b !! (j + d) = Some x.

(** What [find_longest_match(alo, ahi, blo, bhi)] keeps true of its
    best block: it matches, and it is either the empty block at the
    corner of the ranges or a block inside them. *)
Definition best_inv (a b : list string) (alo ahi blo bhi : nat)
    (best : nat * nat * nat) : Prop :=
  let '(bi, bj, bk) := best in
  is_match a b bi bj bk
  /\ ((bk = 0 /\ bi = alo /\ bj = blo)
      \/ (0 < bk /\ alo <= bi /\ blo <= bj /\ bi + bk <= ahi /\ bj + bk <= bhi)).

(** What its table [j2len] holds before row [i]: the lengths of the
    matches that end at row [i - 1] and at the column of the key. *)
Definition j2len_inv (a b : list string) (alo blo bhi i : nat)
    (j2len : gmap nat nat) : Prop :=
  forall j k, j2len !! j = Some k ->
    1 <= k /\ alo + k <= i /\ blo + k <= S j /\ j < bhi
    /\ is_match a b (i - k) (S j - k) k.

(** The ranges [(alo, ahi, blo, bhi)] a block covers. *)
Definition block_box (m : nat * nat * nat) : nat * nat * nat * nat :=
  let '(i, j, k) := m in (i, i + k, j, j + k).

(** Two ranges are apart when one ends, in [a] and in [b], where the
    other starts or before. *)
Definition apart (r1 r2 : nat * nat * nat * nat) : Prop :=
  let '(alo1, ahi1, blo1, bhi1) := r1 in
  let '(alo2, ahi2, blo2, bhi2) := r2 in
  (ahi1 <= alo2 /\ bhi1 <= blo2) \/ (ahi2 <= alo1 /\ bhi2 <= blo1).

(** A block found by [find_longest_match]: equal items, not empty. *)
Definition found_block (a b : list string) (m : nat * nat * nat) : Prop :=
  let '(i, j, k) := m in is_match a b i j k /\ 0 < k.

(** The number of rounds the queue of [get_matching_blocks] can still
    take. *)
Definition queue_weight (queue : list (nat * nat * nat * nat)) : nat :=
  sum_list_with (fun r => 2 * (snd (fst (fst r)) - fst (fst (fst r))) + 1) queue.

(** A block ends where the next one starts or before. *)
Definition precedes (m1 m2 : nat * nat * nat) : Prop :=
  let '(i1, j1, k1) := m1 in
  let '(i2, j2, k2) := m2 in
  i1 + k1 <= i2 /\ j1 + k1 <= j2.

(** A block of equal items inside the two lists (it may be empty). *)
Definition match_block (a b : list string) (m : nat * nat * nat) : Prop :=
  let '(i, j, k) := m in
  is_match a b i j k /\ i + k <= length a /\ j + k <= length b.

(** What an opcode [(tag, i1, i2, j1, j2)] says of [a[i1:i2]] and
    [b[j1:j2]]. *)
Definition opcode_ok (a b : list string) (c : difflib.tag * nat * nat * nat * nat)
    : Prop :=
  let '(tg, i1, i2, j1, j2) := c in
  i1 <= i2 /\ i2 <= length a /\ j1 <= j2 /\ j2 <= length b
  /\ match tg with
     | difflib.equal => i2 - i1 = j2 - j1 /\ is_match a b i1 j1 (i2 - i1)
     | difflib.delete => j1 = j2
     | difflib.insert => i1 = i2
     | difflib.replace => True
     end.

(** The opcodes follow one another from [(i, j)] to [(i', j')]. *)
Fixpoint opcodes_linked (i j : nat) (ops : list (difflib.tag * nat * nat * nat * nat))
    (i' j' : nat) : Prop :=
  match ops with
  | [] => i = i' /\ j = j'
  | (_, i1, i2, j1, j2) :: ops' => i1 = i /\ j1 = j /\ opcodes_linked i2 j2 ops' i' j'
  end.

(** From [(i, j)] to [(i', j')] the two lists have the same items. *)
Definition same_stretch (a b : list string) (i j i' j' : nat) : Prop :=
  i <= i' /\ j <= j' /\ i' - i = j' - j /\ is_match a b i j (i' - i).

(** The groups of opcodes describe hunks that turn [a] into [b] from
    the position [(i, j)] on: up to each group, between the groups and
    after the last one the lists have the same items, and the opcodes
    of a group follow one another and say something true. *)
Fixpoint hunks_ok (a b : list string) (i j : nat)
    (groups : list (list (difflib.tag * nat * nat * nat * nat))) : Prop :=
  match groups with
  | [] => same_stretch a b i j (length a) (length b)
  | group :: groups' =>
      exists i1 j1 i2 j2,
        group <> []
        /\ same_stretch a b i j i1 j1
        /\ opcodes_linked i1 j1 group i2 j2
        /\ Forall (opcode_ok a b) group
        /\ hunks_ok a b i2 j2 groups'
  end.

(** What [get_grouped_opcodes] does with the group that is open when
    the opcodes are used up. *)
Definition last_group (group : list (difflib.tag * nat * nat * nat * nat))
    : list (list (difflib.tag * nat * nat * nat * nat)) :=
  match group with
  | [] => []
  | [c] => if difflib.is_equal_code c then [] else [group]
  | _ => [group]
  end.

(** Nothing of a number is left to read at the head of [s]. *)
Definition digits_end (s : string) : Prop :=
  forall acc, parse_digits acc s = (acc, s).

(** The lines of a text, each with its newline (the last one may have
    none). *)
Fixpoint splitlines (s : string) : list string :=
  match s with
  | EmptyString => []
  | String c s' =>
      if Ascii.eqb c (ascii_of_nat 10) then String c EmptyString :: splitlines s'
      else match splitlines s' with
           | [] => [String c EmptyString]
           | line :: lines => String c line :: lines
           end
  end.

Fixpoint no_newline (s : string) : bool :=
  match s with
  | EmptyString => true
  | String c s' => negb (Ascii.eqb c (ascii_of_nat 10)) && no_newline s'
  end.

(** A line that ends with its only newline. *)
Definition one_line (line : string) : Prop :=
  exists body, line = body +:+ nl /\ no_newline body = true.

(** A unified diff given as one text, applied to the old file. *)
Definition apply_patch_text (diff : string) (a : list string) : option (list string) :=
  apply_patch (splitlines diff) a.

(** ['%s\n' % line for line in l] *)
Definition with_newlines (l : list string) : list string :=
  map (fun line => line +:+ nl) l.

(** Modules to run the checker on. *)
Definition import_of (nm : string) : import_node :=
  Import [(nm, None)] Module ("import " +:+ nm).

Definition visit_all (stmts : list import_node) : ImportChecker :=
  foldl (fun self stmt => snd (visit_import stmt self)) __init__ stmts.

Definition demo_module : module_node := {| name := "myapp.main" |}.

Definition demo_imports : list import_node :=
  [import_of "requests"; import_of "os"; import_of "myapp"; import_of "os"].

Definition demo_actual : list string :=
  ["import requests"; "import os"; "import myapp"; "import os"].

Definition demo_expected1 : list key1 :=
  [(1%Z, 0, "import requests"); (0%Z, 1, "import os");
   (2%Z, 2, "import myapp"); (0%Z, 3, "import os")].

Definition demo_expected2 : list key2 :=
  [(1%Z, ["requests"], "import requests"); (0%Z, ["os"], "import os");
   (2%Z, ["myapp"], "import myapp"); (0%Z, ["os"], "import os")].

Definition nested_import : import_node :=
  Import [("json", None); ("re", None)] Function "import json, re".

Definition demo_message : message :=
  order_message "C7003" demo_actual
                ["import os"; "import os"; "import requests"; "import myapp"].

(** ** More of the module: the messages and the calls of the host *)

(** *** The message catalogue *)

(** The double quote, for the descriptions that quote PEP8. *)
Definition dq : string := String (ascii_of_nat 34) EmptyString.

(** The dictionary literal bound to [MSGS], before the C7004 entry is
    added. *)
Definition MSGS_literal : gmap string (string * string) :=
  list_to_map
    [ ("C7001",
       ("Imports should be on separate lines",
        "PEP8: " +:+ dq +:+ "Imports should usually be on separate lines" +:+ dq
        +:+ ", " +:+ "No: " +:+ dq +:+ "import sys, os" +:+ dq +:+ ", "
        +:+ "Okay: " +:+ dq +:+ "from subprocess import Popen, PIPE" +:+ dq +:+ "."));
      ("C7002",
       ("Imports should be at the top of the file",
        "PEP8: " +:+ dq +:+ "Imports are always put at the top of the file" +:+ dq
        +:+ ", " +:+ "Checks that imports do not happen inside functions."));
      ("C7003",
       ("Imports are out of order." +:+ nl +:+ nl
        +:+ "Found:" +:+ nl +:+ "%s" +:+ nl +:+ nl
        +:+ "Expected:" +:+ nl +:+ "%s" +:+ nl +:+ nl
        +:+ "Diff:" +:+ nl +:+ "%s",
        "PEP8: " +:+ dq +:+ "Imports should be grouped in the following order: "
        +:+ "standard library imports, related third party imports, "
        +:+ "local application/library specific imports" +:+ dq +:+ "."));
      ("C7005",
       ("Relative imports are highly discouraged",
        "PEP8: " +:+ dq +:+ "Relative imports for intra-package imports are highly "
        +:+ "discouraged. Always use the absolute package path for all "
        +:+ "imports." +:+ dq)) ].

(** [MSGS] after [MSGS['C7004'] = (MSGS['C7003'][0], MSGS['C7003'][1] +
    ...)]; the key C7003 is in the literal. *)
Definition MSGS : gmap string (string * string) :=
  match MSGS_literal !! "C7003" with
  | Some c7003 =>
      <["C7004" :=
          (fst c7003,
           snd c7003 +:+ " This is a stricter version of C7003 which also "
           +:+ "checks that imports are sorted alphabetically within each group.")]>
        MSGS_literal
  | None => MSGS_literal
  end.

(** The number of [%s] conversions of a message template. *)
Fixpoint count_conversions (template : string) : nat :=
  match template with
  | EmptyString => 0
  | String c rest =>
      if Ascii.eqb c "%"
      then match rest with
           | String "s" _ => S (count_conversions rest)
           | _ => count_conversions rest
           end
      else count_conversions rest
  end.

(** *** The calls of the host *)

(** The host walks the tree of a module and calls [visit_import] on
    its [Import] nodes, [visit_from] on its [From] nodes and
    [leave_module] on the module once its statements are visited. *)
Inductive callback : Type :=
| VisitImport (node : import_node)
| VisitFrom (node : import_node)
| LeaveModule (node : module_node).

Definition run_callback (rt : Runtime) (cb : callback) : method unit :=
  match cb with
  | VisitImport node => visit_import node
  | VisitFrom node => visit_from node
  | LeaveModule node => leave_module rt node
  end.

(** A sequence of calls; an exception ends it. *)
Fixpoint run_callbacks (rt : Runtime) (cbs : list callback) : method unit :=
  match cbs with
  | [] => mret tt
  | cb :: cbs' => run_callback rt cb ;; run_callbacks rt cbs'
  end.

(** The statement a call visits. *)
Definition visited (cb : callback) : option import_node :=
  match cb with
  | VisitImport node => Some node
  | VisitFrom node => Some node
  | LeaveModule _ => None
  end.

(** The statements of a sequence of calls that are at the top level of
    their module. *)
Definition top_level_visited (cbs : list callback) : list import_node :=
  List.filter (fun n => bool_decide (parent n = Module)) (omap visited cbs).

(** The key [leave_module] computes for a collected import and sorts
    by for C7004: its group, its pieces and its text. *)
Definition import_key (rt : Runtime) (node : module_node) (n : import_node)
    : outcome key2 :=
  pieces ← import_pieces node n;
  p0 ← getitem pieces 0;
  group ← _module_group rt p0;
  mret (group, pieces, as_string n).

(** The messages a call adds to the ones the linter has. *)
Definition added_by {A} (m : method A) (self : ImportChecker) : list message :=
  drop (length (messages self)) (messages (snd (m self))).

(** An import whose pieces do not depend on the name of its module: a
    plain import, or a from-import of level 0. *)
Definition absolute (n : import_node) : Prop :=
  match n with
  | Import _ _ _ => True
  | From _ _ level _ _ => level = 0%Z
  end.

Fixpoint has_char (c : ascii) (s : string) : bool :=
  match s with
  | EmptyString => false
  | String d s' => Ascii.eqb c d || has_char c s'
  end.

(** An installation whose module finder fails on one name with an
    error that is not [ImportError]. *)
Definition broken_rt : Runtime := {|
  sys_builtin_module_names := sys_builtin_module_names demo_rt;
  sys_prefix := sys_prefix demo_rt;
  sys_real_prefix := sys_real_prefix demo_rt;
  os_getcwd := os_getcwd demo_rt;
  os_path_realpath := os_path_realpath demo_rt;
  imp_find_module := fun n =>
    if String.eqb n "broken" then Raise ValueError else imp_find_module demo_rt n
|}.

Definition sorted_imports : list import_node :=
  [import_of "os"; import_of "sys"; import_of "requests"; import_of "myapp"].

Definition demo_calls : list callback :=
  [VisitImport (import_of "requests"); VisitImport nested_import;
   VisitFrom (From "" [("helpers", None)] 1 Module "from . import helpers");
   VisitImport (import_of "os")].

(** A call that visits a statement. *)
Definition is_visit (cb : callback) : Prop := is_Some (visited cb).

(** A message whose identifier is in [MSGS] and whose arguments are as
    many as the [%s] conversions of its template. *)
Definition declared (m : message) : Prop :=
  (fun entry => count_conversions (fst entry)) <$> MSGS !! msg_id m
  = Some (length (msg_args m)).

(** The number of C7002 messages among [ms]. *)
Definition count_c7002 (ms : list message) : nat :=
  length (List.filter (fun m => String.eqb (msg_id m) "C7002") ms).

(** Imports that are grouped, with the first group out of
    alphabetical order. *)
Definition grouped_imports : list import_node :=
  [import_of "sys"; import_of "os"; import_of "requests"].

(** What calls of the host can have a message for: a plain import of
    more than one module (C7001), a from-import of a level that is not
    zero (C7005), an import whose parent is not the module (C7002),
    and the end of a module (C7003 or C7004, on no statement). *)
Definition explained (cbs : list callback) (m : message) : Prop :=
  (exists n, VisitImport n ∈ cbs /\ 1 < length (names n) /\ m = c7001 n)
  \/ (exists n, VisitFrom n ∈ cbs /\ level n <> 0%Z /\ m = c7005 n)
  \/ (exists n, (VisitImport n ∈ cbs \/ VisitFrom n ∈ cbs)
                /\ parent n <> Module /\ m = c7002 n)
  \/ (exists node, LeaveModule node ∈ cbs /\ msg_node m = None
                   /\ (msg_id m = "C7003" \/ msg_id m = "C7004")).

(** * Properties *)

(** ** Python primitives *)

Lemma split_not_nil sep s : split sep s <> [].
Proof.
  destruct s as [|c s]; simpl; [discriminate|].
  destruct (Ascii.eqb c sep); [discriminate|].
  destruct (split sep s); discriminate.
Qed.

Lemma startswith_spec s p :
  startswith s p = true <-> exists rest, s = p +:+ rest.
Proof.
  unfold startswith. revert s. induction p as [|c p IH]; intros s; simpl.
  - destruct s; split; eauto.
  - destruct s as [|d s]; simpl.
    + split; [discriminate|]. intros [rest H]. discriminate.
    + destruct (ascii_dec c d) as [->|Hne].
      * rewrite IH. split; intros [rest H]; exists rest.
        -- now rewrite H.
        -- now injection H.
      * split; [discriminate|]. intros [rest H]. injection H. congruence.
Qed.

Lemma startswith_false s p :
  startswith s p = false <-> ~ exists rest, s = p +:+ rest.
Proof.
  rewrite <- startswith_spec. destruct (startswith s p); split; easy.
Qed.

(** ** The classifier *)

Section ClassifierFacts.

Variable rt : Runtime.

Lemma module_group_builtin nm :
  nm ∈ sys_builtin_module_names rt -> _module_group rt nm = Return _GROUP_STDLIB.
Proof. intros H. unfold _module_group. now rewrite bool_decide_eq_true_2. Qed.

Lemma module_group_found nm found :
  nm ∉ sys_builtin_module_names rt ->
  imp_find_module rt nm = Return found ->
  _module_group rt nm =
    let real_path := resolved_real_path rt found in
    if startswith real_path (_APP_PREFIX rt) then Return _GROUP_APP_SPECIFIC
    else if startswith real_path (_STDLIB_PREFIX rt)
            && bool_decide (~ has_segment "site-packages" real_path)
            && bool_decide (~ has_segment "dist-packages" real_path)
    then Return _GROUP_STDLIB
    else Return _GROUP_THIRD_PARTY.
Proof.
  intros Hb Hf. unfold _module_group. rewrite bool_decide_eq_false_2 by assumption.
  rewrite Hf. cbv zeta. unfold resolved_real_path.
  set (real_path := os_path_realpath rt (snd (fst found))).
  assert (E : forall seg,
    bool_decide (seg ∉ (list_to_set (split "/" real_path) : gset string))
    = bool_decide (~ has_segment seg real_path)).
  { intros seg. apply bool_decide_ext. unfold has_segment.
    now rewrite elem_of_list_to_set. }
  now rewrite !E.
Qed.

Lemma lies_under_app path :
  startswith path (_APP_PREFIX rt) = true
  <-> lies_under (os_path_realpath rt (os_getcwd rt)) path.
Proof. apply startswith_spec. Qed.

Lemma lies_under_stdlib path :
  startswith path (_STDLIB_PREFIX rt) = true
  <-> lies_under (os_path_realpath rt (stdlib_root rt)) path.
Proof. apply startswith_spec. Qed.

End ClassifierFacts.

(** C3. The classifier decides in this order: a built-in module name is
    STANDARD_LIBRARY; otherwise, when the module is found, a real path
    under the real path of the working directory is APPLICATION_LOCAL;
    otherwise a real path under the real path of the standard-library
    root with no segment [site-packages] or [dist-packages] is
    STANDARD_LIBRARY; otherwise the module is THIRD_PARTY. *)
Theorem module_group_order (rt : Runtime) (nm : string) :
  (nm ∈ sys_builtin_module_names rt -> _module_group rt nm = Return _GROUP_STDLIB)
  /\ (nm ∉ sys_builtin_module_names rt ->
      forall found, imp_find_module rt nm = Return found ->
      let real_path := resolved_real_path rt found in
      let local := lies_under (os_path_realpath rt (os_getcwd rt)) real_path in
      let standard :=
        lies_under (os_path_realpath rt (stdlib_root rt)) real_path
        /\ ~ has_segment "site-packages" real_path
        /\ ~ has_segment "dist-packages" real_path in
      (local -> _module_group rt nm = Return _GROUP_APP_SPECIFIC)
      /\ (~ local -> standard -> _module_group rt nm = Return _GROUP_STDLIB)
      /\ (~ local -> ~ standard -> _module_group rt nm = Return _GROUP_THIRD_PARTY)).
Proof.
  split; [apply module_group_builtin|].
  intros Hb found Hf real_path local standard.
  rewrite (module_group_found rt nm found Hb Hf). cbv zeta. fold real_path.
  subst local standard.
  rewrite <- lies_under_app, <- lies_under_stdlib.
  destruct (startswith real_path (_APP_PREFIX rt)) eqn:Happ.
  - split; [reflexivity|]. split; intros H; exfalso; apply H; reflexivity.
  - split; [discriminate|].
    destruct (startswith real_path (_STDLIB_PREFIX rt)) eqn:Hstd; simpl.
    + split.
      * intros _ (_ & Hs & Hd). now rewrite !bool_decide_eq_true_2.
      * intros _ Hn.
        destruct (bool_decide (~ has_segment "site-packages" real_path)) eqn:Hs;
          [|reflexivity].
        destruct (bool_decide (~ has_segment "dist-packages" real_path)) eqn:Hd;
          [|reflexivity].
        apply bool_decide_eq_true_1 in Hs, Hd. destruct Hn. auto.
    + split; [|reflexivity]. intros _ (Hstd' & _). discriminate.
Qed.

(** C3 on the demonstration installation: a built-in, a local module, a
    standard-library module, a module under [site-packages] and a
    module outside every root. *)
Lemma module_group_order_witness :
  _module_group demo_rt "sys" = Return _GROUP_STDLIB
  /\ _module_group demo_rt "myapp" = Return _GROUP_APP_SPECIFIC
  /\ _module_group demo_rt "os" = Return _GROUP_STDLIB
  /\ _module_group demo_rt "requests" = Return _GROUP_THIRD_PARTY
  /\ _module_group demo_rt "yaml" = Return _GROUP_THIRD_PARTY.
Proof.
  assert (Hin : "sys" ∈ sys_builtin_module_names demo_rt) by (simpl; set_solver).
  assert (Hout : forall nm, bool_decide (nm ∈ sys_builtin_module_names demo_rt) = false ->
                            nm ∉ sys_builtin_module_names demo_rt)
    by (intros nm; apply bool_decide_eq_false_1).
  split; [exact (proj1 (module_group_order demo_rt "sys") Hin)|].
  split.
  { apply (proj2 (module_group_order demo_rt "myapp") (Hout "myapp" eq_refl) _ eq_refl).
    apply lies_under_app. reflexivity. }
  split.
  { apply (proj2 (module_group_order demo_rt "os") (Hout "os" eq_refl) _ eq_refl).
    - rewrite <- lies_under_app. discriminate.
    - split; [apply lies_under_stdlib; reflexivity|].
      split; apply (bool_decide_eq_true_1 _); vm_compute; reflexivity. }
  split.
  { apply (proj2 (module_group_order demo_rt "requests") (Hout "requests" eq_refl) _ eq_refl).
    - rewrite <- lies_under_app. discriminate.
    - intros (_ & Hs & _). apply Hs.
      apply (bool_decide_eq_true_1 _). vm_compute. reflexivity. }
  { apply (proj2 (module_group_order demo_rt "yaml") (Hout "yaml" eq_refl) _ eq_refl).
    - rewrite <- lies_under_app. discriminate.
    - intros (Hstd & _). apply lies_under_stdlib in Hstd. discriminate. }
Defined.

(** C4. A name that is not a built-in and that [imp.find_module] cannot
    find ([ImportError]) is THIRD_PARTY: the classifier returns, it does
    not raise. *)
Theorem module_group_unresolvable (rt : Runtime) (nm : string) :
  nm ∉ sys_builtin_module_names rt ->
  imp_find_module rt nm = Raise ImportError ->
  _module_group rt nm = Return _GROUP_THIRD_PARTY.
Proof.
  intros Hb Hf. unfold _module_group.
  rewrite bool_decide_eq_false_2 by assumption. now rewrite Hf.
Qed.

Lemma module_group_unresolvable_witness :
  _module_group demo_rt "nosuchmodule" = Return _GROUP_THIRD_PARTY.
Proof.
  apply module_group_unresolvable.
  - apply (bool_decide_eq_false_1 _). reflexivity.
  - reflexivity.
Defined.

(** ** The pieces of a collected import *)

Lemma slice_to_0 {A} (l : list A) : slice_to l (- 0) = [].
Proof. reflexivity. Qed.

Lemma slice_to_neg {A} (l : list A) (k : Z) :
  (0 < k)%Z -> slice_to l (- k) = take (length l - Z.to_nat k) l.
Proof.
  intros Hk. unfold slice_to.
  destruct (Z.ltb_spec (- k) 0) as [_|H]; [|lia].
  f_equal. lia.
Qed.

Lemma slice_to_clamped {A} (l : list A) (k : Z) :
  (Z.of_nat (length l) <= k)%Z -> slice_to l (- k) = [].
Proof.
  intros Hk. destruct (Z.eq_dec k 0%Z) as [->|Hne]; [reflexivity|].
  rewrite slice_to_neg by lia.
  replace (length l - Z.to_nat k) with 0 by lia. reflexivity.
Qed.

Lemma import_pieces_from node modname nms level par s n0 :
  nms !! 0 = Some n0 ->
  import_pieces node (From modname nms level par s)
  = Return (slice_to (split "." (name node)) (- level)
            ++ stated_pieces modname ++ [fst n0]).
Proof. intros H. unfold import_pieces, getitem. now rewrite H. Qed.

Lemma import_pieces_import node nms par s n0 :
  nms !! 0 = Some n0 ->
  import_pieces node (Import nms par s) = Return (split "." (fst n0)).
Proof. intros H. unfold import_pieces, getitem. now rewrite H. Qed.

Lemma import_pieces_not_nil node n pieces :
  import_pieces node n = Return pieces -> pieces <> [].
Proof.
  destruct n as [nms par s|modname nms level par s]; unfold import_pieces, getitem;
    destruct (nms !! 0) as [n0|]; simpl; try discriminate; intros [= <-].
  - apply split_not_nil.
  - intros H. apply app_eq_nil in H as [_ H]. apply app_eq_nil in H as [_ H].
    discriminate.
Qed.

(** C1, as the code has it.  The pieces of a from-import with a first
    imported name are: for a positive level, the enclosing module's
    dotted path without its last [level] pieces (nothing is left when
    the level reaches the depth of the path), then the non-empty pieces
    of the stated module path, then the first imported name; for level
    0 (an absolute import) no piece of the enclosing module's path is
    kept, and the pieces are the stated ones and the first imported
    name. *)
Theorem from_pieces_resolution (node : module_node) (modname : string)
    (nms : list (string * option string)) (level : Z) (par : parent_node)
    (s : string) (n0 : string * option string) :
  (0 <= level)%Z ->
  nms !! 0 = Some n0 ->
  import_pieces node (From modname nms level par s)
  = Return (if (level =? 0)%Z then stated_pieces modname ++ [fst n0]
            else spec_from_pieces (split "." (name node)) (Z.to_nat level)
                                  (stated_pieces modname) (fst n0)).
Proof.
  intros Hl Hn. rewrite (import_pieces_from _ _ _ _ _ _ _ Hn). f_equal.
  destruct (Z.eqb_spec level 0) as [->|Hne].
  - now rewrite slice_to_0.
  - unfold spec_from_pieces. now rewrite slice_to_neg by lia.
Qed.

Lemma from_pieces_resolution_witness :
  import_pieces {| name := "pkg.sub.mod" |}
                (From "util.text" [("wrap", None); ("fill", None)] 2 Module
                      "from ..util.text import wrap, fill")
  = Return ["pkg"; "util"; "text"; "wrap"]
  /\ import_pieces {| name := "pkg.sub.mod" |}
                   (From "os" [("path", None)] 0 Module "from os import path")
     = Return ["os"; "path"].
Proof.
  split.
  - apply (from_pieces_resolution {| name := "pkg.sub.mod" |} "util.text"
             [("wrap", None); ("fill", None)] 2 Module _ ("wrap", None)).
    + lia.
    + reflexivity.
  - apply (from_pieces_resolution {| name := "pkg.sub.mod" |} "os"
             [("path", None)] 0 Module _ ("path", None)).
    + lia.
    + reflexivity.
Defined.

(** C1, as the specification words it, fails for an absolute from-import: with
    relative-level 0 the words keep the whole path of the enclosing
    module in front of the stated pieces, the code keeps none of it. *)
Lemma from_pieces_level0_counterexample :
  import_pieces {| name := "pkg.mod" |}
                (From "os" [("path", None)] 0 Module "from os import path")
  = Return ["os"; "path"]
  /\ spec_from_pieces (split "." "pkg.mod") 0 (stated_pieces "os") "path"
     = ["pkg"; "mod"; "os"; "path"]
  /\ import_pieces {| name := "pkg.mod" |}
                   (From "os" [("path", None)] 0 Module "from os import path")
     <> Return (spec_from_pieces (split "." "pkg.mod") 0 (stated_pieces "os") "path").
Proof. split; [reflexivity|]. split; [reflexivity|]. discriminate. Qed.

(** C10. The pieces of a from-import with a first imported name are
    always built: no level makes the slice raise, a level that reaches
    the depth of the enclosing module's path leaves an empty prefix, and
    the result ends with the first imported name, so it has a first
    piece. *)
Theorem from_pieces_total (node : module_node) (modname : string)
    (nms : list (string * option string)) (level : Z) (par : parent_node)
    (s : string) (n0 : string * option string) :
  nms !! 0 = Some n0 ->
  exists pieces p0,
    import_pieces node (From modname nms level par s) = Return pieces
    /\ getitem pieces 0 = Return p0
    /\ List.last pieces "" = fst n0
    /\ ((Z.of_nat (length (split "." (name node))) <= level)%Z ->
        pieces = stated_pieces modname ++ [fst n0]).
Proof.
  intros Hn. rewrite (import_pieces_from _ _ _ _ _ _ _ Hn).
  set (own := slice_to _ _). set (pieces := own ++ _).
  assert (Hne : pieces <> []).
  { subst pieces. intros H. apply app_eq_nil in H as [_ H].
    apply app_eq_nil in H as [_ H]. discriminate. }
  destruct pieces as [|p0 rest] eqn:E; [congruence|].
  exists (p0 :: rest), p0. split; [reflexivity|]. split; [reflexivity|].
  rewrite <- E. subst pieces. split.
  - now rewrite !app_assoc, last_last.
  - intros Hl. subst own. now rewrite slice_to_clamped.
Qed.

Lemma from_pieces_total_witness :
  exists pieces p0,
    import_pieces {| name := "mod" |}
                  (From "" [("helpers", None)] 3 Module "from ... import helpers")
    = Return pieces
    /\ getitem pieces 0 = Return p0
    /\ List.last pieces "" = "helpers"
    /\ ((Z.of_nat (length (split "." "mod")) <= 3)%Z ->
        pieces = stated_pieces "" ++ ["helpers"]).
Proof.
  apply (from_pieces_total {| name := "mod" |} "" [("helpers", None)] 3 Module
           "from ... import helpers" ("helpers", None)).
  reflexivity.
Defined.

(** ** The visitor callbacks and the end of a module *)

Lemma handle_import_nested node self :
  parent node <> Module ->
  _handle_import node self
  = (Return tt, {| _imports := _imports self;
                   messages := messages self ++ [c7002 node] |}).
Proof.
  intros H. unfold _handle_import. now rewrite bool_decide_eq_false_2.
Qed.

Lemma handle_import_top node self :
  parent node = Module ->
  _handle_import node self
  = (Return tt, {| _imports := _imports self ++ [node]; messages := messages self |}).
Proof.
  intros H. unfold _handle_import. now rewrite bool_decide_eq_true_2.
Qed.

Lemma visit_import_nested node self :
  parent node <> Module ->
  visit_import node self
  = (Return tt,
     {| _imports := _imports self;
        messages := messages self
                    ++ (if 1 <? length (names node) then [c7001 node] else [])
                    ++ [c7002 node] |}).
Proof.
  intros H. unfold visit_import, mbind, method_bind.
  destruct (1 <? length (names node)); simpl;
    rewrite handle_import_nested by assumption; simpl.
  - now rewrite <- app_assoc.
  - reflexivity.
Qed.

Lemma visit_from_nested node self :
  parent node <> Module ->
  exists before,
    visit_from node self
    = (Return tt,
       {| _imports := _imports self;
          messages := messages self ++ before ++ [c7002 node] |})
    /\ (before = [] \/ before = [c7005 node]).
Proof.
  intros H. unfold visit_from, mbind, method_bind.
  destruct (negb _); simpl; rewrite handle_import_nested by assumption; simpl.
  - exists [c7005 node]. rewrite <- app_assoc. auto.
  - exists []. auto.
Qed.

Lemma complain_spec actual strs1 strs2 self :
  complain actual [("C7003", strs1); ("C7004", strs2)] self
  = (Return tt, {| _imports := _imports self;
                   messages := messages self ++ order_messages actual strs1 strs2 |}).
Proof.
  unfold order_messages. simpl.
  destruct (bool_decide (actual ≠ strs1)); [reflexivity|].
  destruct (bool_decide (actual ≠ strs2)); [reflexivity|].
  unfold mret, method_ret. rewrite app_nil_r. now destruct self.
Qed.

Lemma leave_module_spec rt node self :
  leave_module rt node self
  = match collect_loop rt node ([], [], []) (enumerate (_imports self)) with
    | Raise e => (Raise e, self)
    | Return (actual, expected1, expected2) =>
        (Return tt,
         {| _imports := [];
            messages := messages self
                        ++ order_messages actual (last_field (sort expected1))
                                          (last_field (sort expected2)) |})
    end.
Proof.
  unfold leave_module.
  destruct (collect_loop _ _ _ _) as [[[actual e1] e2]|e]; [|reflexivity].
  unfold mbind, method_bind. now rewrite complain_spec.
Qed.

(** C7. An import statement, plain or from-import, whose parent is not
    the module gets a C7002 message and is not appended to the collected
    imports; the verification at the end of the module then runs on the
    same list, and adds the same messages, as if the statement had not
    been visited. *)
Theorem nested_import_not_collected (rt : Runtime) (mod_node : module_node)
    (node : import_node) (self : ImportChecker) (visit : import_node -> method unit) :
  parent node <> Module ->
  visit = visit_import \/ visit = visit_from ->
  fst (visit node self) = Return tt
  /\ _imports (snd (visit node self)) = _imports self
  /\ (exists before, messages (snd (visit node self))
                     = messages self ++ before ++ [c7002 node])
  /\ fst (leave_module rt mod_node (snd (visit node self)))
     = fst (leave_module rt mod_node self)
  /\ (exists added,
        messages (snd (leave_module rt mod_node (snd (visit node self))))
        = messages (snd (visit node self)) ++ added
        /\ messages (snd (leave_module rt mod_node self)) = messages self ++ added).
Proof.
  intros Hp Hv.
  assert (exists before, visit node self
            = (Return tt, {| _imports := _imports self;
                             messages := messages self ++ before ++ [c7002 node] |}))
    as [before E].
  { destruct Hv as [-> | ->].
    - eexists. now apply visit_import_nested.
    - destruct (visit_from_nested node self Hp) as (before & E & _). eauto. }
  rewrite E. simpl. split; [reflexivity|]. split; [reflexivity|].
  split; [eauto|]. rewrite !leave_module_spec. simpl.
  destruct (collect_loop _ _ _ _) as [[[actual e1] e2]|e]; simpl.
  - split; [reflexivity|]. eauto.
  - split; [reflexivity|]. exists []. now rewrite !app_nil_r.
Qed.

(** ** Comparison and sorting *)

Lemma lex_eq c1 c2 : lex c1 c2 = Eq <-> c1 = Eq /\ c2 = Eq.
Proof. destruct c1, c2; simpl; intuition congruence. Qed.

Lemma lex_opp c1 c2 : CompOpp (lex c1 c2) = lex (CompOpp c1) (CompOpp c2).
Proof. now destruct c1. Qed.

Lemma lex_lt c1 c2 : lex c1 c2 = Lt <-> c1 = Lt \/ (c1 = Eq /\ c2 = Lt).
Proof. destruct c1, c2; simpl; intuition congruence. Qed.

#[global] Instance nat_cmp_laws : CmpLaws nat.
Proof.
  split; unfold cmp, nat_cmp.
  - apply Nat.compare_eq_iff.
  - intros x y. apply Nat.compare_antisym.
  - intros x y z. rewrite !Nat.compare_lt_iff. lia.
Qed.

#[global] Instance Z_cmp_laws : CmpLaws Z.
Proof.
  split; unfold cmp, Z_cmp.
  - apply Z.compare_eq_iff.
  - intros x y. apply Z.compare_antisym.
  - intros x y z. rewrite !Z.compare_lt_iff. lia.
Qed.

Lemma ascii_compare_refl c : Ascii.compare c c = Eq.
Proof. apply N.compare_refl. Qed.

Lemma ascii_compare_lt_trans c1 c2 c3 :
  Ascii.compare c1 c2 = Lt -> Ascii.compare c2 c3 = Lt -> Ascii.compare c1 c3 = Lt.
Proof. unfold Ascii.compare. rewrite !N.compare_lt_iff. lia. Qed.

#[global] Instance string_cmp_laws : CmpLaws string.
Proof.
  split; unfold cmp, string_cmp.
  - intros x y. split; [apply String.compare_eq_iff|].
    intros <-. induction x as [|c x IH]; simpl; [reflexivity|].
    now rewrite ascii_compare_refl.
  - intros x y. apply String.compare_antisym.
  - induction x as [|c1 x IH]; intros [|c2 y] [|c3 z]; simpl; try easy.
    destruct (Ascii.compare c1 c2) eqn:E12; try discriminate;
      destruct (Ascii.compare c2 c3) eqn:E23; try discriminate; intros H1 H2.
    + apply Ascii.compare_eq_iff in E12, E23. subst.
      rewrite ascii_compare_refl. eauto.
    + apply Ascii.compare_eq_iff in E12. subst. now rewrite E23.
    + apply Ascii.compare_eq_iff in E23. subst. now rewrite E12.
    + now rewrite (ascii_compare_lt_trans _ _ _ E12 E23).
Qed.

#[global] Instance pair_cmp_laws {A B} `{CmpLaws A, CmpLaws B} : CmpLaws (A * B).
Proof.
  split; unfold cmp, pair_cmp.
  - intros [x1 x2] [y1 y2]. simpl. rewrite lex_eq, !cmp_eq.
    split; [intros [-> ->]; reflexivity|intros [= -> ->]; auto].
  - intros x y. now rewrite lex_opp, <- !cmp_opp.
  - intros [x1 x2] [y1 y2] [z1 z2]. simpl. rewrite !lex_lt, !cmp_eq.
    intros [Ha|[-> Ha]] [Hb|[-> Hb]]; eauto using cmp_lt_trans.
Qed.

#[global] Instance seq_cmp_laws {A} `{CmpLaws A} : CmpLaws (list A).
Proof.
  split; unfold cmp, seq_cmp.
  - induction x as [|x l IH]; intros [|y l']; simpl; try easy.
    rewrite lex_eq, cmp_eq, IH. split; [intros [-> ->]; reflexivity|].
    intros [= -> ->]. auto.
  - induction x as [|x l IH]; intros [|y l']; simpl; try easy.
    now rewrite lex_opp, <- cmp_opp, <- IH.
  - induction x as [|x l IH]; intros [|y l'] [|z l'']; simpl; try easy.
    rewrite !lex_lt, !cmp_eq.
    intros [Ha|[-> Ha]] [Hb|[-> Hb]]; eauto using cmp_lt_trans.
Qed.

Section Sorting.

Context {A : Type} `{CmpLaws A}.

Lemma lt_irrefl (x : A) : lt x x = false.
Proof. unfold lt. now rewrite (proj2 (cmp_eq x x) eq_refl). Qed.

Lemma le_cases (x y : A) : le x y <-> lt x y = true \/ x = y.
Proof.
  unfold le, lt. rewrite (cmp_opp x y).
  destruct (cmp x y) eqn:E; simpl.
  - apply cmp_eq in E. intuition.
  - intuition.
  - split; [discriminate|]. intros [?| ->]; [discriminate|].
    now rewrite (proj2 (cmp_eq y y) eq_refl) in E.
Qed.

Lemma lt_trans' (x y z : A) : lt x y = true -> lt y z = true -> lt x z = true.
Proof.
  unfold lt. destruct (cmp x y) eqn:E1; try discriminate.
  destruct (cmp y z) eqn:E2; try discriminate.
  now rewrite (cmp_lt_trans _ _ _ E1 E2).
Qed.

#[global] Instance le_trans : Transitive (le (A := A)).
Proof.
  intros x y z. rewrite !le_cases.
  intros [Ha| ->] [Hb| ->]; eauto using lt_trans'.
Qed.

#[global] Instance le_antisym : AntiSymm (=) (le (A := A)).
Proof.
  intros x y Ha Hb. apply le_cases in Ha as [Ha| ->]; [|reflexivity].
  unfold le in Hb. congruence.
Qed.

Lemma le_total (x y : A) : le x y \/ le y x.
Proof.
  unfold le. destruct (lt y x) eqn:E; [|now left].
  right. apply le_cases. now left.
Qed.

Lemma insort_perm (x : A) l : insort x l ≡ₚ x :: l.
Proof.
  induction l as [|y l IH]; simpl; [reflexivity|].
  destruct (lt y x); [|reflexivity].
  rewrite IH. apply Permutation_swap.
Qed.

Lemma sort_perm (l : list A) : sort l ≡ₚ l.
Proof.
  induction l as [|x l IH]; simpl; [reflexivity|].
  unfold sort in IH. now rewrite insort_perm, IH.
Qed.

Lemma insort_sorted (x : A) l :
  StronglySorted le l -> StronglySorted le (insort x l).
Proof.
  induction 1 as [|y l Hs IH Hall]; simpl.
  - repeat constructor.
  - destruct (lt y x) eqn:E.
    + constructor; [assumption|].
      rewrite insort_perm. constructor; [|assumption].
      apply le_cases. now left.
    + constructor; [now constructor|].
      constructor; [exact E|].
      eapply Forall_impl; [exact Hall|].
      intros z Hz. now transitivity y.
Qed.

Lemma sort_sorted (l : list A) : StronglySorted le (sort l).
Proof.
  induction l as [|x l IH]; simpl; [constructor|]. now apply insort_sorted.
Qed.

(** The model of [list.sort()] does not depend on the sorting
    algorithm: the sorted list is the only ordered rearrangement. *)
Lemma sort_unique (l l' : list A) :
  l' ≡ₚ l -> StronglySorted le l' -> l' = sort l.
Proof.
  intros Hp Hs. apply (StronglySorted_unique le); [assumption|apply sort_sorted|].
  now rewrite sort_perm.
Qed.

End Sorting.

Lemma StronglySorted_lookup {A} (R : relation A) l p q x y :
  StronglySorted R l -> p < q -> l !! p = Some x -> l !! q = Some y -> R x y.
Proof.
  intros Hs. revert p q. induction Hs as [|z l Hs IH Hall]; intros p q Hpq Hp Hq.
  - discriminate.
  - destruct q as [|q]; [lia|]. destruct p as [|p]; simpl in *.
    + injection Hp as ->. rewrite Forall_forall in Hall. apply Hall.
      eapply list_elem_of_lookup_2. eassumption.
    + apply (IH p q); [lia|assumption..].
Qed.

Section Stability.

Context {K : Type} `{CmpLaws K} `{EqDecision K}.

Lemma insort_by_key (r : nat * K) (l : list (nat * K)) :
  map snd (@insort _ by_key r l) = insort (snd r) (map snd l).
Proof.
  induction l as [|y l IH]; simpl; [reflexivity|].
  change (@lt _ by_key y r) with (lt (snd y) (snd r)).
  destruct (lt (snd y) (snd r)); simpl; [now rewrite IH|reflexivity].
Qed.

Lemma sort_records_keys (l : list (nat * K)) :
  map snd (sort_records l) = sort (map snd l).
Proof.
  unfold sort_records, sort. induction l as [|r l IH]; simpl; [reflexivity|].
  now rewrite insort_by_key, IH.
Qed.

Lemma insort_filter_key (k : K) (r : nat * K) (l : list (nat * K)) :
  filter (fun r' => snd r' = k) (@insort _ by_key r l)
  = filter (fun r' => snd r' = k) (r :: l).
Proof.
  induction l as [|y l IH]; simpl; [reflexivity|].
  destruct (@lt _ by_key y r) eqn:E; [|reflexivity].
  change (@lt _ by_key y r) with (lt (snd y) (snd r)) in E.
  rewrite (filter_cons _ y), IH, !(filter_cons _ r), !(filter_cons _ y).
  destruct (decide (snd y = k)) as [Hy|Hy]; [|reflexivity].
  destruct (decide (snd r = k)) as [Hr|Hr]; [|reflexivity].
  rewrite Hy, Hr, lt_irrefl in E. discriminate.
Qed.

(** The records with a given key are in the sorted list in the order
    they had before. *)
Lemma sort_records_stable (k : K) (l : list (nat * K)) :
  filter (fun r => snd r = k) (sort_records l) = filter (fun r => snd r = k) l.
Proof.
  unfold sort_records, sort. induction l as [|r l IH]; simpl; [reflexivity|].
  now rewrite insort_filter_key, !(filter_cons _ r), IH.
Qed.

End Stability.

Lemma before_cons {A} (z : A) l x y :
  before (z :: l) x y <-> (z = x /\ y ∈ l) \/ before l x y.
Proof.
  unfold before. split.
  - intros (p & q & Hpq & Hp & Hq). destruct q as [|q]; [lia|].
    destruct p as [|p]; simpl in *.
    + left. split; [congruence|]. eapply list_elem_of_lookup_2. eassumption.
    + right. exists p, q. split; [lia|auto].
  - intros [[-> Hy]|(p & q & Hpq & Hp & Hq)].
    + apply list_elem_of_lookup_1 in Hy as [q Hq]. exists 0, (S q).
      split; [lia|auto].
    + exists (S p), (S q). split; [lia|auto].
Qed.

Lemma before_filter {A} (P : A -> Prop) `{forall x, Decision (P x)} l x y :
  P x -> P y -> before (filter P l) x y <-> before l x y.
Proof.
  intros Hx Hy. induction l as [|z l IH]; [reflexivity|].
  rewrite filter_cons, (before_cons z l). destruct (decide (P z)) as [Hz|Hz].
  - rewrite before_cons, IH, list_elem_of_filter. intuition.
  - rewrite IH. split; [auto|]. intros [[-> _]|Hb]; [contradiction|assumption].
Qed.

Lemma enumerate_lookup {A} (l : list A) p i x :
  enumerate l !! p = Some (i, x) -> i = p.
Proof.
  unfold enumerate. rewrite list_lookup_imap.
  destruct (l !! p); simpl; congruence.
Qed.

Lemma enumerate_snd {A} (l : list A) : map snd (enumerate l) = l.
Proof.
  unfold enumerate. apply list_eq. intros p.
  rewrite list_lookup_fmap, list_lookup_imap. now destruct (l !! p).
Qed.

Lemma enumerate_fst {A} (l : list A) : map fst (enumerate l) = seq 0 (length l).
Proof.
  unfold enumerate. apply list_eq. intros p.
  rewrite list_lookup_fmap, list_lookup_imap.
  destruct (l !! p) eqn:E; simpl.
  - symmetry. apply lookup_seq. split; [reflexivity|].
    eapply lookup_lt_Some. eassumption.
  - symmetry. apply lookup_seq_ge. now apply lookup_ge_None.
Qed.

(** [list.sort()] is stable on every list of keys. *)
Lemma sort_stable {K} `{CmpLaws K} `{EqDecision K} (keys : list K) :
  stable_sorted keys.
Proof.
  split; [now rewrite sort_records_keys, enumerate_snd|].
  intros p q i j k Hpq Hp Hq.
  assert (Hb : before (sort_records (enumerate keys)) (i, k) (j, k))
    by (exists p, q; auto).
  apply (proj2 (before_filter (fun r => snd r = k) _ (i, k) (j, k) eq_refl eq_refl))
    in Hb.
  rewrite sort_records_stable in Hb.
  apply (proj1 (before_filter (fun r => snd r = k) _ (i, k) (j, k) eq_refl eq_refl))
    in Hb.
  destruct Hb as (p' & q' & Hpq' & Hp' & Hq').
  apply enumerate_lookup in Hp', Hq'. lia.
Qed.

(** ** What the loop over the collected imports builds *)

Lemma collect_step_fields rt node actual e1 e2 i n actual' e1' e2' :
  collect_step rt node (actual, e1, e2) (i, n) = Return (actual', e1', e2') ->
  exists g pieces p0,
    import_pieces node n = Return pieces
    /\ getitem pieces 0 = Return p0
    /\ _module_group rt p0 = Return g
    /\ actual' = actual ++ [as_string n]
    /\ e1' = e1 ++ [(g, i, as_string n)]
    /\ e2' = e2 ++ [(g, pieces, as_string n)].
Proof.
  unfold collect_step, mbind, outcome_bind, mret, outcome_ret.
  destruct (import_pieces node n) as [pieces|]; simpl; [|discriminate].
  destruct (getitem pieces 0) as [p0|] eqn:Ep; simpl; [|discriminate].
  destruct (_module_group rt p0) as [g|] eqn:Eg; simpl; [|discriminate].
  intros [= <- <- <-]. exists g, pieces, p0. repeat split; assumption.
Qed.

Lemma collect_loop_fields rt node entries : forall actual e1 e2 actual' e1' e2',
  collect_loop rt node (actual, e1, e2) entries = Return (actual', e1', e2') ->
  actual' = actual ++ map (fun e => as_string (snd e)) entries
  /\ map (fun k : key1 => snd (fst k)) e1'
     = map (fun k : key1 => snd (fst k)) e1 ++ map fst entries
  /\ map snd e1' = map snd e1 ++ map (fun e => as_string (snd e)) entries
  /\ map snd e2' = map snd e2 ++ map (fun e => as_string (snd e)) entries.
Proof.
  induction entries as [|[i n] entries IH]; intros actual e1 e2 actual' e1' e2';
    cbn [collect_loop].
  - intros [= <- <- <-]. simpl. now rewrite !app_nil_r.
  - unfold mbind, outcome_bind.
    destruct (collect_step rt node (actual, e1, e2) (i, n)) as [[[a1 k1] k2]|] eqn:E;
      cbn [Py.bind]; [|discriminate].
    intros Hl. apply IH in Hl as (-> & Hi & Hs1 & Hs2).
    apply collect_step_fields in E as (g & pieces & p0 & _ & _ & _ & -> & -> & ->).
    rewrite Hi, Hs1, Hs2, !map_app, <- !app_assoc. auto.
Qed.

Lemma collect_loop_actual rt node imports actual e1 e2 :
  collect_loop rt node ([], [], []) (enumerate imports) = Return (actual, e1, e2) ->
  actual = map as_string imports
  /\ map (fun k : key1 => snd (fst k)) e1 = seq 0 (length imports)
  /\ map snd e1 = actual
  /\ map snd e2 = actual.
Proof.
  intros Hl. apply collect_loop_fields in Hl as (-> & Hi & Hs1 & Hs2). simpl in *.
  rewrite Hi, Hs1, Hs2, enumerate_fst.
  rewrite <- (enumerate_snd imports) at 2. rewrite map_map. auto.
Qed.

Lemma module_group_returns rt nm :
  (forall e, imp_find_module rt nm = Raise e -> e = ImportError) ->
  exists g, _module_group rt nm = Return g.
Proof.
  intros Hf. unfold _module_group.
  destruct (bool_decide _); [eauto|].
  destruct (imp_find_module rt nm) as [found|e].
  - cbv zeta. destruct (startswith _ (_APP_PREFIX rt)); [eauto|].
    destruct (_ && _); eauto.
  - rewrite (Hf e eq_refl). eauto.
Qed.

Lemma import_pieces_returns node n :
  names n <> [] -> exists pieces, import_pieces node n = Return pieces.
Proof.
  destruct n as [nms par s|modname nms level par s]; simpl; intros Hn;
    destruct nms as [|n0 nms]; try congruence; unfold import_pieces; simpl; eauto.
Qed.

Lemma collect_loop_returns rt node entries : forall st,
  (forall e, e ∈ entries -> names (snd e) <> []) ->
  (forall nm e, imp_find_module rt nm = Raise e -> e = ImportError) ->
  exists st', collect_loop rt node st entries = Return st'.
Proof.
  induction entries as [|[i n] entries IH]; simpl; intros st Hn Hf; [eauto|].
  assert (exists st1, collect_step rt node st (i, n) = Return st1) as [st1 E].
  { destruct st as [[actual e1] e2]. unfold collect_step.
    destruct (import_pieces_returns node n) as [pieces Hp].
    { apply (Hn (i, n)). left. }
    rewrite Hp. simpl.
    destruct pieces as [|p0 pieces]; [now apply import_pieces_not_nil in Hp|].
    simpl. destruct (module_group_returns rt p0 (Hf p0)) as [g Hg].
    rewrite Hg. simpl. eauto. }
  rewrite E. simpl. apply IH; [|assumption].
  intros e He. apply Hn. now right.
Qed.

Lemma key_le_group {B C} `{Cmp B, Cmp C} (x y : Z * B * C) :
  le x y -> (group_of x <= group_of y)%Z.
Proof.
  destruct x as [[gx bx] cx], y as [[gy b_y] cy]. unfold le, lt, group_of. simpl.
  unfold cmp at 1. unfold pair_cmp. simpl. unfold cmp at 1. unfold pair_cmp. simpl.
  unfold cmp at 1. unfold Z_cmp.
  destruct (Z.compare_spec gy gx) as [->|Hlt|Hgt]; simpl; [lia|discriminate|lia].
Qed.

(** ** The expected orders *)

(** C5. In the list sorted for C7003 no import of a later group comes
    before an import of an earlier group: a THIRD_PARTY import is never
    before a STANDARD_LIBRARY import, and an APPLICATION_LOCAL import is
    never before a STANDARD_LIBRARY or a THIRD_PARTY import. *)
Theorem expected_by_group_only_grouped (rt : Runtime) (node : module_node)
    (imports : list import_node) (actual : list string) (expected1 : list key1)
    (expected2 : list key2) (p q : nat) (x y : key1) :
  collect_loop rt node ([], [], []) (enumerate imports)
  = Return (actual, expected1, expected2) ->
  p < q ->
  sort expected1 !! p = Some x ->
  sort expected1 !! q = Some y ->
  (group_of x <= group_of y)%Z
  /\ ~ (group_of x = _GROUP_THIRD_PARTY /\ group_of y = _GROUP_STDLIB)
  /\ ~ (group_of x = _GROUP_APP_SPECIFIC
        /\ (group_of y = _GROUP_STDLIB \/ group_of y = _GROUP_THIRD_PARTY)).
Proof.
  intros _ Hpq Hp Hq.
  assert (Hle : (group_of x <= group_of y)%Z).
  { apply key_le_group.
    exact (StronglySorted_lookup le _ p q x y (sort_sorted expected1) Hpq Hp Hq). }
  unfold _GROUP_STDLIB, _GROUP_THIRD_PARTY, _GROUP_APP_SPECIFIC. lia.
Qed.

(** C6. Both expected lists are sorted stably: followed through the
    sort with its sequence index, a record never overtakes a record of
    the same key that had a smaller index, so textually equal imports
    of equal pieces and group keep the order they were met in; and in
    the list sorted for C7003, whose key holds the index, the imports
    of one group are in the order of their indices. *)
Theorem expected_orders_stable (rt : Runtime) (node : module_node)
    (imports : list import_node) (actual : list string) (expected1 : list key1)
    (expected2 : list key2) :
  collect_loop rt node ([], [], []) (enumerate imports)
  = Return (actual, expected1, expected2) ->
  stable_sorted expected1
  /\ stable_sorted expected2
  /\ forall p q g i j s t,
       p < q ->
       sort expected1 !! p = Some (g, i, s) ->
       sort expected1 !! q = Some (g, j, t) ->
       i < j.
Proof.
  intros Hl. split; [apply sort_stable|]. split; [apply sort_stable|].
  intros p q g i j s t Hpq Hp Hq.
  pose proof (StronglySorted_lookup le _ p q _ _ (sort_sorted expected1) Hpq Hp Hq)
    as Hle.
  apply le_cases in Hle as [Hlt|Heq].
  - unfold lt in Hlt. unfold cmp, pair_cmp in Hlt. simpl in Hlt.
    unfold cmp at 1 in Hlt. unfold pair_cmp in Hlt. simpl in Hlt.
    rewrite (proj2 (cmp_eq g g) eq_refl) in Hlt. simpl in Hlt.
    unfold cmp at 1 in Hlt. unfold nat_cmp in Hlt.
    destruct (Nat.compare_spec i j) as [->|Hij|Hij]; [|assumption|discriminate].
    exfalso. apply collect_loop_actual in Hl as (_ & Hidx & _ & _).
    assert (Hnd : NoDup (map (fun k : key1 => snd (fst k)) (sort expected1))).
    { rewrite (sort_perm expected1), Hidx. apply NoDup_seq. }
    assert (p = q); [|lia].
    apply (NoDup_lookup _ p q j Hnd); rewrite list_lookup_fmap.
    + now rewrite Hp.
    + now rewrite Hq.
  - injection Heq as -> ->.
    exfalso. apply collect_loop_actual in Hl as (_ & Hidx & _ & _).
    assert (Hnd : NoDup (map (fun k : key1 => snd (fst k)) (sort expected1))).
    { rewrite (sort_perm expected1), Hidx. apply NoDup_seq. }
    assert (p = q); [|lia].
    apply (NoDup_lookup _ p q j Hnd); rewrite list_lookup_fmap.
    + now rewrite Hp.
    + now rewrite Hq.
Qed.

(** ** The end of a module *)

(** C2. [leave_module] adds at most one message.  When the rendered
    texts of the collected imports differ from the list sorted by group
    and index, the message is C7003 and there is no C7004; C7004 is
    added only when that first comparison finds no difference and the
    comparison with the list sorted by group and pieces finds one. *)
Theorem one_ordering_message (rt : Runtime) (node : module_node) (self : ImportChecker) :
  exists added,
    messages (snd (leave_module rt node self)) = messages self ++ added
    /\ length added <= 1
    /\ match collect_loop rt node ([], [], []) (enumerate (_imports self)) with
       | Raise _ => added = []
       | Return (actual, expected1, expected2) =>
           let strs1 := last_field (sort expected1) in
           let strs2 := last_field (sort expected2) in
           actual = map as_string (_imports self)
           /\ (actual <> strs1 -> added = [order_message "C7003" actual strs1])
           /\ (actual = strs1 -> actual <> strs2 ->
               added = [order_message "C7004" actual strs2])
           /\ (actual = strs1 -> actual = strs2 -> added = [])
       end.
Proof.
  rewrite leave_module_spec.
  destruct (collect_loop _ _ _ _) as [[[actual e1] e2]|e] eqn:E; simpl.
  - eexists. split; [reflexivity|]. unfold order_messages.
    apply collect_loop_actual in E as (Ha & _).
    destruct (decide (actual = last_field (sort e1))) as [H1|H1].
    + rewrite (bool_decide_eq_false_2 _ (fun Hn => Hn H1)).
      destruct (decide (actual = last_field (sort e2))) as [H2|H2].
      * rewrite (bool_decide_eq_false_2 _ (fun Hn => Hn H2)). simpl.
        split; [lia|]. repeat split; congruence.
      * rewrite (bool_decide_eq_true_2 _ H2). simpl.
        split; [lia|]. repeat split; congruence.
    + rewrite (bool_decide_eq_true_2 _ H1). simpl.
      split; [lia|]. repeat split; congruence.
  - exists []. rewrite app_nil_r. simpl. auto.
Qed.

(** C9. When [leave_module] returns, the list of collected imports is
    empty, whatever message was or was not added; and it returns
    whenever every collected import binds a name and
    [imp.find_module] raises nothing but [ImportError]. *)
Theorem leave_module_resets (rt : Runtime) (node : module_node) (self : ImportChecker) :
  (fst (leave_module rt node self) = Return tt ->
   _imports (snd (leave_module rt node self)) = [])
  /\ ((forall n, n ∈ _imports self -> names n <> []) ->
      (forall nm e, imp_find_module rt nm = Raise e -> e = ImportError) ->
      fst (leave_module rt node self) = Return tt).
Proof.
  rewrite leave_module_spec. split.
  - destruct (collect_loop _ _ _ _) as [[[actual e1] e2]|e]; simpl;
      [reflexivity|discriminate].
  - intros Hn Hf.
    destruct (collect_loop_returns rt node (enumerate (_imports self)) ([], [], []))
      as [[[actual e1] e2] E]; [|assumption|now rewrite E].
    intros [i n] Hi. apply Hn. simpl.
    apply list_elem_of_lookup_1 in Hi as [p Hp].
    unfold enumerate in Hp. rewrite list_lookup_imap in Hp.
    destruct (_imports self !! p) as [n'|] eqn:E; simpl in Hp; [|discriminate].
    injection Hp as _ <-. eapply list_elem_of_lookup_2. eassumption.
Qed.

(** ** The properties on a module *)

Lemma demo_collected :
  collect_loop demo_rt demo_module ([], [], []) (enumerate demo_imports)
  = Return (demo_actual, demo_expected1, demo_expected2).
Proof. vm_compute. reflexivity. Qed.

Lemma demo_find_module nm e : imp_find_module demo_rt nm = Raise e -> e = ImportError.
Proof. simpl. repeat destruct (String.eqb nm _); congruence. Qed.

Lemma nested_import_not_collected_witness :
  parent nested_import <> Module
  /\ _imports (snd (visit_import nested_import (visit_all demo_imports))) = demo_imports
  /\ exists before,
       messages (snd (visit_import nested_import (visit_all demo_imports)))
       = messages (visit_all demo_imports) ++ before ++ [c7002 nested_import].
Proof.
  assert (Hp : parent nested_import <> Module) by discriminate.
  split; [exact Hp|].
  destruct (nested_import_not_collected demo_rt demo_module nested_import
              (visit_all demo_imports) visit_import Hp (or_introl eq_refl))
    as (_ & Hi & Hm & _).
  split; [exact Hi|exact Hm].
Defined.

Lemma expected_by_group_only_grouped_witness :
  sort demo_expected1 !! 1 = Some (0%Z, 3, "import os")
  /\ sort demo_expected1 !! 2 = Some (1%Z, 0, "import requests")
  /\ (group_of (0%Z, 3%nat, "import os")
      <= group_of (1%Z, 0%nat, "import requests"))%Z.
Proof.
  split; [reflexivity|]. split; [reflexivity|].
  apply (fun Hpq Hp Hq => proj1 (expected_by_group_only_grouped demo_rt demo_module demo_imports
           demo_actual demo_expected1 demo_expected2 1 2 _ _ demo_collected
           Hpq Hp Hq)).
  - lia.
  - reflexivity.
  - reflexivity.
Defined.

Lemma expected_orders_stable_witness :
  stable_sorted demo_expected1
  /\ stable_sorted demo_expected2
  /\ sort_records (enumerate demo_expected2)
     = [(1, (0%Z, ["os"], "import os")); (3, (0%Z, ["os"], "import os"));
        (0, (1%Z, ["requests"], "import requests"));
        (2, (2%Z, ["myapp"], "import myapp"))].
Proof.
  destruct (expected_orders_stable demo_rt demo_module demo_imports
              demo_actual demo_expected1 demo_expected2 demo_collected)
    as (H1 & H2 & _).
  split; [exact H1|]. split; [exact H2|]. reflexivity.
Defined.

Lemma one_ordering_message_witness :
  exists added,
    messages (snd (leave_module demo_rt demo_module (visit_all demo_imports)))
    = messages (visit_all demo_imports) ++ added
    /\ length added <= 1.
Proof.
  destruct (one_ordering_message demo_rt demo_module (visit_all demo_imports))
    as (added & Hm & Hlen & _).
  exists added. split; [exact Hm|exact Hlen].
Defined.

Lemma leave_module_resets_witness :
  fst (leave_module demo_rt demo_module (visit_all demo_imports)) = Return tt
  /\ _imports (snd (leave_module demo_rt demo_module (visit_all demo_imports))) = [].
Proof.
  destruct (leave_module_resets demo_rt demo_module (visit_all demo_imports))
    as [Hreset Hreturns].
  assert (Hr : fst (leave_module demo_rt demo_module (visit_all demo_imports))
               = Return tt).
  { apply Hreturns; [|exact demo_find_module].
    intros n Hn. change (_imports (visit_all demo_imports)) with demo_imports in Hn.
    unfold demo_imports in Hn.
    repeat (apply elem_of_cons in Hn as [->|Hn]; [discriminate|]).
    now apply elem_of_nil in Hn. }
  split; [exact Hr|exact (Hreset Hr)].
Defined.

(** Scenarios 1 and 2 of the specification: two standard-library
    imports out of alphabetical order get C7004 and no C7003; a
    third-party import before a standard-library import gets C7003. *)
Lemma scenario_alphabetical :
  map msg_id (messages (snd (leave_module demo_rt demo_module
                               (visit_all [import_of "sys"; import_of "os"]))))
  = ["C7004"].
Proof. vm_compute. reflexivity. Qed.

Lemma scenario_grouping :
  map (fun m => (msg_id m, take 2 (msg_args m)))
      (messages (snd (leave_module demo_rt demo_module
                        (visit_all [import_of "requests"; import_of "os"]))))
  = [("C7003", ["  import requests" +:+ nl +:+ "  import os";
                "  import os" +:+ nl +:+ "  import requests"])].
Proof. vm_compute. reflexivity. Qed.

(** ** [difflib]: the longest match *)

Section LongestMatch.

Variables a b : list string.

Lemma chain_b_fold entries : forall m : gmap string (list nat),
  (forall x js j, m !! x = Some js -> j ∈ js -> b !! j = Some x) ->
  (forall i elt, (i, elt) ∈ entries -> b !! i = Some elt) ->
  forall x js j,
    foldl (fun b2j '(i, elt) => <[elt := default [] (b2j !! elt) ++ [i]]> b2j)
          m entries !! x = Some js ->
    j ∈ js -> b !! j = Some x.
Proof.
  induction entries as [|[i elt] entries IH]; intros m Hm He; simpl; [exact Hm|].
  apply IH.
  - intros x js j. destruct (decide (elt = x)) as [->|Hne].
    + rewrite lookup_insert_eq. intros [= <-] Hj.
      apply elem_of_app in Hj as [Hj|Hj].
      * destruct (m !! x) as [js'|] eqn:E; simpl in Hj.
        -- eapply Hm; eassumption.
        -- now apply elem_of_nil in Hj.
      * apply list_elem_of_singleton in Hj as ->. apply He. left.
    + rewrite lookup_insert_ne by assumption. apply Hm.
  - intros i' elt' Hin. apply He. now right.
Qed.

Lemma b2j_sound x js j :
  difflib.b2j b !! x = Some js -> j ∈ js -> b !! j = Some x.
Proof.
  assert (Hc : forall x js j,
    difflib.chain_b_indices b !! x = Some js -> j ∈ js -> b !! j = Some x).
  { apply chain_b_fold.
    - intros x' js' j'. now rewrite lookup_empty.
    - intros i elt Hin. apply list_elem_of_lookup_1 in Hin as [p Hp].
      unfold enumerate in Hp. rewrite list_lookup_imap in Hp.
      destruct (b !! p) eqn:E; simpl in Hp; congruence. }
  unfold difflib.b2j. destruct (200 <=? length b); [|apply Hc].
  intros Hf. apply map_lookup_filter_Some in Hf as [Hf _]. now apply (Hc x js j).
Qed.

Lemma is_match_nil i j : is_match a b i j 0.
Proof. intros d Hd. lia. Qed.

Lemma is_match_snoc i j k x :
  is_match a b i j k -> a !! (i + k) = Some x -> b !! (j + k) = Some x ->
  is_match a b i j (S k).
Proof.
  intros Hm Ha Hb d Hd. destruct (decide (d = k)) as [->|Hne]; [eauto|].
  apply Hm. lia.
Qed.

Lemma is_match_cons i j k x :
  is_match a b (S i) (S j) k -> a !! i = Some x -> b !! j = Some x ->
  is_match a b i j (S k).
Proof.
  intros Hm Ha Hb [|d] Hd.
  - rewrite !Nat.add_0_r. eauto.
  - destruct (Hm d) as (y & Hy1 & Hy2); [lia|].
    exists y. now rewrite <- !Nat.add_succ_comm.
Qed.

Lemma is_match_sub i j k d n :
  is_match a b i j k -> d + n <= k -> is_match a b (i + d) (j + d) n.
Proof.
  intros Hm Hle e He. destruct (Hm (d + e)) as (x & H1 & H2); [lia|].
  exists x. now rewrite <- !Nat.add_assoc.
Qed.

Lemma is_match_app i j k1 k2 :
  is_match a b i j k1 -> is_match a b (i + k1) (j + k1) k2 ->
  is_match a b i j (k1 + k2).
Proof.
  intros H1 H2 d Hd. destruct (decide (d < k1)) as [Hlt|Hge]; [now apply H1|].
  destruct (H2 (d - k1)) as (x & Hx1 & Hx2); [lia|].
  exists x. replace (i + d) with (i + k1 + (d - k1)) by lia.
  replace (j + d) with (j + k1 + (d - k1)) by lia. auto.
Qed.

Lemma is_match_bounds i j k :
  is_match a b i j k -> 0 < k -> i + k <= length a /\ j + k <= length b.
Proof.
  intros Hm Hk. destruct (Hm (k - 1)) as (x & H1 & H2); [lia|].
  apply lookup_lt_Some in H1, H2. lia.
Qed.

Lemma is_match_slice i j k :
  is_match a b i j k -> slice a i (i + k) = slice b j (j + k).
Proof.
  intros Hm. unfold slice. apply list_eq. intros d.
  replace (i + k - i) with k by lia. replace (j + k - j) with k by lia.
  destruct (decide (d < k)) as [Hlt|Hge].
  - rewrite !lookup_take_lt, !lookup_drop by assumption.
    destruct (Hm d Hlt) as (x & -> & ->). reflexivity.
  - rewrite !lookup_take_ge by lia. reflexivity.
Qed.

Section Ranges.

Variables alo ahi blo bhi : nat.

Lemma scan_js_inv i elt j2len js : forall newj2len best,
  alo <= i < ahi ->
  a !! i = Some elt ->
  (forall j, j ∈ js -> b !! j = Some elt) ->
  j2len_inv a b alo blo bhi i j2len ->
  j2len_inv a b alo blo bhi (S i) newj2len ->
  best_inv a b alo ahi blo bhi best ->
  j2len_inv a b alo blo bhi (S i)
            (fst (difflib.scan_js blo bhi i j2len js newj2len best))
  /\ best_inv a b alo ahi blo bhi
              (snd (difflib.scan_js blo bhi i j2len js newj2len best)).
Proof.
  intros newj2len best Hi Ha Hjs Hold. revert newj2len best.
  induction js as [|j js IH]; intros newj2len best Hnew Hbest;
    cbn [difflib.scan_js]; [auto|].
  assert (Hjs' : forall j', j' ∈ js -> b !! j' = Some elt)
    by (intros j' Hj'; apply Hjs; now right).
  destruct (Nat.ltb_spec j blo) as [Hlo|Hlo]; [now apply (IH Hjs')|].
  destruct (Nat.leb_spec bhi j) as [Hhi|Hhi]; [auto|].
  assert (Hb : b !! j = Some elt) by (apply Hjs; left).
  set (k := difflib.j2lenget j2len j + 1).
  assert (Hk : 1 <= k /\ alo + k <= S i /\ blo + k <= S j
               /\ is_match a b (S i - k) (S j - k) k).
  { subst k. unfold difflib.j2lenget.
    assert (H1 : is_match a b (S i - 1) (S j - 1) 1).
    { intros d Hd. exists elt. replace (S i - 1 + d) with i by lia.
      replace (S j - 1 + d) with j by lia. auto. }
    destruct j as [|j']; simpl; [repeat split; try lia; exact H1|].
    destruct (j2len !! j') as [k'|] eqn:E; simpl;
      [|repeat split; try lia; exact H1].
    destruct (Hold j' k' E) as (Hk1 & Hk2 & Hk3 & _ & Hm).
    repeat split; try lia.
    replace (S i - (k' + 1)) with (i - k') by lia.
    replace (S (S j') - (k' + 1)) with (S j' - k') by lia.
    replace (k' + 1) with (S k') by lia.
    apply (is_match_snoc _ _ _ elt Hm).
    - replace (i - k' + k') with i by lia. assumption.
    - replace (S j' - k' + k') with (S j') by lia. assumption. }
  destruct Hk as (Hk1 & Hk2 & Hk3 & Hkm).
  apply (IH Hjs').
  - intros j0 k0. destruct (decide (j = j0)) as [<-|Hne].
    + rewrite lookup_insert_eq. intros [= <-]. auto.
    + rewrite lookup_insert_ne by assumption. apply Hnew.
  - destruct (Nat.ltb_spec (snd best) k) as [Hlt|Hge]; [|assumption].
    unfold best_inv. replace (i + 1 - k) with (S i - k) by lia.
    replace (j + 1 - k) with (S j - k) by lia.
    split; [assumption|]. right. lia.
Qed.

Lemma scan_i_inv i st :
  alo <= i < ahi ->
  j2len_inv a b alo blo bhi i (fst st) ->
  best_inv a b alo ahi blo bhi (snd st) ->
  j2len_inv a b alo blo bhi (S i) (fst (difflib.scan_i a b blo bhi st i))
  /\ best_inv a b alo ahi blo bhi (snd (difflib.scan_i a b blo bhi st i)).
Proof.
  intros Hi Hj Hb. unfold difflib.scan_i.
  assert (Hempty : j2len_inv a b alo blo bhi (S i) ∅)
    by (intros j k; now rewrite lookup_empty).
  destruct (a !! i) as [elt|] eqn:Ea; [|simpl; auto].
  apply (scan_js_inv i elt); try assumption.
  intros j Hin. destruct (difflib.b2j b !! elt) as [js|] eqn:E; simpl in Hin.
  - eapply b2j_sound; eassumption.
  - now apply elem_of_nil in Hin.
Qed.

Lemma scan_rows_inv n : forall i st,
  alo <= i -> i + n <= ahi ->
  j2len_inv a b alo blo bhi i (fst st) ->
  best_inv a b alo ahi blo bhi (snd st) ->
  best_inv a b alo ahi blo bhi
           (snd (foldl (difflib.scan_i a b blo bhi) st (seq i n))).
Proof.
  induction n as [|n IH]; intros i st Hlo Hhi Hj Hb; simpl; [assumption|].
  destruct (scan_i_inv i st) as [Hj' Hb']; [lia|assumption..|].
  apply IH; [lia|lia|assumption..].
Qed.

Lemma same_item_spec i j :
  difflib.same_item a b i j = true
  <-> exists x, a !! i = Some x /\ b !! j = Some x.
Proof.
  unfold difflib.same_item.
  destruct (a !! i) as [x|], (b !! j) as [y|]; simpl.
  - rewrite bool_decide_eq_true. split; [intros ->; eauto|].
    intros (z & [= ->] & [= ->]). reflexivity.
  - split; [discriminate|]. intros (z & _ & [=]).
  - split; [discriminate|]. intros (z & [=] & _).
  - split; [discriminate|]. intros (z & [=] & _).
Qed.

Lemma extend_left_inv fuel : forall best,
  best_inv a b alo ahi blo bhi best ->
  best_inv a b alo ahi blo bhi (difflib.extend_left a b fuel alo blo best).
Proof.
  induction fuel as [|fuel IH]; intros [[bi bj] bk] Hb; simpl; [assumption|].
  destruct (Nat.ltb_spec alo bi) as [Hi|Hi]; simpl; [|assumption].
  destruct (Nat.ltb_spec blo bj) as [Hj|Hj]; simpl; [|assumption].
  destruct (difflib.same_item a b (bi - 1) (bj - 1)) eqn:Es; [|assumption].
  apply same_item_spec in Es as (x & Hx1 & Hx2).
  apply IH. destruct Hb as [Hm Hcase]. split.
  - replace (bk + 1) with (S bk) by lia. apply (is_match_cons _ _ _ x); [|assumption..].
    replace (S (bi - 1)) with bi by lia. replace (S (bj - 1)) with bj by lia.
    assumption.
  - right. lia.
Qed.

Lemma extend_right_inv fuel : forall best,
  best_inv a b alo ahi blo bhi best ->
  best_inv a b alo ahi blo bhi (difflib.extend_right a b fuel ahi bhi best).
Proof.
  induction fuel as [|fuel IH]; intros [[bi bj] bk] Hb; simpl; [assumption|].
  destruct (Nat.ltb_spec (bi + bk) ahi) as [Hi|Hi]; simpl; [|assumption].
  destruct (Nat.ltb_spec (bj + bk) bhi) as [Hj|Hj]; simpl; [|assumption].
  destruct (difflib.same_item a b (bi + bk) (bj + bk)) eqn:Es; [|assumption].
  apply same_item_spec in Es as (x & Hx1 & Hx2).
  apply IH. destruct Hb as [Hm Hcase]. split.
  - replace (bk + 1) with (S bk) by lia. now apply (is_match_snoc _ _ _ x).
  - right. lia.
Qed.

(** The two loops that extend the best block stop by their guard: any
    larger fuel gives the same block. *)
Lemma extend_left_fuel fuel : forall fuel' best,
  fst (fst best) <= fuel -> fuel <= fuel' ->
  difflib.extend_left a b fuel alo blo best
  = difflib.extend_left a b fuel' alo blo best.
Proof.
  induction fuel as [|fuel IH]; intros fuel' [[bi bj] bk] Hb Hf; simpl in Hb.
  - destruct fuel' as [|fuel']; [reflexivity|]. simpl.
    destruct (Nat.ltb_spec alo bi) as [Hi|Hi]; [lia|reflexivity].
  - destruct fuel' as [|fuel']; [lia|]. simpl.
    destruct (_ && _ && _); [|reflexivity].
    apply IH; simpl; lia.
Qed.

Lemma extend_right_fuel fuel : forall fuel' best,
  ahi - (fst (fst best) + snd best) <= fuel -> fuel <= fuel' ->
  difflib.extend_right a b fuel ahi bhi best
  = difflib.extend_right a b fuel' ahi bhi best.
Proof.
  induction fuel as [|fuel IH]; intros fuel' [[bi bj] bk] Hb Hf; simpl in Hb.
  - destruct fuel' as [|fuel']; [reflexivity|]. simpl.
    destruct (Nat.ltb_spec (bi + bk) ahi) as [Hi|Hi]; [lia|reflexivity].
  - destruct fuel' as [|fuel']; [lia|]. simpl.
    destruct (Nat.ltb_spec (bi + bk) ahi) as [Hi|Hi]; [|reflexivity].
    destruct (_ && _); [|reflexivity].
    apply IH; simpl; lia.
Qed.

Lemma extend_loops_end best f1 f2 :
  fst (fst best) <= f1 -> ahi <= f2 ->
  difflib.extend_right a b ahi ahi bhi
    (difflib.extend_left a b (fst (fst best)) alo blo best)
  = difflib.extend_right a b f2 ahi bhi (difflib.extend_left a b f1 alo blo best).
Proof.
  intros H1 H2.
  rewrite (extend_left_fuel (fst (fst best)) f1 best) by lia.
  apply extend_right_fuel; lia.
Qed.

Lemma find_longest_match_inv :
  best_inv a b alo ahi blo bhi (difflib.find_longest_match a b alo ahi blo bhi).
Proof.
  unfold difflib.find_longest_match.
  assert (H0 : best_inv a b alo ahi blo bhi (alo, blo, 0)).
  { split; [apply is_match_nil|]. left. auto. }
  assert (Hscan : best_inv a b alo ahi blo bhi
            (snd (foldl (difflib.scan_i a b blo bhi) (∅, (alo, blo, 0))
                        (seq alo (ahi - alo))))).
  { destruct (decide (alo <= ahi)) as [Hle|Hgt].
    - apply scan_rows_inv; [lia|lia| |exact H0].
      intros j k. simpl. now rewrite lookup_empty.
    - replace (ahi - alo) with 0 by lia. exact H0. }
  destruct (foldl _ _ _) as [m best]. simpl in Hscan.
  now apply extend_right_inv, extend_left_inv.
Qed.

End Ranges.

(** [find_longest_match] returns a block of equal items inside the
    ranges it was given. *)
Lemma find_longest_match_sound alo ahi blo bhi i j k :
  difflib.find_longest_match a b alo ahi blo bhi = (i, j, k) ->
  0 < k ->
  is_match a b i j k /\ alo <= i /\ i + k <= ahi /\ blo <= j /\ j + k <= bhi.
Proof.
  intros E Hk. pose proof (find_longest_match_inv alo ahi blo bhi) as Hb.
  rewrite E in Hb. destruct Hb as [Hm [Hz|Hp]]; [lia|]. repeat split; try lia.
  assumption.
Qed.

End LongestMatch.

(** ** [difflib]: the matching blocks *)

#[global] Instance apart_sym : Symmetric apart.
Proof. intros [[[? ?] ?] ?] [[[? ?] ?] ?]. unfold apart. tauto. Qed.

Lemma fop_cons {A} (R : relation A) x l :
  ForallOrdPairs R (x :: l) <-> Forall (R x) l /\ ForallOrdPairs R l.
Proof.
  split.
  - inversion 1; subst. auto.
  - intros [? ?]. now constructor.
Qed.

Lemma fop_perm {A} (R : relation A) `{!Symmetric R} l l' :
  l ≡ₚ l' -> ForallOrdPairs R l -> ForallOrdPairs R l'.
Proof.
  induction 1 as [|x l l' Hp IH|x y l|l l' l'' _ IH1 _ IH2]; intros Hf.
  - assumption.
  - apply fop_cons in Hf as [Hx Hl]. apply fop_cons.
    split; [now rewrite <- Hp|auto].
  - apply fop_cons in Hf as [Hy Hf]. apply fop_cons in Hf as [Hx Hl].
    apply Forall_cons in Hy as [Hyx Hy].
    apply fop_cons. split; [constructor; [now symmetry|assumption]|].
    apply fop_cons. auto.
  - auto.
Qed.

Lemma fop_app_l {A} (R : relation A) l1 l2 :
  ForallOrdPairs R (l1 ++ l2) -> ForallOrdPairs R l1.
Proof.
  induction l1 as [|x l1 IH]; simpl; intros Hf; [constructor|].
  apply fop_cons in Hf as [Hx Hl]. apply fop_cons.
  apply Forall_app in Hx as [Hx _]. auto.
Qed.

Lemma apart_inside alo ahi blo bhi alo' ahi' blo' bhi' r :
  apart (alo, ahi, blo, bhi) r ->
  alo <= alo' -> ahi' <= ahi -> blo <= blo' -> bhi' <= bhi ->
  apart (alo', ahi', blo', bhi') r.
Proof. destruct r as [[[? ?] ?] ?]. unfold apart. lia. Qed.

Ltac apart_option :=
  match goal with
  | |- Forall _ (if ?c then _ else _) =>
      destruct c;
      [apply List.Forall_cons; [unfold apart; lia|apply List.Forall_nil]
      |apply List.Forall_nil]
  end.

Section MatchingBlocks.

Variables a b : list string.

Lemma matching_loop_inv fuel : forall queue blocks,
  Forall (found_block a b) blocks ->
  ForallOrdPairs apart (map block_box blocks ++ queue) ->
  Forall (found_block a b) (difflib.matching_loop a b fuel queue blocks)
  /\ ForallOrdPairs apart
       (map block_box (difflib.matching_loop a b fuel queue blocks)).
Proof.
  induction fuel as [|fuel IH]; intros queue blocks Hb Hf; simpl.
  { split; [assumption|]. eapply fop_app_l. eassumption. }
  destruct (reverse queue) as [|[[[alo ahi] blo] bhi] rest] eqn:Eq.
  { split; [assumption|]. eapply fop_app_l. eassumption. }
  assert (Hq : queue = reverse rest ++ [(alo, ahi, blo, bhi)]).
  { rewrite <- (reverse_involutive queue), Eq. now rewrite reverse_cons. }
  set (others := map block_box blocks ++ reverse rest).
  assert (Hothers : Forall (apart (alo, ahi, blo, bhi)) others
                    /\ ForallOrdPairs apart others).
  { apply fop_cons. apply (fop_perm apart (map block_box blocks ++ queue)); [|exact Hf].
    subst others. rewrite Hq. solve_Permutation. }
  destruct Hothers as [Hr Ho].
  destruct (difflib.find_longest_match a b alo ahi blo bhi) as [[i j] k] eqn:E.
  destruct (Nat.ltb_spec 0 k) as [Hk|Hk].
  2: { apply IH; [assumption|]. subst others. assumption. }
  apply find_longest_match_sound in E as (Hm & Hi1 & Hi2 & Hj1 & Hj2); [|assumption].
  assert (Hin : forall alo' ahi' blo' bhi',
    alo <= alo' -> ahi' <= ahi -> blo <= blo' -> bhi' <= bhi ->
    Forall (apart (alo', ahi', blo', bhi')) others).
  { intros. eapply Forall_impl; [exact Hr|]. intros r Hap. simpl in Hap.
    eapply apart_inside; eassumption. }
  apply IH.
  - apply Forall_app. split; [assumption|].
    apply List.Forall_cons; [split; assumption|apply List.Forall_nil].
  - apply (fop_perm apart
      ((i, i + k, j, j + k)
         :: (if (alo <? i) && (blo <? j) then [(alo, i, blo, j)] else [])
         ++ (if (i + k <? ahi) && (j + k <? bhi) then [(i + k, ahi, j + k, bhi)] else [])
         ++ others)).
    + subst others. rewrite map_app. simpl.
      destruct ((alo <? i) && (blo <? j)), ((i + k <? ahi) && (j + k <? bhi)); simpl;
        solve_Permutation.
    + assert (Hright : ForallOrdPairs apart
        ((if (i + k <? ahi) && (j + k <? bhi) then [(i + k, ahi, j + k, bhi)] else [])
         ++ others)).
      { destruct (_ && _); simpl; [|assumption].
        apply fop_cons. split; [apply Hin; lia|assumption]. }
      assert (Hleft : ForallOrdPairs apart
        ((if (alo <? i) && (blo <? j) then [(alo, i, blo, j)] else [])
         ++ (if (i + k <? ahi) && (j + k <? bhi) then [(i + k, ahi, j + k, bhi)] else [])
         ++ others)).
      { destruct ((alo <? i) && (blo <? j)); simpl; [|assumption].
        apply fop_cons. split; [|assumption].
        apply Forall_app. split; [|apply Hin; lia].
        apart_option. }
      apply fop_cons. split; [|assumption].
      apply Forall_app. split; [apart_option|].
      apply Forall_app. split; [apart_option|apply Hin; lia].
Qed.

Lemma queue_weight_app q1 q2 :
  queue_weight (q1 ++ q2) = queue_weight q1 + queue_weight q2.
Proof. apply sum_list_with_app. Qed.

Lemma queue_weight_one alo ahi blo bhi :
  queue_weight [(alo, ahi, blo, bhi)] = 2 * (ahi - alo) + 1.
Proof. unfold queue_weight. simpl. lia. Qed.

(** The loop over the queue stops because the queue is empty: any
    larger fuel gives the same blocks. *)
Lemma matching_loop_fuel fuel : forall fuel' queue blocks,
  queue_weight queue <= fuel -> fuel <= fuel' ->
  difflib.matching_loop a b fuel queue blocks
  = difflib.matching_loop a b fuel' queue blocks.
Proof.
  induction fuel as [|fuel IH]; intros fuel' queue blocks Hw Hf.
  - destruct queue as [|r queue]; [now destruct fuel'|].
    unfold queue_weight in Hw. simpl in Hw. lia.
  - destruct fuel' as [|fuel']; [lia|]. simpl.
    destruct (reverse queue) as [|[[[alo ahi] blo] bhi] rest] eqn:Eq; [reflexivity|].
    assert (Hq : queue = reverse rest ++ [(alo, ahi, blo, bhi)]).
    { rewrite <- (reverse_involutive queue), Eq. now rewrite reverse_cons. }
    rewrite Hq, queue_weight_app, queue_weight_one in Hw.
    destruct (difflib.find_longest_match a b alo ahi blo bhi) as [[i j] k] eqn:E.
    destruct (Nat.ltb_spec 0 k) as [Hk|Hk]; [|apply IH; lia].
    apply find_longest_match_sound in E as (Hm & Hi1 & Hi2 & Hj1 & Hj2); [|assumption].
    apply IH; [|lia].
    destruct ((alo <? i) && (blo <? j)), ((i + k <? ahi) && (j + k <? bhi));
      rewrite ?queue_weight_app, ?queue_weight_one; lia.
Qed.

Lemma matching_fuel_enough fuel :
  difflib.matching_fuel a <= fuel ->
  difflib.matching_loop a b (difflib.matching_fuel a) [(0, length a, 0, length b)] []
  = difflib.matching_loop a b fuel [(0, length a, 0, length b)] [].
Proof.
  intros Hf. apply matching_loop_fuel; [|assumption].
  rewrite queue_weight_one. unfold difflib.matching_fuel. lia.
Qed.

End MatchingBlocks.

Lemma ss_app {A} (R : relation A) l1 l2 :
  StronglySorted R (l1 ++ l2)
  <-> StronglySorted R l1 /\ StronglySorted R l2
      /\ forall x y, x ∈ l1 -> y ∈ l2 -> R x y.
Proof. rewrite StronglySorted_app. tauto. Qed.

Lemma found_block_match_block a b m : found_block a b m -> match_block a b m.
Proof.
  destruct m as [[i j] k]. intros [Hm Hk]. split; [assumption|].
  now apply is_match_bounds.
Qed.

Lemma sorted_apart_precedes a b (l : list (nat * nat * nat)) :
  StronglySorted le l ->
  ForallOrdPairs apart (map block_box l) ->
  Forall (found_block a b) l ->
  StronglySorted precedes l.
Proof.
  induction 1 as [|x l Hs IH Hle]; simpl; intros Hap Hf; [constructor|].
  apply fop_cons in Hap as [Hx Hap]. apply Forall_cons in Hf as [Hfx Hf].
  constructor; [auto|].
  rewrite Forall_forall in Hle, Hf |- *. rewrite Forall_forall in Hx.
  intros y Hy. specialize (Hle y Hy). specialize (Hf y Hy).
  specialize (Hx (block_box y) (list_elem_of_fmap_2 _ _ _ Hy)).
  destruct x as [[i1 j1] k1], y as [[i2 j2] k2]. simpl in *.
  destruct Hx as [Hx|Hx]; [exact Hx|]. exfalso.
  destruct Hf as [_ Hk2]. unfold le, lt in Hle.
  unfold cmp, pair_cmp in Hle. simpl in Hle.
  unfold cmp at 1 in Hle. unfold pair_cmp in Hle. simpl in Hle.
  unfold cmp at 1 in Hle. unfold nat_cmp in Hle.
  destruct (Nat.compare_spec i2 i1) as [Heq|Hlt|Hgt]; simpl in Hle;
    [lia|discriminate|lia].
Qed.

Section Collapse.

Variables a b : list string.

Lemma collapse_inv rest : forall cur acc,
  StronglySorted precedes (acc ++ cur :: rest) ->
  Forall (match_block a b) (acc ++ cur :: rest) ->
  StronglySorted precedes
    (snd (foldl difflib.collapse_step (cur, acc) rest)
     ++ [fst (foldl difflib.collapse_step (cur, acc) rest)])
  /\ Forall (match_block a b)
       (snd (foldl difflib.collapse_step (cur, acc) rest)
        ++ [fst (foldl difflib.collapse_step (cur, acc) rest)]).
Proof.
  induction rest as [|[[i2 j2] k2] rest IH]; intros [[i1 j1] k1] acc Hs Hf; simpl;
    [auto|].
  apply ss_app in Hs as (Hs1 & Hs2 & Hs12).
  apply StronglySorted_cons in Hs2 as [Hcur Hs2].
  apply StronglySorted_cons in Hs2 as [Hblk Hs2].
  apply Forall_cons in Hcur as [Hcb Hcur].
  apply Forall_app in Hf as [Hf1 Hf2].
  apply Forall_cons in Hf2 as [Hfc Hf2]. apply Forall_cons in Hf2 as [Hfb Hf2].
  destruct (Nat.eqb_spec (i1 + k1) i2) as [Hi|Hi]; simpl.
  - destruct (Nat.eqb_spec (j1 + k1) j2) as [Hj|Hj]; simpl.
    + apply IH.
      * apply ss_app. split; [assumption|]. split.
        -- apply StronglySorted_cons. split; [|assumption].
           eapply Forall_impl; [exact Hblk|]. intros [[i3 j3] k3]. simpl. lia.
        -- intros x y Hx Hy. apply elem_of_cons in Hy as [->|Hy].
           ++ specialize (Hs12 x (i1, j1, k1) Hx (list_elem_of_here _ _)).
              destruct x as [[i0 j0] k0]. simpl in *. lia.
           ++ apply Hs12; [assumption|]. now do 2 right.
      * apply Forall_app. split; [assumption|]. apply Forall_cons. split; [|assumption].
        destruct Hfc as (Hm1 & Ha1 & Hb1), Hfb as (Hm2 & Ha2 & Hb2).
        split; [|lia]. apply is_match_app; [assumption|]. now rewrite Hi, Hj.
    + apply IH.
      * destruct (0 <? k1).
        -- rewrite <- app_assoc. simpl.
           apply ss_app. split; [assumption|]. split.
           ++ apply StronglySorted_cons. split; [now apply Forall_cons|].
              now apply StronglySorted_cons.
           ++ assumption.
        -- apply ss_app. split; [assumption|]. split.
           ++ now apply StronglySorted_cons.
           ++ intros x y Hx Hy. apply Hs12; [assumption|]. now right.
      * destruct (0 <? k1).
        -- rewrite <- app_assoc. simpl. apply Forall_app. split; [assumption|].
           apply Forall_cons. split; [assumption|]. now apply Forall_cons.
        -- apply Forall_app. split; [assumption|]. now apply Forall_cons.
  - apply IH.
    * destruct (0 <? k1).
      -- rewrite <- app_assoc. simpl.
         apply ss_app. split; [assumption|]. split.
         ++ apply StronglySorted_cons. split; [now apply Forall_cons|].
            now apply StronglySorted_cons.
         ++ assumption.
      -- apply ss_app. split; [assumption|]. split.
         ++ now apply StronglySorted_cons.
         ++ intros x y Hx Hy. apply Hs12; [assumption|]. now right.
    * destruct (0 <? k1).
      -- rewrite <- app_assoc. simpl. apply Forall_app. split; [assumption|].
         apply Forall_cons. split; [assumption|]. now apply Forall_cons.
      -- apply Forall_app. split; [assumption|]. now apply Forall_cons.
Qed.

(** The blocks of [get_matching_blocks] are blocks of equal items,
    each ending where the next starts or before, and the last one is
    the empty block at the end of both lists. *)
Lemma matching_blocks_chain :
  exists blocks,
    difflib.get_matching_blocks a b = blocks ++ [(length a, length b, 0)]
    /\ StronglySorted precedes (blocks ++ [(length a, length b, 0)])
    /\ Forall (match_block a b) (blocks ++ [(length a, length b, 0)]).
Proof.
  unfold difflib.get_matching_blocks.
  set (found := difflib.matching_loop a b _ _ _).
  destruct (matching_loop_inv a b (difflib.matching_fuel a)
              [(0, length a, 0, length b)] []) as [Hfound Hapart].
  { constructor. }
  { simpl. repeat constructor. }
  fold found in Hfound, Hapart.
  assert (Hsf : Forall (found_block a b) (sort found))
    by now rewrite (sort_perm found).
  assert (Hsorted : StronglySorted precedes (sort found)).
  { apply (sorted_apart_precedes a b); [apply sort_sorted| |assumption].
    eapply (fop_perm apart); [|exact Hapart]. now rewrite (sort_perm found). }
  destruct (collapse_inv (sort found) (0, 0, 0) []) as [Hs Hf].
  { simpl. constructor; [assumption|].
    apply Forall_forall. intros [[i j] k] _. simpl. lia. }
  { simpl. constructor.
    - split; [apply is_match_nil|]. lia.
    - eapply Forall_impl; [exact Hsf|]. apply found_block_match_block. }
  destruct (foldl difflib.collapse_step _ _) as [[[i1 j1] k1] non_adjacent].
  simpl in Hs, Hf.
  assert (Hlast : match_block a b (length a, length b, 0))
    by (split; [apply is_match_nil|lia]).
  assert (Hend : forall l, Forall (match_block a b) l -> StronglySorted precedes l ->
    StronglySorted precedes (l ++ [(length a, length b, 0)])
    /\ Forall (match_block a b) (l ++ [(length a, length b, 0)])).
  { intros l Hl Hsl. split.
    - apply ss_app. split; [assumption|]. split; [repeat constructor|].
      intros x y Hx Hy. apply list_elem_of_singleton in Hy as ->.
      rewrite Forall_forall in Hl. specialize (Hl x Hx).
      destruct x as [[i j] k]. simpl in *. lia.
    - apply Forall_app. split; [assumption|].
      apply List.Forall_cons; [exact Hlast|apply List.Forall_nil]. }
  destruct (0 <? k1).
  - eexists. split; [reflexivity|]. now apply Hend.
  - eexists. split; [reflexivity|]. apply Forall_app in Hf as [Hf _].
    apply ss_app in Hs as (Hs & _ & _). now apply Hend.
Qed.

End Collapse.

(** ** [difflib]: the opcodes *)

Lemma opcodes_linked_app i j l1 l2 i' j' :
  opcodes_linked i j (l1 ++ l2) i' j'
  <-> exists mi mj, opcodes_linked i j l1 mi mj /\ opcodes_linked mi mj l2 i' j'.
Proof.
  revert i j. induction l1 as [|[[[[tg i1] i2] j1] j2] l1 IH]; intros i j; simpl.
  - split; [eauto|]. now intros (mi & mj & [-> ->] & H).
  - rewrite IH. split.
    + intros (-> & -> & mi & mj & H1 & H2). eauto 10.
    + intros (mi & mj & (-> & -> & H1) & H2). eauto 10.
Qed.

Lemma opcodes_linked_snoc i j ops i1 j1 tg i2 j2 :
  opcodes_linked i j ops i1 j1 ->
  opcodes_linked i j (ops ++ [(tg, i1, i2, j1, j2)]) i2 j2.
Proof. intros H. apply opcodes_linked_app. exists i1, j1. simpl. auto. Qed.

Section Opcodes.

Variables a b : list string.

Lemma opcode_step_inv i j answer ai bj size :
  opcodes_linked 0 0 answer i j ->
  Forall (opcode_ok a b) answer ->
  match_block a b (ai, bj, size) ->
  i <= ai -> j <= bj ->
  exists answer',
    difflib.opcode_step (i, j, answer) (ai, bj, size) = (ai + size, bj + size, answer')
    /\ opcodes_linked 0 0 answer' (ai + size) (bj + size)
    /\ Forall (opcode_ok a b) answer'.
Proof.
  intros Hl Hok (Hm & Ha & Hb) Hi Hj. unfold difflib.opcode_step.
  set (gap := if (i <? ai) && (j <? bj) then answer ++ [(difflib.replace, i, ai, j, bj)]
              else if i <? ai then answer ++ [(difflib.delete, i, ai, j, bj)]
              else if j <? bj then answer ++ [(difflib.insert, i, ai, j, bj)]
              else answer).
  assert (Hgap : opcodes_linked 0 0 gap ai bj /\ Forall (opcode_ok a b) gap).
  { subst gap.
    destruct (Nat.ltb_spec i ai) as [Hia|Hia], (Nat.ltb_spec j bj) as [Hjb|Hjb]; simpl.
    - split; [now apply opcodes_linked_snoc|].
      apply Forall_app. split; [assumption|].
      apply List.Forall_cons; [|apply List.Forall_nil]. simpl. lia.
    - assert (bj = j) by lia. subst bj.
      split; [now apply opcodes_linked_snoc|].
      apply Forall_app. split; [assumption|].
      apply List.Forall_cons; [|apply List.Forall_nil]. simpl. lia.
    - assert (ai = i) by lia. subst ai.
      split; [now apply opcodes_linked_snoc|].
      apply Forall_app. split; [assumption|].
      apply List.Forall_cons; [|apply List.Forall_nil]. simpl. lia.
    - replace ai with i by lia. replace bj with j by lia. auto. }
  destruct Hgap as [Hgl Hgok].
  destruct (Nat.ltb_spec 0 size) as [Hs|Hs].
  - eexists. split; [reflexivity|]. split; [now apply opcodes_linked_snoc|].
    apply Forall_app. split; [assumption|].
    apply List.Forall_cons; [|apply List.Forall_nil]. simpl.
    replace (ai + size - ai) with size by lia.
    replace (bj + size - bj) with size by lia. repeat split; try lia. assumption.
  - exists gap. split; [reflexivity|].
    replace size with 0 by lia. rewrite !Nat.add_0_r. auto.
Qed.

Lemma opcodes_fold_inv blocks : forall i j answer,
  opcodes_linked 0 0 answer i j ->
  Forall (opcode_ok a b) answer ->
  StronglySorted precedes blocks ->
  Forall (match_block a b) blocks ->
  Forall (fun m => i <= fst (fst m) /\ j <= snd (fst m)) blocks ->
  exists i' j' answer',
    foldl difflib.opcode_step (i, j, answer) blocks = (i', j', answer')
    /\ opcodes_linked 0 0 answer' i' j'
    /\ Forall (opcode_ok a b) answer'
    /\ forall ai bj size, last blocks = Some (ai, bj, size) ->
         i' = ai + size /\ j' = bj + size.
Proof.
  induction blocks as [|[[ai bj] size] blocks IH]; intros i j answer Hl Hok Hs Hm Hge.
  - exists i, j, answer. simpl. repeat split; try assumption; discriminate.
  - apply StronglySorted_cons in Hs as [Hp Hs].
    apply Forall_cons in Hm as [Hm0 Hm]. apply Forall_cons in Hge as [[Hi Hj] _].
    simpl in Hi, Hj.
    destruct (opcode_step_inv i j answer ai bj size Hl Hok Hm0 Hi Hj)
      as (answer1 & E & Hl1 & Hok1).
    destruct (IH (ai + size) (bj + size) answer1 Hl1 Hok1 Hs Hm)
      as (i' & j' & answer' & E' & Hl' & Hok' & Hlast).
    { eapply Forall_impl; [exact Hp|]. intros [[i2 j2] k2]. simpl. auto. }
    exists i', j', answer'. cbn [foldl]. rewrite E. split; [exact E'|].
    split; [assumption|]. split; [assumption|].
    intros ai' bj' size' Hlst. destruct blocks as [|m blocks].
    + simpl in Hlst. injection Hlst as <- <- <-. simpl in E'.
      injection E' as <- <- _. auto.
    + apply Hlast. exact Hlst.
Qed.

(** The opcodes go through both lists from their starts to their
    ends, and each says something true. *)
Lemma get_opcodes_tiling :
  opcodes_linked 0 0 (difflib.get_opcodes a b) (length a) (length b)
  /\ Forall (opcode_ok a b) (difflib.get_opcodes a b).
Proof.
  unfold difflib.get_opcodes.
  destruct (matching_blocks_chain a b) as (blocks & -> & Hs & Hm).
  destruct (opcodes_fold_inv (blocks ++ [(length a, length b, 0)]) 0 0 [])
    as (i' & j' & answer' & E & Hl & Hok & Hlast); try assumption.
  { simpl. auto. }
  { constructor. }
  { apply Forall_forall. intros m _. lia. }
  rewrite E. simpl.
  destruct (Hlast (length a) (length b) 0) as [-> ->]; [apply last_snoc|].
  rewrite !Nat.add_0_r in Hl. auto.
Qed.

End Opcodes.

(** ** [difflib]: the groups *)

Section Groups.

Variables a b : list string.

Lemma same_stretch_refl i j : same_stretch a b i j i j.
Proof.
  repeat split; try lia. rewrite Nat.sub_diag. apply is_match_nil.
Qed.

Lemma same_stretch_trans i j i1 j1 i2 j2 :
  same_stretch a b i j i1 j1 -> same_stretch a b i1 j1 i2 j2 ->
  same_stretch a b i j i2 j2.
Proof.
  intros (H1 & H2 & H3 & H4) (G1 & G2 & G3 & G4). repeat split; try lia.
  replace (i2 - i) with ((i1 - i) + (i2 - i1)) by lia.
  apply is_match_app; [assumption|].
  replace (i + (i1 - i)) with i1 by lia. replace (j + (i1 - i)) with j1 by lia.
  assumption.
Qed.

Lemma same_stretch_equal i1 i2 j1 j2 :
  opcode_ok a b (difflib.equal, i1, i2, j1, j2) -> same_stretch a b i1 j1 i2 j2.
Proof. simpl. intros (? & ? & ? & ? & ? & ?). repeat split; try lia. assumption. Qed.

Lemma opcode_ok_equal_part i1 i2 j1 j2 d n :
  opcode_ok a b (difflib.equal, i1, i2, j1, j2) ->
  d + n <= i2 - i1 ->
  opcode_ok a b (difflib.equal, i1 + d, i1 + d + n, j1 + d, j1 + d + n).
Proof.
  simpl. intros (? & ? & ? & ? & ? & Hm) Hle. repeat split; try lia.
  replace (i1 + d + n - (i1 + d)) with n by lia.
  now apply (is_match_sub _ _ _ _ (i2 - i1)).
Qed.

Lemma group_fold_yielded n codes : forall group yielded,
  foldl (difflib.group_step n) (group, yielded) codes
  = (fst (foldl (difflib.group_step n) (group, []) codes),
     yielded ++ snd (foldl (difflib.group_step n) (group, []) codes)).
Proof.
  induction codes as [|[[[[tg i1] i2] j1] j2] codes IH]; intros group yielded; simpl.
  - now rewrite app_nil_r.
  - destruct (bool_decide (tg = difflib.equal) && (n + n <? i2 - i1)).
    + rewrite IH. rewrite (IH _ [_]). simpl. now rewrite <- app_assoc.
    + apply IH.
Qed.

Lemma group_loop_ok n codes : forall group pi pj si sj ci cj ei ej,
  same_stretch a b pi pj si sj ->
  opcodes_linked si sj group ci cj ->
  Forall (opcode_ok a b) group ->
  opcodes_linked ci cj codes ei ej ->
  Forall (opcode_ok a b) codes ->
  same_stretch a b ei ej (length a) (length b) ->
  hunks_ok a b pi pj
    (snd (foldl (difflib.group_step n) (group, []) codes)
     ++ last_group (fst (foldl (difflib.group_step n) (group, []) codes))).
Proof.
  induction codes as [|[[[[tg i1] i2] j1] j2] codes IH];
    intros group pi pj si sj ci cj ei ej Hgap Hgl Hgok Hcl Hcok Hend.
  - simpl in Hcl. destruct Hcl as [<- <-]. simpl.
    destruct group as [|c group].
    + simpl in Hgl. destruct Hgl as [<- <-]. simpl.
      eapply same_stretch_trans; eassumption.
    + assert (Hone : hunks_ok a b pi pj [c :: group]).
      { simpl. exists si, sj, ci, cj. split; [discriminate|].
        split; [assumption|]. split; [assumption|]. split; [assumption|]. exact Hend. }
      destruct group as [|c' group]; [|exact Hone].
      unfold last_group. destruct (difflib.is_equal_code c) eqn:Ec; [|exact Hone].
      destruct c as [[[[tg i1] i2] j1] j2]. unfold difflib.is_equal_code in Ec.
      simpl in Ec. apply bool_decide_eq_true in Ec. subst tg.
      simpl in Hgl. destruct Hgl as (-> & -> & <- & <-).
      apply Forall_cons in Hgok as [Hc _]. simpl.
      eapply same_stretch_trans; [exact Hgap|].
      eapply same_stretch_trans; [|exact Hend]. now apply same_stretch_equal.
  - simpl in Hcl. destruct Hcl as (-> & -> & Hcl).
    apply Forall_cons in Hcok as [Hc Hcok]. cbn [foldl difflib.group_step].
    destruct (bool_decide (tg = difflib.equal) && (n + n <? i2 - ci)) eqn:Elong.
    + apply andb_true_iff in Elong as [Etg Elong].
      apply bool_decide_eq_true in Etg. subst tg. apply Nat.ltb_lt in Elong.
      rewrite group_fold_yielded. cbn [fst snd]. rewrite <- app_assoc.
      cbn [app hunks_ok].
      assert (Hlen : i2 - ci = j2 - cj) by (simpl in Hc; lia).
      assert (Hb : ci <= i2 /\ cj <= j2) by (simpl in Hc; lia).
      replace (Init.Nat.min i2 (ci + n)) with (ci + n) by lia.
      replace (Init.Nat.min j2 (cj + n)) with (cj + n) by lia.
      replace (Init.Nat.max ci (i2 - n)) with (i2 - n) by lia.
      replace (Init.Nat.max cj (j2 - n)) with (j2 - n) by lia.
      assert (Hhead : opcode_ok a b (difflib.equal, ci, ci + n, cj, cj + n)).
      { pose proof (opcode_ok_equal_part ci i2 cj j2 0 n Hc) as Hp.
        rewrite !Nat.add_0_r in Hp. apply Hp. lia. }
      assert (Htail : opcode_ok a b (difflib.equal, i2 - n, i2, j2 - n, j2)).
      { pose proof (opcode_ok_equal_part ci i2 cj j2 (i2 - ci - n) n Hc) as Hp.
        replace (ci + (i2 - ci - n)) with (i2 - n) in Hp by lia.
        replace (cj + (i2 - ci - n)) with (j2 - n) in Hp by lia.
        replace (i2 - n + n) with i2 in Hp by lia.
        replace (j2 - n + n) with j2 in Hp by lia. apply Hp. lia. }
      assert (Hmid : same_stretch a b (ci + n) (cj + n) (i2 - n) (j2 - n)).
      { apply same_stretch_equal.
        pose proof (opcode_ok_equal_part ci i2 cj j2 n (i2 - ci - n - n) Hc) as Hp.
        replace (ci + n + (i2 - ci - n - n)) with (i2 - n) in Hp by lia.
        replace (cj + n + (i2 - ci - n - n)) with (j2 - n) in Hp by lia.
        apply Hp. lia. }
      exists si, sj, (ci + n), (cj + n). split; [now destruct group|].
      split; [assumption|]. split.
      { apply opcodes_linked_app. exists ci, cj. split; [assumption|]. simpl. auto. }
      split.
      { apply Forall_app. split; [assumption|].
        apply List.Forall_cons; [exact Hhead|apply List.Forall_nil]. }
      apply (IH _ _ _ (i2 - n) (j2 - n) i2 j2 ei ej); try assumption.
      * simpl. auto.
      * apply List.Forall_cons; [exact Htail|apply List.Forall_nil].
    + apply (IH _ pi pj si sj i2 j2 ei ej); try assumption.
      * now apply opcodes_linked_snoc.
      * apply Forall_app. split; [assumption|].
        apply List.Forall_cons; [assumption|apply List.Forall_nil].
Qed.

End Groups.

Lemma set_last_snoc {A} (f : A -> A) l c :
  difflib.set_last f (l ++ [c]) = l ++ [f c].
Proof.
  unfold difflib.set_last. rewrite reverse_app. simpl.
  now rewrite reverse_cons, reverse_involutive.
Qed.

Lemma list_snoc_cases {A} (l : list A) : l = [] \/ exists l' x, l = l' ++ [x].
Proof.
  destruct (reverse l) as [|x r] eqn:E.
  - left. rewrite <- (reverse_involutive l), E. reflexivity.
  - right. exists (reverse r), x. rewrite <- (reverse_involutive l), E.
    apply reverse_cons.
Qed.

Section Trimming.

Variables a b : list string.

Lemma trim_first_ok n tg i1 i2 j1 j2 :
  opcode_ok a b (tg, i1, i2, j1, j2) ->
  exists si sj,
    difflib.trim_first n (tg, i1, i2, j1, j2) = (tg, si, i2, sj, j2)
    /\ same_stretch a b i1 j1 si sj
    /\ opcode_ok a b (tg, si, i2, sj, j2).
Proof.
  intros Hc. unfold difflib.trim_first.
  destruct (bool_decide (tg = difflib.equal)) eqn:E.
  - apply bool_decide_eq_true in E. subst tg.
    exists (Init.Nat.max i1 (i2 - n)), (Init.Nat.max j1 (j2 - n)).
    split; [reflexivity|].
    assert (Hlen : i2 - i1 = j2 - j1 /\ i1 <= i2 /\ j1 <= j2) by (simpl in Hc; lia).
    set (d := Init.Nat.max i1 (i2 - n) - i1).
    replace (Init.Nat.max i1 (i2 - n)) with (i1 + d) by lia.
    replace (Init.Nat.max j1 (j2 - n)) with (j1 + d) by lia.
    split.
    + pose proof (opcode_ok_equal_part a b i1 i2 j1 j2 0 d Hc) as Hp.
      rewrite !Nat.add_0_r in Hp. apply same_stretch_equal, Hp. lia.
    + pose proof (opcode_ok_equal_part a b i1 i2 j1 j2 d (i2 - i1 - d) Hc) as Hp.
      replace (i1 + d + (i2 - i1 - d)) with i2 in Hp by lia.
      replace (j1 + d + (i2 - i1 - d)) with j2 in Hp by lia. apply Hp. lia.
  - exists i1, j1. split; [reflexivity|]. split; [apply same_stretch_refl|assumption].
Qed.

Lemma trim_last_ok n tg i1 i2 j1 j2 :
  opcode_ok a b (tg, i1, i2, j1, j2) ->
  exists ei ej,
    difflib.trim_last n (tg, i1, i2, j1, j2) = (tg, i1, ei, j1, ej)
    /\ same_stretch a b ei ej i2 j2
    /\ opcode_ok a b (tg, i1, ei, j1, ej).
Proof.
  intros Hc. unfold difflib.trim_last.
  destruct (bool_decide (tg = difflib.equal)) eqn:E.
  - apply bool_decide_eq_true in E. subst tg.
    exists (Init.Nat.min i2 (i1 + n)), (Init.Nat.min j2 (j1 + n)).
    split; [reflexivity|].
    assert (Hlen : i2 - i1 = j2 - j1 /\ i1 <= i2 /\ j1 <= j2) by (simpl in Hc; lia).
    set (d := Init.Nat.min i2 (i1 + n) - i1).
    replace (Init.Nat.min i2 (i1 + n)) with (i1 + d) by lia.
    replace (Init.Nat.min j2 (j1 + n)) with (j1 + d) by lia.
    split.
    + pose proof (opcode_ok_equal_part a b i1 i2 j1 j2 d (i2 - i1 - d) Hc) as Hp.
      replace (i1 + d + (i2 - i1 - d)) with i2 in Hp by lia.
      replace (j1 + d + (i2 - i1 - d)) with j2 in Hp by lia.
      apply same_stretch_equal, Hp. lia.
    + pose proof (opcode_ok_equal_part a b i1 i2 j1 j2 0 d Hc) as Hp.
      rewrite !Nat.add_0_r in Hp. apply Hp. lia.
  - exists i2, j2. split; [reflexivity|]. split; [apply same_stretch_refl|assumption].
Qed.

Lemma grouped_result n codes :
  (let '(group, yielded) := foldl (difflib.group_step n) ([], []) codes in
   match group with
   | [] => yielded
   | [c] => if difflib.is_equal_code c then yielded else yielded ++ [group]
   | _ => yielded ++ [group]
   end)
  = snd (foldl (difflib.group_step n) ([], []) codes)
    ++ last_group (fst (foldl (difflib.group_step n) ([], []) codes)).
Proof.
  destruct (foldl _ _ _) as [group yielded]. simpl.
  destruct group as [|c [|c' group]]; simpl.
  - now rewrite app_nil_r.
  - destruct (difflib.is_equal_code c); [now rewrite app_nil_r|reflexivity].
  - reflexivity.
Qed.

(** The groups of [get_grouped_opcodes(3)] describe hunks that turn
    [a] into [b]. *)
Lemma grouped_opcodes_ok : hunks_ok a b 0 0 (difflib.get_grouped_opcodes a b 3).
Proof.
  unfold difflib.get_grouped_opcodes.
  destruct (get_opcodes_tiling a b) as [Hl Hok].
  destruct (difflib.get_opcodes a b) as [|[[[[tg i1] i2] j1] j2] codes].
  - simpl in Hl. destruct Hl as [Ha Hb]. change (hunks_ok a b 0 0 []).
    simpl. rewrite <- Ha, <- Hb. apply same_stretch_refl.
  - rewrite grouped_result. simpl in Hl. destruct Hl as (-> & -> & Hl).
    apply Forall_cons in Hok as [Hc Hok].
    destruct (trim_first_ok 3 tg 0 i2 0 j2 Hc) as (si & sj & Et & Hgap & Hc').
    cbn [difflib.set_first]. rewrite Et.
    destruct (list_snoc_cases ((tg, si, i2, sj, j2) :: codes))
      as [Hnil|(init & cl & Einit)]; [discriminate|].
    rewrite Einit, set_last_snoc.
    assert (Hl1 : opcodes_linked si sj (init ++ [cl]) (length a) (length b)).
    { rewrite <- Einit. simpl. auto. }
    assert (Hok1 : Forall (opcode_ok a b) (init ++ [cl])).
    { rewrite <- Einit. now apply List.Forall_cons. }
    apply opcodes_linked_app in Hl1 as (mi & mj & Hli & Hll).
    apply Forall_app in Hok1 as [Hoki Hokl]. apply Forall_cons in Hokl as [Hcl _].
    destruct cl as [[[[tg' i1'] i2'] j1'] j2']. simpl in Hll.
    destruct Hll as (-> & -> & -> & ->).
    destruct (trim_last_ok 3 tg' mi (length a) mj (length b) Hcl)
      as (ei & ej & El & Hend & Hcl').
    rewrite El.
    apply (group_loop_ok a b 3 _ [] 0 0 si sj si sj ei ej); try assumption.
    + simpl. auto.
    + constructor.
    + apply opcodes_linked_app. exists mi, mj. simpl. auto.
    + apply Forall_app. split; [assumption|].
      apply List.Forall_cons; [assumption|apply List.Forall_nil].
Qed.

End Trimming.

(** ** Reading a hunk header *)

Lemma append_cons c (s1 s2 : string) : String c s1 +:+ s2 = String c (s1 +:+ s2).
Proof. reflexivity. Qed.

Lemma append_assoc (s1 s2 s3 : string) : (s1 +:+ s2) +:+ s3 = s1 +:+ s2 +:+ s3.
Proof.
  induction s1 as [|c s1 IH]; [reflexivity|]. now rewrite !append_cons, IH.
Qed.

Lemma strip_prefix_app p s : strip_prefix p (p +:+ s) = Some s.
Proof.
  induction p as [|c p IH]; [reflexivity|].
  rewrite append_cons. cbn [strip_prefix]. now rewrite Ascii.eqb_refl.
Qed.

Lemma parse_digits_digit c s acc :
  is_digit c = true ->
  parse_digits acc (String c s) = parse_digits (10 * acc + (nat_of_ascii c - 48)) s.
Proof. intros Hc. cbn [parse_digits]. now rewrite Hc. Qed.

Ltac digit_value :=
  match goal with
  | |- context [nat_of_ascii ?c - 48] =>
      let v := eval vm_compute in (nat_of_ascii c - 48) in
      change (nat_of_ascii c - 48) with v
  end.

Lemma parse_digits_uint d : forall acc rest,
  digits_end rest ->
  parse_digits acc (NilEmpty.string_of_uint d +:+ rest) = (Nat.of_uint_acc d acc, rest).
Proof.
  induction d as [|d IH|d IH|d IH|d IH|d IH|d IH|d IH|d IH|d IH|d IH];
    intros acc rest Hrest; [apply Hrest|..];
    cbn [NilEmpty.string_of_uint]; rewrite append_cons;
    rewrite parse_digits_digit by reflexivity; rewrite (IH _ rest Hrest);
    cbn [Nat.of_uint_acc]; rewrite Nat.tail_mul_spec; digit_value;
    do 2 f_equal; lia.
Qed.

Lemma to_uint_not_nil n : Nat.to_uint n <> Decimal.Nil.
Proof.
  intros E. pose proof (DecimalNat.Unsigned.of_to n) as Hn. rewrite E in Hn.
  simpl in Hn. subst n. discriminate.
Qed.

Lemma parse_nat_str_of_nat n rest :
  digits_end rest -> parse_nat (str_of_nat n +:+ rest) = Some (n, rest).
Proof.
  intros Hrest. unfold str_of_nat.
  pose proof (parse_digits_uint (Nat.to_uint n) 0 rest Hrest) as Hp.
  fold (Nat.of_uint (Nat.to_uint n)) in Hp.
  rewrite DecimalNat.Unsigned.of_to in Hp.
  pose proof (to_uint_not_nil n) as Hnil.
  unfold parse_nat.
  destruct (Nat.to_uint n) as [|d|d|d|d|d|d|d|d|d|d]; [congruence|..];
    cbn [NilEmpty.string_of_uint] in *; rewrite append_cons in *;
    change (is_digit _) with true; cbn iota; now rewrite Hp.
Qed.

Lemma digits_end_space s : digits_end (String " " s).
Proof. intros acc. reflexivity. Qed.

Lemma digits_end_comma s : digits_end (String "," s).
Proof. intros acc. reflexivity. Qed.

Lemma parse_range_format start stop tail :
  parse_range (difflib._format_range_unified start stop +:+ String " " tail)
  = Some (if stop - start =? 0 then start else start + 1, stop - start).
Proof.
  unfold difflib._format_range_unified, parse_range.
  destruct (Nat.eqb_spec (stop - start) 1) as [E1|E1].
  - rewrite parse_nat_str_of_nat by apply digits_end_space.
    rewrite E1. reflexivity.
  - rewrite !append_assoc, (append_cons "," ""). change ("" +:+ ?s) with s.
    rewrite parse_nat_str_of_nat by apply digits_end_comma.
    cbn [strip_prefix]. change (Ascii.eqb "," ",") with true. cbn iota.
    rewrite parse_nat_str_of_nat by apply digits_end_space.
    destruct (Nat.eqb_spec (stop - start) 0) as [E0|E0]; [|reflexivity].
    do 2 f_equal. lia.
Qed.

Lemma hunk_start_header start stop range2 tail :
  hunk_start ("@@ -" +:+ difflib._format_range_unified start stop
                     +:+ " +" +:+ range2 +:+ tail)
  = Some start.
Proof.
  unfold hunk_start.
  rewrite (strip_prefix_app "@@ -").
  rewrite (append_cons " " "+"). rewrite parse_range_format.
  destruct (Nat.eqb_spec (stop - start) 0) as [E0|E0]; f_equal; lia.
Qed.

(** ** Applying the hunks *)

Lemma apply_hunks_kept xs : forall more pos rest out,
  apply_hunks (map (fun line => " " +:+ line) xs ++ more) pos (xs ++ rest) out
  = apply_hunks more (pos + length xs) rest (out ++ xs).
Proof.
  induction xs as [|x xs IH]; intros more pos rest out; simpl.
  - now rewrite Nat.add_0_r, app_nil_r.
  - rewrite String.eqb_refl, IH, <- app_assoc. simpl. f_equal. lia.
Qed.

Lemma apply_hunks_dropped xs : forall more pos rest out,
  apply_hunks (map (fun line => "-" +:+ line) xs ++ more) pos (xs ++ rest) out
  = apply_hunks more (pos + length xs) rest out.
Proof.
  induction xs as [|x xs IH]; intros more pos rest out; simpl.
  - now rewrite Nat.add_0_r.
  - rewrite String.eqb_refl, IH. f_equal. lia.
Qed.

Lemma apply_hunks_inserted ys : forall more pos rest out,
  apply_hunks (map (fun line => "+" +:+ line) ys ++ more) pos rest out
  = apply_hunks more pos rest (out ++ ys).
Proof.
  induction ys as [|y ys IH]; intros more pos rest out; simpl.
  - now rewrite app_nil_r.
  - now rewrite IH, <- app_assoc.
Qed.

Section ApplyHunks.

Variables a b : list string.

Lemma drop_slice i1 i2 :
  i1 <= i2 -> drop i1 a = slice a i1 i2 ++ drop i2 a.
Proof.
  intros Hle. unfold slice.
  rewrite <- (take_drop (i2 - i1) (drop i1 a)) at 1.
  rewrite drop_drop. do 2 f_equal. lia.
Qed.

Lemma take_slice j1 j2 :
  j1 <= j2 -> take j1 b ++ slice b j1 j2 = take j2 b.
Proof.
  intros Hle. unfold slice. rewrite take_take_drop. f_equal. lia.
Qed.

Lemma length_slice (l : list string) i1 i2 :
  i1 <= i2 -> i2 <= length l -> length (slice l i1 i2) = i2 - i1.
Proof. intros H1 H2. unfold slice. rewrite length_take, length_drop. lia. Qed.

Lemma same_stretch_slice i j i' j' :
  same_stretch a b i j i' j' -> slice a i i' = slice b j j'.
Proof.
  intros (Hi & Hj & Hlen & Hm). apply is_match_slice in Hm.
  replace (i + (i' - i)) with i' in Hm by lia.
  replace (j + (i' - i)) with j' in Hm by lia. exact Hm.
Qed.

Lemma apply_opcode tg i1 i2 j1 j2 more :
  opcode_ok a b (tg, i1, i2, j1, j2) ->
  apply_hunks (difflib.opcode_lines a b (tg, i1, i2, j1, j2) ++ more)
              i1 (drop i1 a) (take j1 b)
  = apply_hunks more i2 (drop i2 a) (take j2 b).
Proof.
  intros (Hi & Ha & Hj & Hb & Htag). unfold difflib.opcode_lines.
  rewrite (drop_slice i1 i2 Hi).
  assert (Hpos : i1 + length (slice a i1 i2) = i2)
    by (rewrite length_slice; lia).
  destruct tg.
  - rewrite <- app_assoc, apply_hunks_dropped, apply_hunks_inserted, Hpos.
    now rewrite take_slice.
  - subst j2. now rewrite apply_hunks_dropped, Hpos.
  - subst i2. unfold slice at 2. rewrite Nat.sub_diag, take_0. simpl.
    now rewrite apply_hunks_inserted, take_slice.
  - destruct Htag as [Hlen Hm]. rewrite apply_hunks_kept, Hpos. f_equal.
    rewrite (same_stretch_slice i1 j1 i2 j2); [now apply take_slice|].
    repeat split; try lia. assumption.
Qed.

Lemma apply_group group : forall i1 j1 i2 j2 more,
  opcodes_linked i1 j1 group i2 j2 ->
  Forall (opcode_ok a b) group ->
  apply_hunks (concat (map (difflib.opcode_lines a b) group) ++ more)
              i1 (drop i1 a) (take j1 b)
  = apply_hunks more i2 (drop i2 a) (take j2 b).
Proof.
  induction group as [|[[[[tg k1] k2] l1] l2] group IH]; intros i1 j1 i2 j2 more Hl Hok.
  - simpl in Hl. destruct Hl as [-> ->]. reflexivity.
  - simpl in Hl. destruct Hl as (-> & -> & Hl).
    apply Forall_cons in Hok as [Hc Hok].
    cbn [map concat]. rewrite <- app_assoc, (apply_opcode _ _ _ _ _ _ Hc).
    now apply IH.
Qed.

Lemma group_ends group : forall i1 j1 i2 j2 d,
  group <> [] ->
  opcodes_linked i1 j1 group i2 j2 ->
  Forall (opcode_ok a b) group ->
  snd (fst (fst (fst (hd d group)))) = i1
  /\ snd (fst (fst (List.last group d))) = i2
  /\ i1 <= i2 /\ i2 <= length a.
Proof.
  induction group as [|[[[[tg k1] k2] l1] l2] group IH]; intros i1 j1 i2 j2 d Hne Hl Hok;
    [congruence|].
  simpl in Hl. destruct Hl as (-> & -> & Hl).
  apply Forall_cons in Hok as [Hc Hok]. split; [reflexivity|].
  destruct group as [|c group].
  - simpl in Hl. destruct Hl as [-> ->]. simpl in *. lia.
  - destruct (IH k2 l2 i2 j2 d) as (_ & Hlast & Hle & Hla); [discriminate|assumption..|].
    split; [exact Hlast|]. simpl in Hc. lia.
Qed.

Lemma apply_groups groups : forall i j,
  hunks_ok a b i j groups ->
  apply_hunks (concat (map (difflib.group_lines a b nl) groups))
              i (drop i a) (take j b)
  = Some b.
Proof.
  induction groups as [|group groups IH]; intros i j Hok.
  - simpl in Hok |- *. f_equal.
    pose proof (same_stretch_slice _ _ _ _ Hok) as Hs.
    destruct Hok as (Hi & Hj & _ & _).
    unfold slice in Hs. rewrite !take_ge in Hs by (rewrite length_drop; lia).
    rewrite Hs. apply take_drop.
  - simpl in Hok. destruct Hok as (i1 & j1 & i2 & j2 & Hne & Hgap & Hl & Hgok & Hrest).
    cbn [map concat]. unfold difflib.group_lines at 1.
    destruct (group_ends group i1 j1 i2 j2 (difflib.equal, 0, 0, 0, 0) Hne Hl Hgok)
      as (Hfirst & Hlast & Hle & Hla).
    rewrite Hfirst, Hlast. rewrite <- app_comm_cons.
    cbn [apply_hunks]. rewrite (append_cons "@" "@ -").
    rewrite <- (append_cons "@" "@ -"), hunk_start_header.
    pose proof (same_stretch_slice _ _ _ _ Hgap) as Hs.
    destruct Hgap as (Hi & Hj & Hlen & _).
    destruct (Nat.leb_spec i i1) as [_|Hbad]; [|lia].
    destruct (Nat.leb_spec (i1 - i) (length (drop i a))) as [_|Hbad];
      [|rewrite length_drop in Hbad; lia].
    cbn [andb]. rewrite drop_drop. replace (i + (i1 - i)) with i1 by lia.
    fold (slice a i i1). rewrite Hs, take_slice by assumption.
    rewrite (apply_group group i1 j1 i2 j2 _ Hl Hgok). now apply IH.
Qed.

(** Applying the unified diff of [a] and [b] to [a] gives [b]. *)
Lemma unified_diff_applies fromfile tofile :
  apply_patch (difflib.unified_diff a b fromfile tofile) a = Some b.
Proof.
  unfold difflib.unified_diff.
  pose proof (grouped_opcodes_ok a b) as Hok.
  destruct (difflib.get_grouped_opcodes a b 3) as [|group groups] eqn:E.
  - simpl in Hok |- *. f_equal.
    pose proof (same_stretch_slice _ _ _ _ Hok) as Hs. unfold slice in Hs.
    rewrite !Nat.sub_0_r, !drop_0, !take_ge in Hs by lia. exact Hs.
  - unfold apply_patch.
    rewrite (append_cons "-" "-- "), (append_cons "+" "++ ").
    rewrite <- (append_cons "-" "-- "), <- (append_cons "+" "++ ").
    assert (Hp : forall p s, String.prefix p (p +:+ s) = true).
    { intros p s. apply startswith_spec. eauto. }
    rewrite !Hp. cbn [andb].
    apply (apply_groups (group :: groups) 0 0 Hok).
Qed.

End ApplyHunks.

(** ** The diff as one text *)

Lemma append_nil_r (s : string) : s +:+ "" = s.
Proof. induction s as [|c s IH]; [reflexivity|]. now rewrite append_cons, IH. Qed.

Lemma no_newline_app s1 s2 :
  no_newline (s1 +:+ s2) = no_newline s1 && no_newline s2.
Proof.
  induction s1 as [|c s1 IH]; [reflexivity|].
  rewrite append_cons. cbn [no_newline]. now rewrite IH, andb_assoc.
Qed.

Lemma no_newline_uint d : no_newline (NilEmpty.string_of_uint d) = true.
Proof. induction d; simpl; auto. Qed.

Lemma no_newline_range start stop :
  no_newline (difflib._format_range_unified start stop) = true.
Proof.
  unfold difflib._format_range_unified, str_of_nat.
  destruct (_ =? 1); rewrite ?no_newline_app, ?no_newline_uint; reflexivity.
Qed.

Lemma one_line_intro body : no_newline body = true -> one_line (body +:+ nl).
Proof. intros H. exists body. auto. Qed.

Lemma one_line_marked c line : c <> ascii_of_nat 10 -> one_line line -> one_line (String c line).
Proof.
  intros Hc (body & -> & Hb). exists (String c body). split; [reflexivity|].
  cbn [no_newline]. rewrite Hb. now apply Ascii.eqb_neq in Hc as ->.
Qed.

Lemma splitlines_one_line line rest :
  one_line line -> splitlines (line +:+ rest) = line :: splitlines rest.
Proof.
  intros (body & -> & Hb). induction body as [|c body IH].
  - reflexivity.
  - cbn [no_newline] in Hb. apply andb_true_iff in Hb as [Hc Hb].
    rewrite !append_cons. cbn [splitlines].
    destruct (Ascii.eqb c (ascii_of_nat 10)); [discriminate|].
    now rewrite (IH Hb).
Qed.

Lemma join_empty_cons x xs : join "" (x :: xs) = x +:+ join "" xs.
Proof.
  unfold join. destruct xs as [|y xs]; simpl; [now rewrite append_nil_r|reflexivity].
Qed.

Lemma splitlines_join lines :
  Forall one_line lines -> splitlines (join "" lines) = lines.
Proof.
  induction 1 as [|line lines Hl _ IH]; [reflexivity|].
  now rewrite join_empty_cons, splitlines_one_line, IH.
Qed.

Lemma with_newlines_one_line l :
  Forall (fun s => no_newline s = true) l -> Forall one_line (with_newlines l).
Proof.
  intros H. unfold with_newlines. apply Forall_fmap.
  eapply Forall_impl; [exact H|]. intros s Hs. now apply one_line_intro.
Qed.

Lemma with_newlines_inj l1 l2 : with_newlines l1 = with_newlines l2 -> l1 = l2.
Proof.
  assert (Hinj : forall s t : string, s +:+ nl = t +:+ nl -> s = t).
  { induction s as [|c s IH]; intros [|d t]; rewrite ?append_cons; simpl.
    - reflexivity.
    - intros [= <- Ht]. destruct t; discriminate.
    - intros [= -> Hs]. destruct s; discriminate.
    - intros [= -> Hs]. f_equal. now apply IH. }
  revert l2. induction l1 as [|x l1 IH]; intros [|y l2]; simpl; try discriminate.
  - reflexivity.
  - intros [= Hx Hl]. f_equal; [now apply Hinj|now apply IH].
Qed.

Section DiffLines.

Variables a b : list string.

Hypothesis a_lines : Forall one_line a.
Hypothesis b_lines : Forall one_line b.

Lemma slice_one_line (l : list string) i1 i2 :
  Forall one_line l -> Forall one_line (slice l i1 i2).
Proof. intros H. unfold slice. now apply Forall_take, Forall_drop. Qed.

Lemma opcode_lines_one_line c : Forall one_line (difflib.opcode_lines a b c).
Proof.
  destruct c as [[[[tg i1] i2] j1] j2]. unfold difflib.opcode_lines.
  assert (Hmark : forall (m : string) l,
    m = " " \/ m = "-" \/ m = "+" -> Forall one_line l ->
    Forall one_line (map (fun line => m +:+ line) l)).
  { intros m l Hm Hl. apply Forall_fmap. eapply Forall_impl; [exact Hl|].
    intros s Hs. simpl.
    destruct Hm as [->|[->| ->]]; apply (one_line_marked _ s); try assumption;
      discriminate. }
  destruct tg; rewrite ?Forall_app; repeat split; apply Hmark;
    auto using slice_one_line.
Qed.

Lemma group_lines_one_line group : Forall one_line (difflib.group_lines a b nl group).
Proof.
  unfold difflib.group_lines. apply List.Forall_cons.
  - rewrite <- !append_assoc. apply one_line_intro.
    rewrite !no_newline_app, !no_newline_range. reflexivity.
  - apply Forall_concat, Forall_fmap, Forall_forall. intros c _.
    apply opcode_lines_one_line.
Qed.

Lemma unified_diff_one_line fromfile tofile :
  no_newline fromfile = true -> no_newline tofile = true ->
  Forall one_line (difflib.unified_diff a b fromfile tofile).
Proof.
  intros Hf Ht. unfold difflib.unified_diff.
  destruct (difflib.get_grouped_opcodes a b 3) as [|group groups]; [constructor|].
  apply List.Forall_cons.
  { rewrite <- !append_assoc. apply one_line_intro.
    rewrite !no_newline_app, Hf. reflexivity. }
  apply List.Forall_cons.
  { rewrite <- !append_assoc. apply one_line_intro.
    rewrite !no_newline_app, Ht. reflexivity. }
  apply Forall_concat, Forall_fmap, Forall_forall. intros g _.
  apply group_lines_one_line.
Qed.

End DiffLines.

(** ** The diff of a message *)

(** C8. A C7003 or C7004 message that [leave_module] adds carries, as
    its third argument, the text of the unified diff of the rendered
    imports and the expected list, both given with a newline after each
    entry.  Applying the lines of that diff to the first list (a line
    marked with a space keeps the next old line, a line marked [-]
    drops it, a line marked [+] is inserted, and the old lines outside
    the hunks are kept) gives the second list, which stands for one
    expected list only; when no rendered import contains a newline, the
    lines are recovered from the text, so the same holds of the text. *)
Theorem diff_round_trip (rt : Runtime) (node : module_node) (self : ImportChecker)
    (added : list message) (m : message) :
  messages (snd (leave_module rt node self)) = messages self ++ added ->
  m ∈ added ->
  exists actual expected1 expected2 expected_strs,
    collect_loop rt node ([], [], []) (enumerate (_imports self))
    = Return (actual, expected1, expected2)
    /\ actual = map as_string (_imports self)
    /\ ((msg_id m = "C7003" /\ expected_strs = last_field (sort expected1))
        \/ (msg_id m = "C7004" /\ expected_strs = last_field (sort expected2)))
    /\ m = order_message (msg_id m) actual expected_strs
    /\ let diff := difflib.unified_diff (with_newlines actual)
                                        (with_newlines expected_strs)
                                        "actual" "expected" in
       msg_args m !! 2 = Some (join "" diff)
       /\ apply_patch diff (with_newlines actual) = Some (with_newlines expected_strs)
       /\ (forall l, with_newlines l = with_newlines expected_strs -> l = expected_strs)
       /\ (Forall (fun s => no_newline s = true) actual ->
           apply_patch_text (join "" diff) (with_newlines actual)
           = Some (with_newlines expected_strs)).
Proof.
  rewrite leave_module_spec. intros Hadded Hm.
  destruct (collect_loop _ _ _ _) as [[[actual e1] e2]|e] eqn:E; simpl in Hadded.
  2: { rewrite <- (app_nil_r (messages self)) in Hadded at 1.
       apply app_inv_head in Hadded. subst added. now apply elem_of_nil in Hm. }
  apply app_inv_head in Hadded. subst added.
  pose proof (collect_loop_actual _ _ _ _ _ _ E) as (Hactual & _ & Hs1 & Hs2).
  assert (Hcase : exists id expected_strs,
    m = order_message id actual expected_strs
    /\ ((id = "C7003" /\ expected_strs = last_field (sort e1))
        \/ (id = "C7004" /\ expected_strs = last_field (sort e2)))).
  { unfold order_messages in Hm.
    destruct (bool_decide (actual ≠ last_field (sort e1))).
    - apply list_elem_of_singleton in Hm. eauto 10.
    - destruct (bool_decide (actual ≠ last_field (sort e2))).
      + apply list_elem_of_singleton in Hm. eauto 10.
      + now apply elem_of_nil in Hm. }
  destruct Hcase as (id & expected_strs & -> & Hid).
  exists actual, e1, e2, expected_strs. split; [reflexivity|]. split; [assumption|].
  split; [exact Hid|]. split; [reflexivity|]. cbv zeta.
  split; [reflexivity|].
  split; [apply unified_diff_applies|].
  split; [intros l Hl; now apply with_newlines_inj|].
  intros Hnl. unfold apply_patch_text.
  assert (Hexp : Forall (fun s => no_newline s = true) expected_strs).
  { assert (Hp : expected_strs ≡ₚ actual).
    { destruct Hid as [[_ ->]|[_ ->]]; unfold last_field.
      - rewrite (sort_perm e1). now rewrite Hs1.
      - rewrite (sort_perm e2). now rewrite Hs2. }
    now rewrite Hp. }
  rewrite splitlines_join; [apply unified_diff_applies|].
  apply unified_diff_one_line; auto using with_newlines_one_line.
Qed.

Lemma diff_round_trip_witness :
  exists expected_strs,
    apply_patch (difflib.unified_diff (with_newlines demo_actual)
                                      (with_newlines expected_strs)
                                      "actual" "expected")
                (with_newlines demo_actual)
    = Some (with_newlines expected_strs)
    /\ msg_args demo_message !! 1
       = Some (join nl (map (fun line => "  " +:+ line) expected_strs)).
Proof.
  assert (Hadded : messages (snd (leave_module demo_rt demo_module
                                    (visit_all demo_imports)))
                   = messages (visit_all demo_imports) ++ [demo_message])
    by (vm_compute; reflexivity).
  destruct (diff_round_trip demo_rt demo_module (visit_all demo_imports)
              [demo_message] demo_message Hadded (list_elem_of_here _ _))
    as (actual & e1 & e2 & expected_strs & _ & Ha & _ & Hmsg & _ & Hp & _).
  exists expected_strs. change (map as_string _) with demo_actual in Ha. subst actual.
  split; [exact Hp|]. rewrite Hmsg. reflexivity.
Defined.

(** * More of the checker *)

(** ** Calls of the host, one after the other *)

Lemma run_callbacks_app rt cbs1 cbs2 self :
  run_callbacks rt (cbs1 ++ cbs2) self
  = match run_callbacks rt cbs1 self with
    | (Return _, self') => run_callbacks rt cbs2 self'
    | (Raise e, self') => (Raise e, self')
    end.
Proof.
  revert self. induction cbs1 as [|cb cbs1 IH]; intros self; simpl; [reflexivity|].
  unfold mbind, method_bind.
  destruct (run_callback rt cb self) as [[[]|e] self']; [apply IH|reflexivity].
Qed.

Lemma handle_import_frame node I M :
  _handle_import node {| _imports := I; messages := M |}
  = (Return tt,
     {| _imports := I ++ (if bool_decide (parent node = Module) then [node] else []);
        messages := M ++ (if bool_decide (parent node = Module) then []
                          else [c7002 node]) |}).
Proof.
  unfold _handle_import. destruct (bool_decide (parent node = Module)); simpl.
  - now rewrite app_nil_r.
  - now rewrite app_nil_r.
Qed.

Lemma visit_import_frame node I M :
  visit_import node {| _imports := I; messages := M |}
  = (Return tt,
     {| _imports := I ++ (if bool_decide (parent node = Module) then [node] else []);
        messages := M ++ (if 1 <? length (names node) then [c7001 node] else [])
                      ++ (if bool_decide (parent node = Module) then []
                          else [c7002 node]) |}).
Proof.
  unfold visit_import, mbind, method_bind.
  destruct (1 <? length (names node)); simpl; rewrite handle_import_frame.
  - now rewrite <- app_assoc.
  - reflexivity.
Qed.

Lemma visit_from_frame node I M :
  visit_from node {| _imports := I; messages := M |}
  = (Return tt,
     {| _imports := I ++ (if bool_decide (parent node = Module) then [node] else []);
        messages := M ++ (if negb (level node =? 0)%Z then [c7005 node] else [])
                      ++ (if bool_decide (parent node = Module) then []
                          else [c7002 node]) |}).
Proof.
  unfold visit_from, mbind, method_bind.
  destruct (negb (level node =? 0)%Z); simpl; rewrite handle_import_frame.
  - now rewrite <- app_assoc.
  - reflexivity.
Qed.

Lemma leave_module_frame rt node I :
  exists r I' N, forall M,
    leave_module rt node {| _imports := I; messages := M |}
    = (r, {| _imports := I'; messages := M ++ N |}).
Proof.
  destruct (collect_loop rt node ([], [], []) (enumerate I)) as [[[actual e1] e2]|e] eqn:E.
  - eexists _, _, _. intros M. rewrite leave_module_spec. simpl. rewrite E. reflexivity.
  - exists (Raise e), I, []. intros M. rewrite leave_module_spec. simpl. rewrite E.
    now rewrite app_nil_r.
Qed.

Lemma run_callback_frame rt cb I :
  exists r I' N, forall M,
    run_callback rt cb {| _imports := I; messages := M |}
    = (r, {| _imports := I'; messages := M ++ N |}).
Proof.
  destruct cb as [n|n|node]; simpl.
  - eexists _, _, _. intros M. apply visit_import_frame.
  - eexists _, _, _. intros M. apply visit_from_frame.
  - apply leave_module_frame.
Qed.

Lemma run_callbacks_frame rt cbs : forall I,
  exists r I' N, forall M,
    run_callbacks rt cbs {| _imports := I; messages := M |}
    = (r, {| _imports := I'; messages := M ++ N |}).
Proof.
  induction cbs as [|cb cbs IH]; intros I.
  - exists (Return tt), I, []. intros M. simpl. now rewrite app_nil_r.
  - destruct (run_callback_frame rt cb I) as (r1 & I1 & N1 & H1).
    destruct r1 as [[]|e].
    + destruct (IH I1) as (r2 & I2 & N2 & H2).
      exists r2, I2, (N1 ++ N2). intros M. simpl. unfold mbind, method_bind.
      now rewrite H1, H2, app_assoc.
    + exists (Raise e), I1, N1. intros M. simpl. unfold mbind, method_bind.
      now rewrite H1.
Qed.

(** X3. What a sequence of calls returns, the imports it leaves
    collected and the messages it adds depend on the collected imports
    it starts from only: the messages the linter already has are kept,
    in place, in front of the new ones. *)
Theorem calls_only_add_messages (rt : Runtime) (cbs : list callback)
    (imports : list import_node) :
  exists r imports' added, forall old,
    run_callbacks rt cbs {| _imports := imports; messages := old |}
    = (r, {| _imports := imports'; messages := old ++ added |}).
Proof. apply run_callbacks_frame. Qed.

Lemma visit_callback_spec rt cb n I M :
  visited cb = Some n ->
  exists N,
    run_callback rt cb {| _imports := I; messages := M |}
    = (Return tt,
       {| _imports := I ++ (if bool_decide (parent n = Module) then [n] else []);
          messages := M ++ N ++ (if bool_decide (parent n = Module) then []
                                 else [c7002 n]) |})
    /\ count_c7002 N = 0.
Proof.
  destruct cb as [n'|n'|node]; simpl; intros [= <-].
  - eexists. split; [apply visit_import_frame|]. now destruct (1 <? _).
  - eexists. split; [apply visit_from_frame|]. now destruct (negb _).
Qed.

Lemma count_c7002_app l1 l2 : count_c7002 (l1 ++ l2) = count_c7002 l1 + count_c7002 l2.
Proof. unfold count_c7002. now rewrite List.filter_app, length_app. Qed.

Lemma top_level_visited_cons cb cbs n :
  visited cb = Some n ->
  top_level_visited (cb :: cbs)
  = (if bool_decide (parent n = Module) then [n] else []) ++ top_level_visited cbs.
Proof.
  intros Hn. unfold top_level_visited. simpl. rewrite Hn. simpl.
  now destruct (bool_decide (parent n = Module)).
Qed.

Lemma visits_spec rt cbs : forall I M,
  Forall is_visit cbs ->
  exists N,
    run_callbacks rt cbs {| _imports := I; messages := M |}
    = (Return tt, {| _imports := I ++ top_level_visited cbs; messages := M ++ N |})
    /\ length (top_level_visited cbs) + count_c7002 N = length cbs.
Proof.
  induction cbs as [|cb cbs IH]; intros I M Hv.
  - exists []. simpl. now rewrite !app_nil_r.
  - apply Forall_cons in Hv as [[n Hn] Hv].
    destruct (visit_callback_spec rt cb n I M Hn) as (N1 & E1 & Hc1).
    destruct (IH (I ++ (if bool_decide (parent n = Module) then [n] else []))
                 (M ++ N1 ++ (if bool_decide (parent n = Module) then [] else [c7002 n]))
                 Hv) as (N2 & E2 & Hc2).
    exists ((N1 ++ (if bool_decide (parent n = Module) then [] else [c7002 n])) ++ N2).
    split.
    + cbn [run_callbacks]. unfold mbind, method_bind. rewrite E1, E2.
      rewrite (top_level_visited_cons cb cbs n Hn).
      now rewrite <- !app_assoc.
    + rewrite !count_c7002_app, Hc1, (top_level_visited_cons cb cbs n Hn), length_app.
      destruct (bool_decide (parent n = Module));
        change (count_c7002 [c7002 n]) with 1; change (count_c7002 []) with 0;
        simpl; lia.
Qed.

(** X1. Calls that visit statements never raise, and they leave
    collected, after the imports collected before, exactly the visited
    statements whose parent is the module, in the order they were
    visited. *)
Theorem visits_collect_top_level (rt : Runtime) (cbs : list callback)
    (self : ImportChecker) :
  Forall is_visit cbs ->
  fst (run_callbacks rt cbs self) = Return tt
  /\ _imports (snd (run_callbacks rt cbs self)) = _imports self ++ top_level_visited cbs.
Proof.
  intros Hv. destruct self as [I M].
  destruct (visits_spec rt cbs I M Hv) as (N & -> & _). auto.
Qed.

Lemma demo_calls_visit : Forall is_visit demo_calls.
Proof. repeat constructor; eexists; reflexivity. Qed.

Lemma visits_collect_top_level_witness :
  fst (run_callbacks demo_rt demo_calls __init__) = Return tt
  /\ _imports (snd (run_callbacks demo_rt demo_calls __init__))
     = [import_of "requests";
        From "" [("helpers", None)] 1 Module "from . import helpers";
        import_of "os"].
Proof.
  exact (visits_collect_top_level demo_rt demo_calls __init__ demo_calls_visit).
Defined.

(** X4. Every visited import statement is either collected or reported
    with C7002, never both and never neither: over calls that visit
    statements, the collected imports and the C7002 messages grow
    together by the number of calls. *)
Theorem visits_collect_or_report (rt : Runtime) (cbs : list callback)
    (self : ImportChecker) :
  Forall is_visit cbs ->
  length (_imports (snd (run_callbacks rt cbs self)))
  + count_c7002 (messages (snd (run_callbacks rt cbs self)))
  = length (_imports self) + count_c7002 (messages self) + length cbs.
Proof.
  intros Hv. destruct self as [I M].
  destruct (visits_spec rt cbs I M Hv) as (N & -> & Hc). simpl.
  rewrite length_app, count_c7002_app. lia.
Qed.

Lemma visits_collect_or_report_witness :
  length (_imports (snd (run_callbacks demo_rt demo_calls __init__)))
  + count_c7002 (messages (snd (run_callbacks demo_rt demo_calls __init__)))
  = 0 + 0 + 4.
Proof.
  exact (visits_collect_or_report demo_rt demo_calls __init__ demo_calls_visit).
Defined.

Lemma run_callback_top_level rt cb self :
  Forall (fun n => parent n = Module) (_imports self) ->
  Forall (fun n => parent n = Module) (_imports (snd (run_callback rt cb self))).
Proof.
  intros Hinv. destruct self as [I M]. simpl in Hinv.
  assert (Hadd : forall n,
    Forall (fun n => parent n = Module)
           (I ++ (if bool_decide (parent n = Module) then [n] else []))).
  { intros n. apply Forall_app. split; [assumption|].
    destruct (bool_decide (parent n = Module)) eqn:E; [|constructor].
    apply bool_decide_eq_true in E. now repeat constructor. }
  destruct cb as [n|n|node]; simpl.
  - rewrite visit_import_frame. apply Hadd.
  - rewrite visit_from_frame. apply Hadd.
  - rewrite leave_module_spec. simpl.
    destruct (collect_loop _ _ _ _) as [[[actual e1] e2]|e]; simpl;
      [constructor|assumption].
Qed.

Lemma run_callbacks_top_level rt cbs : forall self,
  Forall (fun n => parent n = Module) (_imports self) ->
  Forall (fun n => parent n = Module) (_imports (snd (run_callbacks rt cbs self))).
Proof.
  induction cbs as [|cb cbs IH]; intros self Hinv; simpl; [assumption|].
  unfold mbind, method_bind.
  pose proof (run_callback_top_level rt cb self Hinv) as H1.
  destruct (run_callback rt cb self) as [[[]|e] self']; simpl in *; auto.
Qed.

(** X2. Whatever the host calls on a new checker, in whatever order
    and whether or not a call raises, the collected imports are
    statements whose parent is the module. *)
Theorem collected_are_top_level (rt : Runtime) (cbs : list callback) :
  Forall (fun n => parent n = Module)
         (_imports (snd (run_callbacks rt cbs __init__))).
Proof. apply run_callbacks_top_level. constructor. Qed.

Lemma MSGS_conversions :
  (fun entry => count_conversions (fst entry)) <$> MSGS !! "C7001" = Some 0
  /\ (fun entry => count_conversions (fst entry)) <$> MSGS !! "C7002" = Some 0
  /\ (fun entry => count_conversions (fst entry)) <$> MSGS !! "C7003" = Some 3
  /\ (fun entry => count_conversions (fst entry)) <$> MSGS !! "C7004" = Some 3
  /\ (fun entry => count_conversions (fst entry)) <$> MSGS !! "C7005" = Some 0.
Proof. repeat split; vm_compute; reflexivity. Qed.

Lemma order_messages_declared actual strs1 strs2 :
  Forall declared (order_messages actual strs1 strs2).
Proof.
  destruct MSGS_conversions as (_ & _ & H3 & H4 & _).
  unfold order_messages.
  destruct (bool_decide _); [apply Forall_singleton; exact H3|].
  destruct (bool_decide _); [apply Forall_singleton; exact H4|constructor].
Qed.

Lemma run_callback_declared rt cb self :
  Forall declared (messages self) ->
  Forall declared (messages (snd (run_callback rt cb self))).
Proof.
  intros Hinv. destruct self as [I M]. simpl in Hinv.
  destruct MSGS_conversions as (H1 & H2 & _ & _ & H5).
  assert (Hc2 : forall n, Forall declared
    (if bool_decide (parent n = Module) then [] else [c7002 n])).
  { intros n. destruct (bool_decide _); [constructor|].
    apply Forall_singleton. exact H2. }
  destruct cb as [n|n|node]; simpl.
  - rewrite visit_import_frame. simpl. rewrite !Forall_app.
    repeat split; [assumption| |apply Hc2].
    destruct (1 <? _); [apply Forall_singleton; exact H1|constructor].
  - rewrite visit_from_frame. simpl. rewrite !Forall_app.
    repeat split; [assumption| |apply Hc2].
    destruct (negb _); [apply Forall_singleton; exact H5|constructor].
  - rewrite leave_module_spec. simpl.
    destruct (collect_loop _ _ _ _) as [[[actual e1] e2]|e]; simpl; [|assumption].
    apply Forall_app. split; [assumption|apply order_messages_declared].
Qed.

Lemma run_callbacks_declared rt cbs : forall self,
  Forall declared (messages self) ->
  Forall declared (messages (snd (run_callbacks rt cbs self))).
Proof.
  induction cbs as [|cb cbs IH]; intros self Hinv; simpl; [assumption|].
  unfold mbind, method_bind.
  pose proof (run_callback_declared rt cb self Hinv) as H1.
  destruct (run_callback rt cb self) as [[[]|e] self']; simpl in *; auto.
Qed.

(** X5. Every message that calls of the host make a new checker add
    has an identifier that is a key of [MSGS], and it carries as many
    arguments as the template of that key has [%s] conversions: three
    for C7003 and C7004, none for the others. *)
Theorem messages_are_declared (rt : Runtime) (cbs : list callback) :
  Forall declared (messages (snd (run_callbacks rt cbs __init__))).
Proof. apply run_callbacks_declared. constructor. Qed.

(** ** The keys of the collected imports *)

Lemma import_key_text rt node n k : import_key rt node n = Return k -> snd k = as_string n.
Proof.
  unfold import_key, mbind, outcome_bind, mret, outcome_ret.
  destruct (import_pieces node n); simpl; [|discriminate].
  destruct (getitem _ 0); simpl; [|discriminate].
  destruct (_module_group _ _); simpl; [|discriminate].
  now intros [= <-].
Qed.

Lemma collect_step_key rt node actual e1 e2 i n :
  collect_step rt node (actual, e1, e2) (i, n)
  = k ← import_key rt node n;
    Return (actual ++ [as_string n], e1 ++ [(group_of k, i, as_string n)], e2 ++ [k]).
Proof.
  unfold collect_step, import_key, mbind, outcome_bind, mret, outcome_ret.
  destruct (import_pieces node n); simpl; [|reflexivity].
  destruct (getitem _ 0); simpl; [|reflexivity].
  destruct (_module_group _ _); reflexivity.
Qed.

Lemma collect_loop_keys rt node entries : forall actual e1 e2 actual' e1' e2',
  collect_loop rt node (actual, e1, e2) entries = Return (actual', e1', e2') ->
  exists ks,
    Forall2 (fun e k => import_key rt node (snd e) = Return k) entries ks
    /\ e1' = e1 ++ zip_with (fun e k => (group_of k, fst e, snd k)) entries ks
    /\ e2' = e2 ++ ks.
Proof.
  induction entries as [|[i n] entries IH]; intros actual e1 e2 actual' e1' e2';
    cbn [collect_loop].
  - intros [= <- <- <-]. exists []. simpl. rewrite !app_nil_r. auto.
  - rewrite collect_step_key. unfold mbind, outcome_bind.
    destruct (import_key rt node n) as [k|] eqn:Ek; cbn [Py.bind]; [|discriminate].
    intros Hl. apply IH in Hl as (ks & HF & -> & ->).
    exists (k :: ks). split; [now constructor|].
    simpl. rewrite <- !app_assoc, (import_key_text _ _ _ _ Ek). auto.
Qed.

Lemma collect_loop_raises rt node entries : forall st e,
  collect_loop rt node st entries = Raise e ->
  exists entry, entry ∈ entries /\ import_key rt node (snd entry) = Raise e.
Proof.
  induction entries as [|[i n] entries IH]; intros [[actual e1] e2] e;
    cbn [collect_loop]; [discriminate|].
  rewrite collect_step_key. unfold mbind, outcome_bind.
  destruct (import_key rt node n) as [k|e'] eqn:Ek; cbn [Py.bind].
  - intros Hl. apply IH in Hl as (entry & Hin & He).
    exists entry. split; [now right|assumption].
  - intros [= ->]. exists (i, n). split; [left|assumption].
Qed.

Lemma collect_loop_imports rt node imports actual e1 e2 :
  collect_loop rt node ([], [], []) (enumerate imports) = Return (actual, e1, e2) ->
  Forall2 (fun n k => import_key rt node n = Return k) imports e2
  /\ forall p k, e2 !! p = Some k -> e1 !! p = Some (group_of k, p, snd k).
Proof.
  intros Hl. apply collect_loop_keys in Hl as (ks & HF & -> & ->). simpl.
  assert (HF' : Forall2 (fun n k => import_key rt node n = Return k) imports ks).
  { rewrite <- (enumerate_snd imports). now apply Forall2_fmap_l. }
  split; [assumption|]. intros p k Hk.
  destruct (Forall2_lookup_r _ _ _ _ _ HF' Hk) as (n & Hn & _).
  rewrite lookup_zip_with. unfold enumerate. rewrite list_lookup_imap, Hn. simpl.
  now rewrite Hk.
Qed.

Lemma collect_loop_lengths rt node imports actual e1 e2 :
  collect_loop rt node ([], [], []) (enumerate imports) = Return (actual, e1, e2) ->
  length actual = length imports /\ length e1 = length imports
  /\ length e2 = length imports.
Proof.
  intros Hl. apply collect_loop_actual in Hl as (Ha & _ & H1 & H2).
  apply (f_equal length) in H1, H2. rewrite length_map in H1, H2.
  rewrite Ha, length_map in *. auto.
Qed.

Lemma collect_loop_groups rt node imports actual e1 e2 :
  collect_loop rt node ([], [], []) (enumerate imports) = Return (actual, e1, e2) ->
  map group_of e1 = map group_of e2.
Proof.
  intros Hl. pose proof (collect_loop_lengths _ _ _ _ _ _ Hl) as (_ & L1 & L2).
  apply collect_loop_imports in Hl as (_ & Hk).
  apply list_eq. intros p. rewrite !list_lookup_fmap.
  destruct (e2 !! p) as [k|] eqn:E.
  - now rewrite (Hk p k E).
  - apply lookup_ge_None in E. rewrite (proj2 (lookup_ge_None e1 p)); [reflexivity|lia].
Qed.

(** ** Lists that sorting leaves as they are *)

Lemma StronglySorted_pairwise {A} (R : relation A) l :
  (forall p q x y, p < q -> l !! p = Some x -> l !! q = Some y -> R x y) ->
  StronglySorted R l.
Proof.
  induction l as [|z l IH]; intros Hp; constructor.
  - apply IH. intros p q x y Hpq Hx Hy. apply (Hp (S p) (S q)); [lia|assumption..].
  - apply Forall_lookup. intros q y Hy. apply (Hp 0 (S q)); [lia|reflexivity|assumption].
Qed.

Lemma sort_fixed {A} `{CmpLaws A} (l : list A) : StronglySorted le l -> sort l = l.
Proof. intros Hs. symmetry. now apply sort_unique. Qed.

Lemma key1_le (g h : Z) (p q : nat) (s t : string) :
  (g <= h)%Z -> p < q -> le (g, p, s) (h, q, t).
Proof.
  intros Hg Hpq. unfold le, lt.
  change (cmp (h, q, t) (g, p, s))
    with (lex (lex (Z.compare h g) (Nat.compare q p)) (cmp t s)).
  destruct (Z.compare_spec h g); destruct (Nat.compare_spec q p); simpl;
    try lia; try reflexivity.
Qed.

Lemma expected1_sorted rt node imports actual e1 e2 :
  collect_loop rt node ([], [], []) (enumerate imports) = Return (actual, e1, e2) ->
  StronglySorted Z.le (map group_of e1) ->
  StronglySorted le e1.
Proof.
  intros Hl Hg. apply collect_loop_actual in Hl as (_ & Hidx & _ & _).
  apply StronglySorted_pairwise. intros p q [[g i] s] [[h j] t] Hpq Hp Hq.
  assert (Hi : i = p).
  { assert (Hs : seq 0 (length imports) !! p = Some i)
      by (rewrite <- Hidx, list_lookup_fmap, Hp; reflexivity).
    apply lookup_seq in Hs. lia. }
  assert (Hj : j = q).
  { assert (Hs : seq 0 (length imports) !! q = Some j)
      by (rewrite <- Hidx, list_lookup_fmap, Hq; reflexivity).
    apply lookup_seq in Hs. lia. }
  subst i j. apply key1_le; [|assumption].
  apply (StronglySorted_lookup Z.le (map group_of e1) p q g h Hg Hpq);
    rewrite list_lookup_fmap; [now rewrite Hp|now rewrite Hq].
Qed.

Lemma order_messages_same actual : order_messages actual actual actual = [].
Proof.
  unfold order_messages.
  now rewrite (bool_decide_eq_false_2 (actual ≠ actual)) by (intros Hn; now apply Hn).
Qed.

Lemma added_by_leave_module rt node self :
  added_by (leave_module rt node) self
  = match collect_loop rt node ([], [], []) (enumerate (_imports self)) with
    | Raise _ => []
    | Return (actual, expected1, expected2) =>
        order_messages actual (last_field (sort expected1))
                       (last_field (sort expected2))
    end.
Proof.
  unfold added_by. rewrite leave_module_spec.
  destruct (collect_loop _ _ _ _) as [[[actual e1] e2]|e]; simpl.
  - now rewrite drop_app_length.
  - now rewrite drop_all.
Qed.

(** ** Orders that get no message *)

(** X6. When the groups of the collected imports never go down from
    one statement to the next, the list sorted for C7003 is the list of
    the imports as they stand, and [leave_module] adds no C7003
    message, whatever the names within the groups are. *)
Theorem grouped_imports_no_c7003 (rt : Runtime) (node : module_node)
    (self : ImportChecker) (actual : list string) (expected1 : list key1)
    (expected2 : list key2) :
  collect_loop rt node ([], [], []) (enumerate (_imports self))
  = Return (actual, expected1, expected2) ->
  StronglySorted Z.le (map group_of expected1) ->
  last_field (sort expected1) = actual
  /\ Forall (fun m => msg_id m <> "C7003") (added_by (leave_module rt node) self).
Proof.
  intros Hl Hg.
  assert (Hs : last_field (sort expected1) = actual).
  { rewrite (sort_fixed _ (expected1_sorted _ _ _ _ _ _ Hl Hg)).
    now apply collect_loop_actual in Hl as (_ & _ & H1 & _). }
  split; [assumption|].
  rewrite added_by_leave_module, Hl, Hs. unfold order_messages.
  rewrite (bool_decide_eq_false_2 (actual ≠ actual)) by (intros Hn; now apply Hn).
  destruct (bool_decide _); [|constructor].
  apply Forall_singleton. discriminate.
Qed.

(** X7. When the keys of the collected imports (group, pieces, text)
    never go down from one statement to the next, [leave_module]
    returns, adds no message and empties the list of collected
    imports. *)
Theorem sorted_imports_no_message (rt : Runtime) (node : module_node)
    (self : ImportChecker) (actual : list string) (expected1 : list key1)
    (expected2 : list key2) :
  collect_loop rt node ([], [], []) (enumerate (_imports self))
  = Return (actual, expected1, expected2) ->
  StronglySorted le expected2 ->
  leave_module rt node self
  = (Return tt, {| _imports := []; messages := messages self |}).
Proof.
  intros Hl Hs2.
  assert (Hg : StronglySorted Z.le (map group_of expected1)).
  { rewrite (collect_loop_groups _ _ _ _ _ _ Hl).
    apply StronglySorted_pairwise. intros p q g h Hpq.
    rewrite !list_lookup_fmap.
    destruct (expected2 !! p) as [x|] eqn:Ex; [|discriminate].
    destruct (expected2 !! q) as [y|] eqn:Ey; [|discriminate].
    intros [= <-] [= <-]. apply key_le_group.
    exact (StronglySorted_lookup le _ p q x y Hs2 Hpq Ex Ey). }
  rewrite leave_module_spec, Hl.
  rewrite (sort_fixed _ (expected1_sorted _ _ _ _ _ _ Hl Hg)), (sort_fixed _ Hs2).
  apply collect_loop_actual in Hl as (_ & _ & H1 & H2).
  unfold last_field. rewrite H1, H2, order_messages_same. now rewrite app_nil_r.
Qed.

Lemma grouped_imports_no_c7003_witness :
  last_field (sort [(0%Z, 0, "import sys"); (0%Z, 1, "import os");
                    (1%Z, 2, "import requests")])
  = ["import sys"; "import os"; "import requests"]
  /\ Forall (fun m => msg_id m <> "C7003")
            (added_by (leave_module demo_rt demo_module)
                      {| _imports := grouped_imports; messages := [] |}).
Proof.
  apply (grouped_imports_no_c7003 demo_rt demo_module
           {| _imports := grouped_imports; messages := [] |}
           ["import sys"; "import os"; "import requests"]
           [(0%Z, 0, "import sys"); (0%Z, 1, "import os"); (1%Z, 2, "import requests")]
           [(0%Z, ["sys"], "import sys"); (0%Z, ["os"], "import os");
            (1%Z, ["requests"], "import requests")]).
  - vm_compute. reflexivity.
  - repeat first [apply SSorted_nil | apply SSorted_cons | apply List.Forall_nil
                 | apply List.Forall_cons]; unfold group_of; simpl; lia.
Defined.

Lemma sorted_imports_no_message_witness :
  leave_module demo_rt demo_module {| _imports := sorted_imports; messages := [] |}
  = (Return tt, {| _imports := []; messages := [] |}).
Proof.
  apply (sorted_imports_no_message demo_rt demo_module
           {| _imports := sorted_imports; messages := [] |}
           ["import os"; "import sys"; "import requests"; "import myapp"]
           [(0%Z, 0, "import os"); (0%Z, 1, "import sys");
            (1%Z, 2, "import requests"); (2%Z, 3, "import myapp")]
           [(0%Z, ["os"], "import os"); (0%Z, ["sys"], "import sys");
            (1%Z, ["requests"], "import requests"); (2%Z, ["myapp"], "import myapp")]).
  - vm_compute. reflexivity.
  - repeat first [apply SSorted_nil | apply SSorted_cons | apply List.Forall_nil
                 | apply List.Forall_cons]; vm_compute; reflexivity.
Defined.

(** ** What an ordering message holds *)

(** X8. Every message that [leave_module] adds is built from the texts
    of the collected imports and from an expected list that has the
    same texts, each as many times, in another order: nothing is lost
    or made up between Found and Expected, and the two are never the
    same list. *)
Theorem expected_is_rearrangement (rt : Runtime) (node : module_node)
    (self : ImportChecker) :
  Forall (fun m => exists expected,
            m = order_message (msg_id m) (map as_string (_imports self)) expected
            /\ expected ≡ₚ map as_string (_imports self)
            /\ expected <> map as_string (_imports self))
         (added_by (leave_module rt node) self).
Proof.
  rewrite added_by_leave_module.
  destruct (collect_loop _ _ _ _) as [[[actual e1] e2]|e] eqn:E; [|constructor].
  apply collect_loop_actual in E as (-> & _ & H1 & H2).
  unfold order_messages.
  destruct (bool_decide (_ ≠ last_field (sort e1))) eqn:B1.
  - apply bool_decide_eq_true in B1. apply Forall_singleton.
    exists (last_field (sort e1)). split; [reflexivity|]. split; [|congruence].
    unfold last_field. now rewrite (sort_perm e1), H1.
  - destruct (bool_decide (_ ≠ last_field (sort e2))) eqn:B2; [|constructor].
    apply bool_decide_eq_true in B2. apply Forall_singleton.
    exists (last_field (sort e2)). split; [reflexivity|]. split; [|congruence].
    unfold last_field. now rewrite (sort_perm e2), H2.
Qed.

(** X9. The list sorted for C7004 is ordered by group first; within a
    group by the pieces of the module name, compared piece by piece;
    and for equal pieces by the text of the statement. *)
Theorem expected2_order (expected2 : list key2) (p q : nat) (g g' : Z)
    (ps ps' : list string) (s s' : string) :
  p < q ->
  sort expected2 !! p = Some (g, ps, s) ->
  sort expected2 !! q = Some (g', ps', s') ->
  (g < g')%Z
  \/ (g = g' /\ (lt ps ps' = true \/ (ps = ps' /\ (lt s s' = true \/ s = s')))).
Proof.
  intros Hpq Hp Hq.
  pose proof (StronglySorted_lookup le _ p q _ _ (sort_sorted expected2) Hpq Hp Hq)
    as Hle.
  apply le_cases in Hle as [Hlt|Heq].
  - unfold lt in Hlt.
    change (cmp (g, ps, s) (g', ps', s'))
      with (lex (lex (Z.compare g g') (cmp ps ps')) (cmp s s')) in Hlt.
    destruct (lex (lex (g ?= g')%Z (cmp ps ps')) (cmp s s')) eqn:El; try discriminate.
    apply lex_lt in El as [El|[El Es]].
    + apply lex_lt in El as [Eg|[Eg Eps]].
      * left. now apply Z.compare_lt_iff.
      * right. apply Z.compare_eq_iff in Eg. split; [assumption|].
        left. unfold lt. now rewrite Eps.
    + apply lex_eq in El as [Eg Eps]. right.
      apply Z.compare_eq_iff in Eg. apply cmp_eq in Eps.
      split; [assumption|]. right. split; [assumption|]. left. unfold lt. now rewrite Es.
  - injection Heq as -> -> ->. right. split; [reflexivity|]. right. auto.
Qed.

Lemma expected2_order_witness :
  (0 < 1)%Z
  \/ (0%Z = 1%Z
      /\ (lt ["os"] ["requests"] = true
          \/ (["os"] = ["requests"]
              /\ (lt "import os" "import requests" = true
                  \/ "import os" = "import requests")))).
Proof.
  apply (expected2_order demo_expected2 1 2); [lia|vm_compute; reflexivity..].
Defined.

Lemma list_cmp_prefix (ps r : list string) : r <> [] -> lt ps (ps ++ r) = true.
Proof.
  intros Hr. unfold lt. change (cmp ps (ps ++ r)) with (list_cmp cmp ps (ps ++ r)).
  induction ps as [|x ps IH]; simpl.
  - now destruct r.
  - rewrite (proj2 (cmp_eq x x) eq_refl). simpl. exact IH.
Qed.

(** X10. Among imports of one group, an import whose pieces are the
    first pieces of another's comes first in the order of C7004,
    whatever the two texts are: the pieces [a] sort before the pieces
    [a.b]. *)
Theorem shorter_pieces_first (g : Z) (ps r : list string) (s t : string) :
  r <> [] -> lt (g, ps, s) (g, ps ++ r, t) = true.
Proof.
  intros Hr. pose proof (list_cmp_prefix ps r Hr) as Hlt. unfold lt in *.
  change (cmp (g, ps, s) (g, ps ++ r, t))
    with (lex (lex (Z.compare g g) (cmp ps (ps ++ r))) (cmp s t)).
  rewrite Z.compare_refl. simpl.
  now destruct (cmp ps (ps ++ r)).
Qed.

Lemma shorter_pieces_first_witness :
  lt (0%Z, ["os"], "import os") (0%Z, ["os"] ++ ["path"], "import os.path") = true.
Proof. apply (shorter_pieces_first 0 ["os"] ["path"]). discriminate. Defined.

(** ** The end of a module, once more *)

(** X11. With at most one collected import, [leave_module] adds no
    message. *)
Theorem single_import_no_message (rt : Runtime) (node : module_node)
    (self : ImportChecker) :
  length (_imports self) <= 1 ->
  added_by (leave_module rt node) self = [].
Proof.
  intros Hlen. rewrite added_by_leave_module.
  destruct (collect_loop _ _ _ _) as [[[actual e1] e2]|e] eqn:E; [|reflexivity].
  pose proof (collect_loop_lengths _ _ _ _ _ _ E) as (_ & L1 & L2).
  apply collect_loop_actual in E as (_ & _ & H1 & H2).
  assert (S1 : sort e1 = e1) by (destruct e1 as [|x [|y e1]]; simpl in *; [easy..|lia]).
  assert (S2 : sort e2 = e2) by (destruct e2 as [|x [|y e2]]; simpl in *; [easy..|lia]).
  unfold last_field. rewrite S1, S2, H1, H2. apply order_messages_same.
Qed.

Lemma single_import_no_message_witness :
  added_by (leave_module demo_rt demo_module)
           {| _imports := [import_of "requests"]; messages := [] |} = [].
Proof.
  apply (single_import_no_message demo_rt demo_module
           {| _imports := [import_of "requests"]; messages := [] |}).
  simpl. lia.
Defined.

Lemma leave_module_empty rt node M :
  leave_module rt node {| _imports := []; messages := M |}
  = (Return tt, {| _imports := []; messages := M |}).
Proof.
  rewrite leave_module_spec. simpl.
  change (order_messages [] _ _) with (order_messages [] [] []).
  now rewrite order_messages_same, app_nil_r.
Qed.

Lemma leave_module_returned rt node self :
  fst (leave_module rt node self) = Return tt ->
  snd (leave_module rt node self)
  = {| _imports := []; messages := messages (snd (leave_module rt node self)) |}.
Proof.
  rewrite leave_module_spec.
  destruct (collect_loop _ _ _ _) as [[[actual e1] e2]|e]; simpl;
    [reflexivity|discriminate].
Qed.

(** X12. Once [leave_module] has returned, calling it again, for any
    module, returns and changes nothing: no message is added for a
    module in which no import was visited. *)
Theorem leave_module_twice (rt : Runtime) (node node' : module_node)
    (self : ImportChecker) :
  fst (leave_module rt node self) = Return tt ->
  leave_module rt node' (snd (leave_module rt node self))
  = (Return tt, snd (leave_module rt node self)).
Proof.
  intros Hr. rewrite (leave_module_returned _ _ _ Hr). apply leave_module_empty.
Qed.

Lemma leave_module_twice_witness :
  leave_module demo_rt demo_module
               (snd (leave_module demo_rt demo_module (visit_all demo_imports)))
  = (Return tt, snd (leave_module demo_rt demo_module (visit_all demo_imports))).
Proof.
  apply (leave_module_twice demo_rt demo_module demo_module (visit_all demo_imports)).
  vm_compute. reflexivity.
Defined.

(** X13. Once [leave_module] has returned, the calls for the next
    module return what they return on a new checker, leave the same
    imports collected and add the same messages: nothing of a module
    reaches the verification of the next one. *)
Theorem next_module_starts_afresh (rt : Runtime) (node : module_node)
    (self : ImportChecker) (cbs : list callback) :
  fst (leave_module rt node self) = Return tt ->
  run_callbacks rt cbs (snd (leave_module rt node self))
  = (fst (run_callbacks rt cbs __init__),
     {| _imports := _imports (snd (run_callbacks rt cbs __init__));
        messages := messages (snd (leave_module rt node self))
                    ++ messages (snd (run_callbacks rt cbs __init__)) |}).
Proof.
  intros Hr. rewrite (leave_module_returned _ _ _ Hr) at 1.
  destruct (run_callbacks_frame rt cbs []) as (r & I' & N & Hf).
  change __init__ with {| _imports := []; messages := [] |}.
  now rewrite !Hf.
Qed.

Lemma next_module_starts_afresh_witness :
  run_callbacks demo_rt demo_calls
                (snd (leave_module demo_rt demo_module (visit_all demo_imports)))
  = (fst (run_callbacks demo_rt demo_calls __init__),
     {| _imports := _imports (snd (run_callbacks demo_rt demo_calls __init__));
        messages := messages (snd (leave_module demo_rt demo_module
                                                (visit_all demo_imports)))
                    ++ messages (snd (run_callbacks demo_rt demo_calls __init__)) |}).
Proof.
  apply (next_module_starts_afresh demo_rt demo_module (visit_all demo_imports)
                                   demo_calls).
  vm_compute. reflexivity.
Defined.

(** ** The pieces of a plain import *)

Lemma join_split (sep : ascii) (s : string) :
  join (String sep EmptyString) (split sep s) = s.
Proof.
  unfold join. induction s as [|c s IH]; [reflexivity|].
  cbn [split]. pose proof (split_not_nil sep s) as Hne.
  destruct (Ascii.eqb_spec c sep) as [->|Hc].
  - destruct (split sep s) as [|w ws]; [contradiction|].
    change (String.concat (String sep EmptyString) (EmptyString :: w :: ws))
      with (String sep (String.concat (String sep EmptyString) (w :: ws))).
    now rewrite IH.
  - destruct (split sep s) as [|w [|y ws]]; [contradiction|..].
    + simpl in IH |- *. now rewrite IH.
    + change (String.concat (String sep EmptyString) (String c w :: y :: ws))
        with (String c (String.concat (String sep EmptyString) (w :: y :: ws))).
      now rewrite IH.
Qed.

Lemma split_no_sep (sep : ascii) (s : string) :
  Forall (fun p => has_char sep p = false) (split sep s).
Proof.
  induction s as [|c s IH]; [now repeat constructor|].
  cbn [split]. pose proof (split_not_nil sep s) as Hne.
  destruct (Ascii.eqb_spec c sep) as [->|Hc].
  - now constructor.
  - destruct (split sep s) as [|w ws]; [contradiction|].
    apply Forall_cons in IH as [Hw Hws]. constructor; [|assumption].
    simpl. rewrite Hw. destruct (Ascii.eqb_spec sep c); [congruence|reflexivity].
Qed.

(** X14. The pieces of a plain import are those of the first name the
    statement binds, whatever other names follow: they are not empty,
    no piece holds a dot, and joined with dots they give that name
    back. *)
Theorem plain_import_pieces (node : module_node) (nm : string)
    (asname : option string) (rest : list (string * option string))
    (par : parent_node) (s : string) :
  exists pieces,
    import_pieces node (Import ((nm, asname) :: rest) par s) = Return pieces
    /\ pieces <> []
    /\ join "." pieces = nm
    /\ Forall (fun p => has_char "." p = false) pieces.
Proof.
  exists (split "." nm). split; [reflexivity|]. split; [apply split_not_nil|].
  split; [apply join_split|apply split_no_sep].
Qed.

(** ** The name of the module *)

Lemma import_pieces_absolute node node' n :
  absolute n -> import_pieces node n = import_pieces node' n.
Proof.
  destruct n as [nms par s|modname nms lvl par s]; simpl; [reflexivity|].
  intros ->. reflexivity.
Qed.

Lemma collect_loop_absolute rt node node' entries : forall st,
  Forall (fun e => absolute (snd e)) entries ->
  collect_loop rt node st entries = collect_loop rt node' st entries.
Proof.
  induction entries as [|[i n] entries IH]; intros [[actual e1] e2] Ha;
    cbn [collect_loop]; [reflexivity|].
  apply Forall_cons in Ha as [Hn Ha]. simpl in Hn.
  unfold collect_step. rewrite (import_pieces_absolute node node' n Hn).
  unfold mbind, outcome_bind.
  destruct (import_pieces node' n) as [pieces|]; cbn [Py.bind]; [|reflexivity].
  destruct (getitem pieces 0) as [p0|]; cbn [Py.bind]; [|reflexivity].
  destruct (_module_group rt p0) as [g|]; cbn [Py.bind]; [|reflexivity].
  now apply IH.
Qed.

(** X15. When every collected import is a plain import or a
    from-import of level zero, what [leave_module] does is the same
    for every module: the name of the module is not looked at. *)
Theorem absolute_imports_any_module (rt : Runtime) (node node' : module_node)
    (self : ImportChecker) :
  Forall absolute (_imports self) ->
  leave_module rt node self = leave_module rt node' self.
Proof.
  intros Ha. unfold leave_module.
  rewrite (collect_loop_absolute rt node node'); [reflexivity|].
  rewrite <- (enumerate_snd (_imports self)) in Ha.
  apply Forall_forall. intros [i n] Hin.
  apply (proj1 (Forall_forall _ _) Ha). apply list_elem_of_fmap. now exists (i, n).
Qed.

Lemma absolute_imports_any_module_witness :
  leave_module demo_rt demo_module (visit_all demo_imports)
  = leave_module demo_rt {| name := "elsewhere" |} (visit_all demo_imports).
Proof.
  apply (absolute_imports_any_module demo_rt demo_module {| name := "elsewhere" |}
                                     (visit_all demo_imports)).
  repeat first [apply List.Forall_nil | apply List.Forall_cons]; exact I.
Defined.

(** ** The diff of an ordering message *)

Lemma unified_diff_differs (a b : list string) :
  a <> b -> exists group groups, difflib.get_grouped_opcodes a b 3 = group :: groups.
Proof.
  intros Hab. destruct (difflib.get_grouped_opcodes a b 3) as [|group groups] eqn:E;
    [exfalso|eauto].
  pose proof (unified_diff_applies a b "" "") as Hp.
  unfold difflib.unified_diff in Hp. rewrite E in Hp. simpl in Hp. congruence.
Qed.

Lemma diff_text_head (a b : list string) :
  a <> b ->
  exists rest,
    join "" (difflib.unified_diff a b "actual" "expected")
    = "--- actual" +:+ nl +:+ "+++ expected" +:+ nl +:+ "@@ -" +:+ rest.
Proof.
  intros Hab. destruct (unified_diff_differs a b Hab) as (group & groups & E).
  eexists. unfold difflib.unified_diff. rewrite E. cbn [map concat].
  unfold difflib.group_lines at 1. rewrite <- app_comm_cons.
  rewrite !join_empty_cons, (append_assoc "@@ -"). reflexivity.
Qed.

(** X16. The third argument of every message that [leave_module] adds
    is a diff that says something: its text starts with the two header
    lines, for the files [actual] and [expected], and the first line
    of a hunk. *)
Theorem ordering_diff_not_empty (rt : Runtime) (node : module_node)
    (self : ImportChecker) :
  Forall (fun m => exists rest,
            msg_args m !! 2
            = Some ("--- actual" +:+ nl +:+ "+++ expected" +:+ nl +:+ "@@ -" +:+ rest))
         (added_by (leave_module rt node) self).
Proof.
  rewrite added_by_leave_module.
  destruct (collect_loop _ _ _ _) as [[[actual e1] e2]|e]; [|constructor].
  assert (Hd : forall id expected, actual <> expected ->
    exists rest, msg_args (order_message id actual expected) !! 2
    = Some ("--- actual" +:+ nl +:+ "+++ expected" +:+ nl +:+ "@@ -" +:+ rest)).
  { intros id expected Hne.
    destruct (diff_text_head (with_newlines actual) (with_newlines expected))
      as [rest Hrest].
    - intros Heq. now apply with_newlines_inj in Heq.
    - exists rest. simpl. f_equal. exact Hrest. }
  unfold order_messages.
  destruct (bool_decide (actual ≠ last_field (sort e1))) eqn:B1.
  - apply bool_decide_eq_true in B1. apply Forall_singleton. now apply Hd.
  - destruct (bool_decide (actual ≠ last_field (sort e2))) eqn:B2; [|constructor].
    apply bool_decide_eq_true in B2. apply Forall_singleton. now apply Hd.
Qed.

(** ** What is raised *)

Lemma module_group_raises rt nm e :
  _module_group rt nm = Raise e ->
  e <> ImportError /\ (nm ∉ sys_builtin_module_names rt)
  /\ imp_find_module rt nm = Raise e.
Proof.
  unfold _module_group.
  destruct (bool_decide (nm ∈ sys_builtin_module_names rt)) eqn:B; [discriminate|].
  apply bool_decide_eq_false in B.
  destruct (imp_find_module rt nm) as [found|e'].
  - cbv zeta. destruct (startswith _ (_APP_PREFIX rt)); [discriminate|].
    destruct (_ && _); discriminate.
  - destruct e'; try discriminate; intros [= <-]; repeat split; auto; discriminate.
Qed.

(** X17. The classifier returns one of the three groups, or raises
    what [imp.find_module] raised for a name that is not a built-in;
    it never raises [ImportError]. *)
Theorem module_group_outcomes (rt : Runtime) (nm : string) :
  match _module_group rt nm with
  | Return g =>
      g = _GROUP_STDLIB \/ g = _GROUP_THIRD_PARTY \/ g = _GROUP_APP_SPECIFIC
  | Raise e =>
      e <> ImportError /\ (nm ∉ sys_builtin_module_names rt)
      /\ imp_find_module rt nm = Raise e
  end.
Proof.
  destruct (_module_group rt nm) as [g|e] eqn:E; [|now apply module_group_raises].
  revert E. unfold _module_group.
  destruct (bool_decide _); [intros [= <-]; auto|].
  destruct (imp_find_module rt nm) as [found|e'].
  - cbv zeta. destruct (startswith _ (_APP_PREFIX rt)); [intros [= <-]; auto|].
    destruct (_ && _); intros [= <-]; auto.
  - destruct e'; try discriminate. intros [= <-]. auto.
Qed.

Lemma import_key_raises rt node n e :
  import_key rt node n = Raise e ->
  (e = IndexError /\ names n = [])
  \/ (e <> ImportError
      /\ exists nm, (nm ∉ sys_builtin_module_names rt)
                    /\ imp_find_module rt nm = Raise e).
Proof.
  unfold import_key, mbind, outcome_bind.
  destruct (import_pieces node n) as [pieces|e'] eqn:Ep; cbn [Py.bind].
  - destruct pieces as [|p0 pieces]; [now apply import_pieces_not_nil in Ep|].
    change (getitem (p0 :: pieces) 0) with (Return p0). cbn [Py.bind].
    destruct (_module_group rt p0) as [g|e'] eqn:Eg; cbn [Py.bind]; [discriminate|].
    intros [= ->]. right. apply module_group_raises in Eg as (Hne & Hb & Hf). eauto.
  - intros [= ->]. left.
    destruct n as [nms par s|modname nms lvl par s]; destruct nms as [|n0 nms];
      simpl in Ep |- *; try discriminate; injection Ep as <-; auto.
Qed.

(** X18. When [leave_module] raises, nothing has changed: no message
    is added and the collected imports are not dropped.  What is
    raised is [IndexError], for a collected statement that binds no
    name, or an exception other than [ImportError] that
    [imp.find_module] raised for a name that is not a built-in. *)
Theorem leave_module_raises (rt : Runtime) (node : module_node)
    (self : ImportChecker) (e : exn) :
  fst (leave_module rt node self) = Raise e ->
  snd (leave_module rt node self) = self
  /\ ((e = IndexError /\ exists n, n ∈ _imports self /\ names n = [])
      \/ (e <> ImportError
          /\ exists nm, (nm ∉ sys_builtin_module_names rt)
                        /\ imp_find_module rt nm = Raise e)).
Proof.
  rewrite leave_module_spec.
  destruct (collect_loop _ _ _ _) as [[[actual e1] e2]|e'] eqn:E; simpl;
    [discriminate|].
  intros [= ->]. split; [reflexivity|].
  apply collect_loop_raises in E as ([i n] & Hin & Hk). simpl in Hk.
  apply import_key_raises in Hk as [[-> Hn]|Hk]; [left|now right].
  split; [reflexivity|]. exists n. split; [|assumption].
  rewrite <- (enumerate_snd (_imports self)).
  apply list_elem_of_fmap. now exists (i, n).
Qed.

Lemma leave_module_raises_witness :
  snd (leave_module broken_rt demo_module
         {| _imports := [import_of "os"; import_of "broken"]; messages := [] |})
  = {| _imports := [import_of "os"; import_of "broken"]; messages := [] |}
  /\ ((ValueError = IndexError
       /\ exists n, n ∈ [import_of "os"; import_of "broken"] /\ names n = [])
      \/ (ValueError <> ImportError
          /\ exists nm, (nm ∉ sys_builtin_module_names broken_rt)
                        /\ imp_find_module broken_rt nm = Raise ValueError)).
Proof.
  apply (leave_module_raises broken_rt demo_module
           {| _imports := [import_of "os"; import_of "broken"]; messages := [] |}
           ValueError).
  vm_compute. reflexivity.
Defined.

(** ** What the messages are about *)

Lemma explained_mono cbs cbs' m :
  (forall cb, cb ∈ cbs -> cb ∈ cbs') -> explained cbs m -> explained cbs' m.
Proof.
  intros Hsub [(n & Hin & H)|[(n & Hin & H)|[(n & Hin & H)|(node & Hin & H)]]].
  - left. exists n. auto.
  - right. left. exists n. auto.
  - right. right. left. exists n. split; [|assumption]. destruct Hin; auto.
  - right. right. right. exists node. auto.
Qed.

Lemma explained_cons cb cbs m :
  explained (cb :: cbs) m -> explained [cb] m \/ explained cbs m.
Proof.
  intros [(n & Hin & H)|[(n & Hin & H)|[(n & Hin & H)|(node & Hin & H)]]].
  - apply elem_of_cons in Hin as [<-|Hin].
    + left. left. exists n. split; [left|assumption].
    + right. left. exists n. auto.
  - apply elem_of_cons in Hin as [<-|Hin].
    + left. right. left. exists n. split; [left|assumption].
    + right. right. left. exists n. auto.
  - destruct Hin as [Hin|Hin]; apply elem_of_cons in Hin as [<-|Hin].
    + left. right. right. left. exists n. split; [left; left|assumption].
    + right. right. right. left. exists n. auto.
    + left. right. right. left. exists n. split; [right; left|assumption].
    + right. right. right. left. exists n. auto.
  - apply elem_of_cons in Hin as [<-|Hin].
    + left. right. right. right. exists node. split; [left|assumption].
    + right. right. right. right. exists node. auto.
Qed.

Lemma handled_explained cb n :
  cb = VisitImport n \/ cb = VisitFrom n ->
  Forall (explained [cb]) (if bool_decide (parent n = Module) then [] else [c7002 n]).
Proof.
  intros Hcb. destruct (bool_decide (parent n = Module)) eqn:B; [constructor|].
  apply bool_decide_eq_false in B. apply Forall_singleton.
  right. right. left. exists n. split; [|auto].
  destruct Hcb as [->| ->]; [left|right]; left.
Qed.

Lemma run_callback_explained rt cb I M :
  exists N,
    messages (snd (run_callback rt cb {| _imports := I; messages := M |})) = M ++ N
    /\ Forall (explained [cb]) N.
Proof.
  destruct cb as [n|n|node]; simpl.
  - rewrite visit_import_frame. eexists. split; [reflexivity|].
    apply Forall_app. split; [|apply handled_explained; auto].
    destruct (1 <? length (names n)) eqn:B; [|constructor].
    apply Nat.ltb_lt in B. apply Forall_singleton.
    left. exists n. split; [left|auto].
  - rewrite visit_from_frame. eexists. split; [reflexivity|].
    apply Forall_app. split; [|apply handled_explained; auto].
    destruct (level n =? 0)%Z eqn:B; [constructor|].
    apply Z.eqb_neq in B. apply Forall_singleton.
    right. left. exists n. split; [left|auto].
  - rewrite leave_module_spec. simpl.
    destruct (collect_loop _ _ _ _) as [[[actual e1] e2]|e]; simpl.
    + eexists. split; [reflexivity|]. unfold order_messages.
      destruct (bool_decide _).
      * apply Forall_singleton. right. right. right. exists node.
        split; [left|auto].
      * destruct (bool_decide _); [|constructor].
        apply Forall_singleton. right. right. right. exists node.
        split; [left|auto].
    + exists []. split; [now rewrite app_nil_r|constructor].
Qed.

Lemma run_callbacks_explained rt cbs : forall pre self,
  Forall (explained pre) (messages self) ->
  Forall (explained (pre ++ cbs)) (messages (snd (run_callbacks rt cbs self))).
Proof.
  induction cbs as [|cb cbs IH]; intros pre [I M] Hinv; simpl in *.
  - now rewrite app_nil_r.
  - unfold mbind, method_bind.
    destruct (run_callback_explained rt cb I M) as (N & HN & Hex).
    assert (Hnext : Forall (explained (pre ++ [cb]))
                           (messages (snd (run_callback rt cb
                                             {| _imports := I; messages := M |})))).
    { rewrite HN. apply Forall_app. split.
      - eapply Forall_impl; [exact Hinv|]. intros m. apply explained_mono.
        intros c Hc. apply elem_of_app. now left.
      - eapply Forall_impl; [exact Hex|]. intros m. apply explained_mono.
        intros c Hc. apply elem_of_app. now right. }
    destruct (run_callback rt cb _) as [[[]|e] self'] eqn:E; simpl in *.
    + rewrite (cons_middle cb pre cbs), app_assoc. now apply IH.
    + eapply Forall_impl; [exact Hnext|]. intros m. apply explained_mono.
      intros c Hc. apply elem_of_app in Hc as [Hc|Hc]; apply elem_of_app; [now left|].
      right. apply list_elem_of_singleton in Hc as ->. left.
Qed.

(** X19. Every message of the checker is accounted for by a call:
    C7001 is on a visited plain import that names more than one
    module, C7005 on a visited from-import whose level is not zero,
    C7002 on a visited import whose parent is not the module, and
    C7003 and C7004 are on no statement and come from the end of a
    module. *)
Theorem every_message_explained (rt : Runtime) (cbs : list callback) :
  Forall (explained cbs) (messages (snd (run_callbacks rt cbs __init__))).
Proof. apply (run_callbacks_explained rt cbs [] __init__). constructor. Qed.

Lemma run_callbacks_keeps rt cbs self m :
  m ∈ messages self -> m ∈ messages (snd (run_callbacks rt cbs self)).
Proof.
  destruct self as [I M]. simpl.
  destruct (run_callbacks_frame rt cbs I) as (r & I' & N & Hf). rewrite Hf. simpl.
  intros Hm. apply elem_of_app. now left.
Qed.

Lemma visit_reports rt cb self m :
  is_visit cb -> explained [cb] m ->
  fst (run_callback rt cb self) = Return tt
  /\ m ∈ messages (snd (run_callback rt cb self)).
Proof.
  intros [n0 Hv] Hex. destruct self as [I M].
  destruct cb as [n|n|node]; simpl in *; [| |discriminate].
  - rewrite visit_import_frame. split; [reflexivity|]. simpl.
    destruct Hex as [(k & Hin & Hlen & ->)|[(k & Hin & _)|[(k & Hin & Hp & ->)
                    |(node & Hin & _)]]].
    + apply list_elem_of_singleton in Hin as [= <-].
      apply Nat.ltb_lt in Hlen. rewrite Hlen.
      apply elem_of_app. right. apply elem_of_app. left. left.
    + now apply list_elem_of_singleton in Hin.
    + assert (k = n) as ->
        by (destruct Hin as [Hin|Hin]; apply list_elem_of_singleton in Hin;
            congruence).
      rewrite (bool_decide_eq_false_2 _ Hp).
      apply elem_of_app. right. apply elem_of_app. right. left.
    + now apply list_elem_of_singleton in Hin.
  - rewrite visit_from_frame. split; [reflexivity|]. simpl.
    destruct Hex as [(k & Hin & _)|[(k & Hin & Hlv & ->)|[(k & Hin & Hp & ->)
                    |(node & Hin & _)]]].
    + now apply list_elem_of_singleton in Hin.
    + apply list_elem_of_singleton in Hin as [= <-].
      apply Z.eqb_neq in Hlv. rewrite Hlv.
      apply elem_of_app. right. apply elem_of_app. left. left.
    + assert (k = n) as ->
        by (destruct Hin as [Hin|Hin]; apply list_elem_of_singleton in Hin;
            congruence).
      rewrite (bool_decide_eq_false_2 _ Hp).
      apply elem_of_app. right. apply elem_of_app. right. left.
    + now apply list_elem_of_singleton in Hin.
Qed.

(** X20. Over calls that visit statements nothing goes unreported:
    every visited plain import of more than one module has its C7001
    message, every visited from-import of a level that is not zero its
    C7005 message, and every visited import whose parent is not the
    module its C7002 message. *)
Theorem visited_faults_reported (rt : Runtime) (cbs : list callback)
    (self : ImportChecker) (m : message) :
  Forall is_visit cbs ->
  explained cbs m ->
  m ∈ messages (snd (run_callbacks rt cbs self)).
Proof.
  revert self. induction cbs as [|cb cbs IH]; intros self Hv Hex.
  - exfalso.
    destruct Hex as [(n & Hin & _)|[(n & Hin & _)|[(n & [Hin|Hin] & _)
                    |(node & Hin & _)]]]; now apply elem_of_nil in Hin.
  - apply Forall_cons in Hv as [Hcb Hv]. simpl. unfold mbind, method_bind.
    apply explained_cons in Hex as [Hex|Hex].
    + destruct (visit_reports rt cb self m Hcb Hex) as [Hr Hm].
      destruct (run_callback rt cb self) as [r self'] eqn:E. simpl in Hr, Hm.
      subst r. now apply run_callbacks_keeps.
    + destruct Hcb as [n0 Hn0].
      destruct (visit_callback_spec rt cb n0 (_imports self) (messages self) Hn0)
        as (N & E & _).
      destruct self as [I M]. simpl in E. rewrite E. now apply IH.
Qed.

Lemma visited_faults_reported_witness :
  c7001 nested_import ∈ messages (snd (run_callbacks demo_rt demo_calls __init__)).
Proof.
  apply (visited_faults_reported demo_rt demo_calls __init__ (c7001 nested_import)).
  - repeat first [apply List.Forall_nil | apply List.Forall_cons];
      eexists; reflexivity.
  - left. exists nested_import. split; [|split; [simpl; lia|reflexivity]].
    unfold demo_calls. apply elem_of_cons. right. apply elem_of_cons. now left.
Defined.
